(** * Vibedict: the MDict engine (mdict-cpp/mdict.cc), embedded and verified

  A shallow embedding of the dictionary engine of
  [app/src/main/cpp/mdict-cpp/mdict.cc].

  Conventions of the embedding.
  - [std::string] is [string] (a sequence of 8-bit characters); a raw
    buffer ([char *], [std::vector<uint8_t>]) is a [list Z] of bytes.
  - Integers are [Z]; the LP64 widths of the Android arm64 build are
    written out where the source can wrap ([unsigned long] and [uint64_t]
    are 64 bits, [int] is 32 bits).  An overflow of [int] arithmetic has no
    defined behaviour.
  - A [float] is an IEEE 754 binary32 number; every operation rounds to
    nearest, ties to even.
  - A function that can throw, fail an [assert] or touch memory outside a
    buffer returns an [outcome].
  - Helpers whose source is outside this file of the repository
    (zlib, RIPEMD-128, Adler-32, the XML attribute scan, the text codecs,
    [std::wregex]) are the fields of the interface [Externals]. *)

From stdpp Require Import gmap strings list.
From Stdlib Require Import Ascii ZArith Lia Sorted Floats.SpecFloat.

Open Scope Z_scope.

(** ** Outcomes of a call *)

(** The exceptions the engine throws, by class and [what()] text. *)
Inductive exn : Type :=
| invalid_argument (what : string)
| logic_error (what : string)
| runtime_error (what : string).

(** A call returns, throws, stops at a failed [assert], reads or writes
    outside a buffer (no defined behaviour), or loops for ever. *)
Inductive outcome (A : Type) : Type :=
| Ok (a : A)
| Throw (e : exn)
| Abort
| Undefined
| Diverge.

Arguments Ok {A} a.
Arguments Throw {A} e.
Arguments Abort {A}.
Arguments Undefined {A}.
Arguments Diverge {A}.

#[global] Instance outcome_ret : MRet outcome := fun A a => Ok a.

#[global] Instance outcome_bind : MBind outcome := fun A B f m =>
  match m with
  | Ok a => f a
  | Throw e => Throw e
  | Abort => Abort
  | Undefined => Undefined
  | Diverge => Diverge
  end.

(** The outcome is not the exception [std::invalid_argument]. *)
Definition not_invalid_argument {A} (o : outcome A) : Prop :=
  forall what, o <> Throw (invalid_argument what).

(** ** Characters and bytes *)

Module Bytes.

(** [buf[i]] for a buffer of known extent. *)
Definition read (buf : list Z) (i : Z) : outcome Z :=
  if i <? 0 then Undefined
  else match buf !! Z.to_nat i with Some b => Ok b | None => Undefined end.

(** The [len] bytes at [buf + off], as [memcpy] reads them. *)
Definition slice (buf : list Z) (off len : Z) : outcome (list Z) :=
  if (off <? 0) || (len <? 0) || (Z.of_nat (length buf) <? off + len) then Undefined
  else Ok (take (Z.to_nat len) (drop (Z.to_nat off) buf)).

(** Conversion of an [int] to [byte] ([unsigned char]). *)
Definition to_byte (z : Z) : Z := z mod 256.

(** The value of a character read as [unsigned char]. *)
Definition uc (c : ascii) : Z := Z.of_N (Ascii.N_of_ascii c).

(** Conversion of an [int] back to [char] (keeps the low 8 bits). *)
Definition to_char (z : Z) : ascii := Ascii.ascii_of_N (Z.to_N (z mod 256)).

Definition is_byte (z : Z) : Prop := 0 <= z < 256.

(** Modelled from the spec: the byte primitives of [binutils]
    ([be_bin_to_u8], [be_bin_to_u16], [be_bin_to_u32], [be_bin_to_u64]), which
    the specification describes as "big-endian integer decoding from a byte
    slice at an offset".  The unit is not part of the sources at hand.  A
    read that leaves the buffer has no defined behaviour. *)
Definition be_value (bytes : list Z) : Z :=
  fold_left (fun acc b => acc * 256 + b) bytes 0.

Definition be_bin_to_uint (width : Z) (buf : list Z) (off : Z) : outcome Z :=
  bytes ← slice buf off width;
  mret (be_value bytes).

Definition be_bin_to_u8 := be_bin_to_uint 1.
Definition be_bin_to_u16 := be_bin_to_uint 2.
Definition be_bin_to_u32 := be_bin_to_uint 4.
Definition be_bin_to_u64 := be_bin_to_uint 8.

(** Modelled from the spec: [bin_slice(src, srclen, offset, len, target)] of
    [binutils], a "byte-slice helper" that "fails fast on a bounds
    violation"; [None] stands for a non-zero error number. *)
Definition bin_slice (src : list Z) (srclen offset len : Z) : option (list Z) :=
  if (offset <? 0) || (len <? 0) || (srclen <? offset + len) then None
  else Some (take (Z.to_nat len) (drop (Z.to_nat offset) src)).

(** Conversions to the unsigned 64-bit and 32-bit types and to [int]. *)
Definition to_u64 (z : Z) : Z := z mod 2 ^ 64.
Definition to_u32 (z : Z) : Z := z mod 2 ^ 32.
Definition to_int (z : Z) : Z := (z + 2 ^ 31) mod 2 ^ 32 - 2 ^ 31.

(** The result [z] of an addition or subtraction of two [int]s: outside the
    range of [int] the operation has no defined behaviour. *)
Definition int_result (z : Z) : outcome Z :=
  if (- 2 ^ 31 <=? z) && (z <? 2 ^ 31) then Ok z else Undefined.

(** A buffer copied into a [std::string]. *)
Definition string_of_bytes (l : list Z) : string :=
  String.string_of_list_ascii (map to_char l).

Definition bytes_of_string (s : string) : list Z :=
  map uc (String.list_ascii_of_string s).

End Bytes.

Import Bytes.

(** ** Single-precision numbers

    The type [float] of the build: IEEE 754 binary32 (24 bits of precision,
    exponents below 128), with the operations of [SpecFloat], which round to
    nearest, ties to even.  Products, sums and quotients are rounded one by
    one. *)

Module Float.

Definition float : Type := spec_float.

Definition prec : Z := 24.
Definition emax : Z := 128.

(** The conversion of an [int] to [float]. *)
Definition of_int (z : Z) : float := binary_normalize prec emax z 0 false.

Definition mul (x y : float) : float := SFmul prec emax x y.
Definition add (x y : float) : float := SFadd prec emax x y.
Definition div (x y : float) : float := SFdiv prec emax x y.

(** [x >= y]; both sides are converted to [double] without loss. *)
Definition geb (x y : float) : bool := SFleb y x.

(** [0.0f] and [2.0]. *)
Definition zero : float := S754_zero false.
Definition two : float := S754_finite false 8388608 (-22).

End Float.

(** ** The key normalizer [_s] (mdict.cc, lines 137-168) *)

Module Normalize.

(** The disjunction of the [else if]: the characters that are skipped. *)
Definition skipped (c : Z) : bool :=
  (c =? uc " ") || (c =? uc ":") || (c =? uc ".") || (c =? uc ",") ||
  (c =? uc "-") || (c =? uc "_") || (c =? uc "'") || (c =? uc "(") ||
  (c =? uc ")") || (c =? uc "#") || (c =? uc "<") || (c =? uc ">") ||
  (c =? uc "!") || (c =? uc "/") || (c =? uc "\") || (c =? uc "[") ||
  (c =? uc "]") || (c =? uc "{") || (c =? uc "}") || (c =? uc "@").

(** [std::string _s(std::string word)]: one pass over the bytes of [word],
    appending to the result [s]. *)
Fixpoint _s (word : string) : string :=
  match word with
  | EmptyString => EmptyString
  | String ch rest =>
      let c := uc ch in
      if (uc "A" <=? c) && (c <=? uc "Z") then String (to_char (c + 32)) (_s rest)
      else if skipped c then _s rest
      else String ch (_s rest)
  end.

(** *** The normalizer as the specification words it

    "ASCII 'A'..'Z' -> lower by adding 32; drop ASCII bytes in the set;
    all other bytes pass through unchanged". *)

Definition punctuation_set : list ascii :=
  [" "; ":"; "."; ","; "-"; "_"; "'"; "("; ")"; "#"; "<"; ">"; "!"; "/";
   "\"; "["; "]"; "{"; "}"; "@"]%char.

Definition in_punctuation_set (ch : ascii) : bool :=
  existsb (Ascii.eqb ch) punctuation_set.

Definition is_upper (ch : ascii) : bool := (65 <=? uc ch) && (uc ch <=? 90).

Definition lower (ch : ascii) : ascii :=
  if is_upper ch then to_char (uc ch + 32) else ch.

Definition normalize_for_compare (s : string) : string :=
  String.string_of_list_ascii
    (map lower (filter (fun ch => in_punctuation_set ch = false) (String.list_ascii_of_string s))).

(** What one step of [_s] does to a character. *)
Definition step_s (ch : ascii) : list ascii :=
  let c := uc ch in
  if (uc "A" <=? c) && (c <=? uc "Z") then [to_char (c + 32)]
  else if skipped c then [] else [ch].

End Normalize.

Import Normalize.

(** ** The key-info descrambler (mdict.cc, lines 643-681) *)

Module Descramble.

(** [((b[i] >> 4) | (b[i] << 4)) & 0xff]: the two nibbles of a byte swapped. *)
Definition rotl4 (x : Z) : Z :=
  Z.land (Z.lor (Z.shiftr x 4) (Z.shiftl x 4)) 255.

(** The [for] loop of [fast_decrypt], with [n] iterations left: [b] is the
    array being rewritten in place, [i] the loop index and [previous] the
    byte saved by the preceding iteration. *)
Fixpoint fast_decrypt_loop (n : nat) (i previous : Z) (b key : list Z) (key_len : Z)
  : outcome (list Z) :=
  match n with
  | O => Ok b
  | S n' =>
      bi ← read b i;
      ki ← read key (Z.rem i key_len);
      let t := to_byte (rotl4 bi) in
      let t := to_byte (Z.lxor (Z.lxor (Z.lxor t previous) (to_byte (Z.land i 255))) ki) in
      fast_decrypt_loop n' (i + 1) bi (<[Z.to_nat i := t]> b) key key_len
  end.

(** [void fast_decrypt(byte *data, const byte *k, int data_len, int key_len)];
    the result is the array [data] after the call. *)
Definition fast_decrypt (data k : list Z) (data_len key_len : Z) : outcome (list Z) :=
  fast_decrypt_loop (Z.to_nat data_len) 0 54 data k key_len.

Section WithRipemd.

(** [ripemd128bytes(buf, len)], from the RIPEMD-128 unit of the repository. *)
Variable ripemd128bytes : list Z -> list Z.

(** The eight bytes hashed by [mdx_decrypt]: a zeroed [calloc] block that
    receives [comp_block[4..8)] and then 0x95 and 0x36 at offsets 4 and 5. *)
Definition key_buffer (comp_block : list Z) : outcome (list Z) :=
  src ← slice comp_block 4 4;
  mret (<[5%nat := 54]> (<[4%nat := 149]> (src ++ replicate 4 0))).

(** [byte *mdx_decrypt(byte *comp_block, const int comp_block_len)]; the
    result is the block after the call (it is rewritten in place). *)
Definition mdx_decrypt (comp_block : list Z) (comp_block_len : Z) : outcome (list Z) :=
  kb ← key_buffer comp_block;
  let key := ripemd128bytes kb in
  tail ← fast_decrypt (drop 8 comp_block) key (comp_block_len - 8) 16;
  mret (take 8 comp_block ++ tail).

End WithRipemd.

(** The descrambler as the format describes it.  A byte with its two
    nibbles swapped: the low four bits become the high four bits, and the
    high four the low four. *)
Definition swap_nibbles (x : Z) : Z := (x mod 16) * 16 + x / 16.

(** The byte that replaces the [i]-th byte after the 8-byte prefix of
    [payload]. *)
Definition descrambled_byte (key payload : list Z) (i : Z) : Z :=
  let b := fun j => nth (Z.to_nat (8 + j)) payload 0 in
  let previous := if i =? 0 then 54 else b (i - 1) in
  Z.lxor (Z.lxor (Z.lxor (swap_nibbles (b i)) previous) (Z.land i 255))
         (nth (Z.to_nat (i mod 16)) key 0).

(** The byte written by iteration [i] of [fast_decrypt]. *)
Definition scrambled (key : list Z) (i bi previous : Z) : Z :=
  Z.lxor (Z.lxor (Z.lxor (rotl4 bi) previous) (Z.land i 255))
         (nth (Z.to_nat (i mod 16)) key 0).

End Descramble.

Import Descramble.

(** ** The helpers outside [mdict.cc]

    The units of the repository that [mdict.cc] calls (binutils, the text
    codecs, the XML attribute scan, zlib, Adler-32, RIPEMD-128) and the C++
    library's wide regular expressions, as an interface:
    - [NDEBUG]: whether the build disables [assert];
    - [utf16_to_utf8_header]: [None] when the conversion reports failure;
    - [parse_xml_header]: the attribute map it fills in;
    - [zlib_mem_uncompress src len hint]: [src] is what the source pointer
      can reach, [len] the length argument, [hint] the optional size; the
      result is empty when decompression fails;
    - [be_bin_to_utf8]: the string made of a slice of a buffer;
    - [be_bin_to_utf16], [hex_to_bytes], [utf16le_to_utf8]: the hexadecimal
      text of a slice, its bytes ([None] for a negative return), and the
      converted bytes with the returned count;
    - [trim_nulls], [base64_from_hex]: the post-processing of [locate];
    - [towlower]: the wide-character case fold of the C library;
    - [regex_compile]: the constructor of [std::wregex] with
      [std::regex_constants::icase] ([None] when it throws
      [std::regex_error]); [regex_search] is [std::regex_search]. *)
Class Externals : Type := {
  NDEBUG : bool;
  utf16_to_utf8_header : list Z -> option string;
  parse_xml_header : string -> gmap string string;
  ripemd128bytes : list Z -> list Z;
  zlib_mem_uncompress : list Z -> Z -> option Z -> list Z;
  adler32checksum : list Z -> Z;
  be_bin_to_utf8 : list Z -> string;
  be_bin_to_utf16 : list Z -> string;
  hex_to_bytes : string -> Z -> option (list Z);
  utf16le_to_utf8 : list Z -> Z -> list Z * Z;
  trim_nulls : string -> string;
  base64_from_hex : string -> string;
  towlower : Z -> Z;
  wregex : Type;
  regex_compile : list Z -> option wregex;
  regex_search : list Z -> wregex -> bool }.

(** ** The engine state (class [Mdict]) *)

Module Engine.

(** [filetype]: the strings "MDX" and "MDD". *)
Inductive filetype_t : Type := MDXTYPE | MDDTYPE.

(** The encryption flag: 0, 1 and 2. *)
Inductive encrypt_t : Type :=
| ENCRYPT_NO_ENC
| ENCRYPT_RECORD_ENC
| ENCRYPT_KEY_INFO_ENC.

(** The key encoding; [ENCODING_UTF8] is 0 and [ENCODING_UTF16] is 1. *)
Inductive encoding_t : Type :=
| ENCODING_UTF8
| ENCODING_UTF16
| ENCODING_BIG5
| ENCODING_GB18030.

#[global] Instance filetype_eq_dec : EqDecision filetype_t.
Proof. solve_decision. Defined.

#[global] Instance encrypt_eq_dec : EqDecision encrypt_t.
Proof. solve_decision. Defined.

#[global] Instance encoding_eq_dec : EqDecision encoding_t.
Proof. solve_decision. Defined.

(** What [init] finds behind the file name or descriptor. *)
Inductive file_source : Type :=
| NoFile                    (* no stream, and no file of that name *)
| Unopenable                (* the file exists, [fopen] returns null *)
| Opened (bytes : list Z).  (* an open stream over these bytes *)

Record key_block_info : Type := mk_key_block_info {
  first_key : string;
  last_key : string;
  key_block_start_offset_ : Z;
  key_block_comp_size : Z;
  key_block_decomp_size : Z;
  key_block_comp_accumulator : Z;
  key_block_decomp_accumulator : Z }.

Record key_list_item : Type := mk_key_list_item {
  record_start : Z;
  key_word : string }.

Record record_header_item : Type := mk_record_header_item {
  block_id : Z;
  compressed_size : Z;
  decompressed_size : Z;
  compressed_size_accumulator : Z;
  decompressed_size_accumulator : Z }.

(** The members of [Mdict], grouped by the function of [init] that assigns
    them. *)
Record header_fields : Type := mk_header {
  header_bytes_size : Z;
  key_block_start_offset : Z;
  encrypt : encrypt_t;
  version : Float.float;
  number_width : Z;
  encoding : encoding_t }.

Record key_header_fields : Type := mk_key_header {
  key_block_info_start_offset : Z;
  key_block_num : Z;
  entries_num : Z;
  key_block_info_decompress_size : Z;
  key_block_info_size : Z;
  key_block_size : Z }.

Record key_index_fields : Type := mk_key_index {
  key_block_info_list : list key_block_info;
  key_block_body_start : Z;
  key_block_compressed_start_offset : Z;
  key_list : list key_list_item;
  record_block_info_offset : Z }.

Record record_index_fields : Type := mk_record_index {
  record_block_info_size : Z;
  record_block_number : Z;
  record_block_entries_number : Z;
  record_block_header_size : Z;
  record_block_size : Z;
  record_header : list record_header_item;
  record_block_offset : Z }.

Record Mdict : Type := mk_Mdict {
  filename : string;
  filetype : filetype_t;
  file_ptr : file_source;
  hdr : header_fields;
  kh : key_header_fields;
  ki : key_index_fields;
  ri : record_index_fields }.

Definition set_hdr (h : header_fields) (m : Mdict) : Mdict :=
  mk_Mdict (filename m) (filetype m) (file_ptr m) h (kh m) (ki m) (ri m).

Definition set_kh (k : key_header_fields) (m : Mdict) : Mdict :=
  mk_Mdict (filename m) (filetype m) (file_ptr m) (hdr m) k (ki m) (ri m).

Definition set_ki (k : key_index_fields) (m : Mdict) : Mdict :=
  mk_Mdict (filename m) (filetype m) (file_ptr m) (hdr m) (kh m) k (ri m).

Definition set_ri (r : record_index_fields) (m : Mdict) : Mdict :=
  mk_Mdict (filename m) (filetype m) (file_ptr m) (hdr m) (kh m) (ki m) r.

(** [this->version >= 2.0] *)
Definition version_ge_2 (m : Mdict) : bool := Float.geb (version (hdr m)) Float.two.

(** [readfile(offset, len, buf)] into a zeroed buffer of [len] bytes: what
    the stream holds from [offset] on, and zeroes where it ends early. *)
Definition readfile (m : Mdict) (offset len : Z) : list Z :=
  match file_ptr m with
  | Opened bytes =>
      let got := take (Z.to_nat len) (drop (Z.to_nat offset) bytes) in
      got ++ replicate (Z.to_nat len - length got) 0
  | _ => replicate (Z.to_nat len) 0
  end.

(** The header length that [read_header] finds in the first four bytes. *)
Definition declared_header_size (m : Mdict) : Z :=
  be_value (readfile m 0 4).

(** *** The version number

    The lambda [parse_version] of [read_header] (lines 307-335), in [float]
    arithmetic: [int_part * 10 + (s[i] - '0')] is a product and a sum,
    [frac_part += (s[i] - '0') / divisor] a quotient and a sum, each rounded
    to binary32. *)

Definition isspace (c : ascii) : bool :=
  let z := uc c in (z =? 32) || ((9 <=? z) && (z <=? 13)).

Definition isdigit (c : ascii) : bool :=
  let z := uc c in (48 <=? z) && (z <=? 57).

Fixpoint skip_spaces (s : string) : string :=
  match s with
  | String c rest => if isspace c then skip_spaces rest else s
  | EmptyString => s
  end.

Fixpoint parse_int_part (s : string) (int_part : Float.float) : Float.float * string :=
  match s with
  | String c rest =>
      if isdigit c
      then parse_int_part rest
             (Float.add (Float.mul int_part (Float.of_int 10)) (Float.of_int (uc c - 48)))
      else (int_part, s)
  | EmptyString => (int_part, s)
  end.

Fixpoint parse_frac_part (s : string) (frac_part divisor : Float.float) : Float.float :=
  match s with
  | String c rest =>
      if isdigit c
      then parse_frac_part rest
             (Float.add frac_part (Float.div (Float.of_int (uc c - 48)) divisor))
             (Float.mul divisor (Float.of_int 10))
      else frac_part
  | EmptyString => frac_part
  end.

Definition parse_version (s : string) (fallback : Float.float) : Float.float :=
  match skip_spaces s with
  | EmptyString => fallback
  | s1 =>
      let '(int_part, s2) := parse_int_part s1 (Float.of_int 0) in
      let frac_part :=
        match s2 with
        | String "." s3 => parse_frac_part s3 (Float.of_int 0) (Float.of_int 10)
        | _ => Float.of_int 0
        end in
      Float.add int_part frac_part
  end.

(** [headinfo[key]] of [std::map]: the value, or the empty string that the
    subscript inserts. *)
Definition subscript (headinfo : gmap string string) (key : string) : string :=
  default EmptyString (headinfo !! key).

(** The encryption flag from the [Encrypted] attribute (lines 271-285). *)
Definition encrypt_of (headinfo : gmap string string) : encrypt_t :=
  if bool_decide (headinfo !! "Encrypted" = None)
     || bool_decide (subscript headinfo "Encrypted" = EmptyString)
     || bool_decide (subscript headinfo "Encrypted" = "No")
  then ENCRYPT_NO_ENC
  else if bool_decide (subscript headinfo "Encrypted" = "Yes")
  then ENCRYPT_RECORD_ENC
  else match subscript headinfo "Encrypted" with
       | String "2" _ => ENCRYPT_KEY_INFO_ENC
       | String "1" _ => ENCRYPT_RECORD_ENC
       | _ => ENCRYPT_NO_ENC
       end.

(** The encoding from the [Encoding] attribute (lines 351-369).  The first
    test is [headinfo.find("Encoding") != headinfo.end()], as written. *)
Definition encoding_of (ft : filetype_t) (headinfo : gmap string string) : encoding_t :=
  let enc :=
    if negb (bool_decide (headinfo !! "Encoding" = None))
       || bool_decide (subscript headinfo "Encoding" = EmptyString)
       || bool_decide (subscript headinfo "Encoding" = "UTF-8")
    then ENCODING_UTF8
    else if bool_decide (subscript headinfo "Encoding" = "GBK")
            || bool_decide (subscript headinfo "Encoding" = "GB2312")
    then ENCODING_GB18030
    else if bool_decide (subscript headinfo "Encoding" = "Big5")
            || bool_decide (subscript headinfo "Encoding" = "BIG5")
    then ENCODING_BIG5
    else if bool_decide (subscript headinfo "Encoding" = "utf16")
            || bool_decide (subscript headinfo "Encoding" = "utf-16")
    then ENCODING_UTF16
    else ENCODING_UTF8 in
  if bool_decide (ft = MDDTYPE) then ENCODING_UTF16 else enc.

Section WithExternals.

Context `{ext : Externals}.

(** [assert(c)] *)
Definition assert (c : bool) : outcome unit :=
  if NDEBUG then Ok tt else if c then Ok tt else Abort.

(** *** [Mdict::read_header] (lines 201-371) *)
Definition read_header (m : Mdict) : outcome Mdict :=
  let head_size_buf := readfile m 0 4 in
  header_bytes_size ← be_bin_to_u32 head_size_buf 0;
  let key_block_start_offset := header_bytes_size + 8 in
  let head_buffer := readfile m 4 header_bytes_size in
  match utf16_to_utf8_header head_buffer with
  | None =>
      (* "this mdx file is invalid": only the two offsets are assigned *)
      mret (set_hdr (mk_header header_bytes_size key_block_start_offset
                       (encrypt (hdr m)) (version (hdr m)) (number_width (hdr m))
                       (encoding (hdr m))) m)
  | Some header_text =>
      let headinfo := parse_xml_header header_text in
      let encrypt := encrypt_of headinfo in
      let sver := subscript headinfo "GeneratedByEngineVersion" in
      let version := parse_version sver Float.zero in
      let number_width := if Float.geb version Float.two then 8 else 4 in
      let key_block_info_start_offset :=
        if Float.geb version Float.two then key_block_start_offset + 40 + 4
        else key_block_start_offset + 16 in
      let encoding := encoding_of (filetype m) headinfo in
      mret (set_kh (mk_key_header key_block_info_start_offset
                      (key_block_num (kh m)) (entries_num (kh m))
                      (key_block_info_decompress_size (kh m))
                      (key_block_info_size (kh m)) (key_block_size (kh m)))
              (set_hdr (mk_header header_bytes_size key_block_start_offset
                          encrypt version number_width encoding) m))
  end.

(** The object after [read_header] when the header text converts and the
    attribute scan yields [headinfo]. *)
Definition after_read_header (m : Mdict) (headinfo : gmap string string) : Mdict :=
  let version := parse_version (subscript headinfo "GeneratedByEngineVersion") Float.zero in
  let kbso := declared_header_size m + 8 in
  set_kh (mk_key_header (if Float.geb version Float.two then kbso + 40 + 4 else kbso + 16)
            (key_block_num (kh m)) (entries_num (kh m))
            (key_block_info_decompress_size (kh m))
            (key_block_info_size (kh m)) (key_block_size (kh m)))
    (set_hdr (mk_header (declared_header_size m) kbso (encrypt_of headinfo) version
                (if Float.geb version Float.two then 8 else 4)
                (encoding_of (filetype m) headinfo)) m).

(** The number read from [number_width] bytes: [be_bin_to_u64] for width 8,
    [be_bin_to_u32] for width 4, and the initial value [dflt] otherwise. *)
Definition be_number (m : Mdict) (bytes : list Z) (dflt : Z) : outcome Z :=
  if number_width (hdr m) =? 8 then be_bin_to_u64 bytes 0
  else if number_width (hdr m) =? 4 then be_bin_to_u32 bytes 0
  else mret dflt.

(** [bin_slice] followed by the [throw] of its caller. *)
Definition bin_slice_or (src : list Z) (srclen offset len : Z) (what : string)
  : outcome (list Z) :=
  match bin_slice src srclen offset len with
  | Some bytes => Ok bytes
  | None => Throw (logic_error what)
  end.

(** *** [Mdict::read_key_block_header] (lines 387-578) *)
Definition read_key_block_header (m : Mdict) : outcome Mdict :=
  let key_block_info_bytes_num := if version_ge_2 m then 8 * 5 else 4 * 4 in
  let key_block_info_buffer :=
    readfile m (key_block_start_offset (hdr m)) key_block_info_bytes_num in
  if bool_decide (encrypt (hdr m) = ENCRYPT_RECORD_ENC)
  then Throw (invalid_argument "invalid encrypted file")
  else
    let nw := number_width (hdr m) in
    (* 1. number of key blocks *)
    key_block_nums_bytes ←
      bin_slice_or key_block_info_buffer key_block_info_bytes_num 0 nw
        "get key block bin slice failed";
    key_block_num ← be_number m key_block_nums_bytes 0;
    (* 2. number of entries; for width 4 the value goes to [key_block_num] *)
    entries_num_bytes ←
      bin_slice_or key_block_info_buffer key_block_info_bytes_num nw nw
        "get key block bin slice failed";
    '(entries_num, key_block_num) ←
      (if nw =? 8 then e ← be_bin_to_u64 entries_num_bytes 0; mret (e, key_block_num)
       else if nw =? 4 then k ← be_bin_to_u32 entries_num_bytes 0; mret (0, k)
       else mret (0, key_block_num));
    (* 3. key block info decompressed size, from version 2.0 on *)
    '(key_block_info_decompress_size, key_block_info_size_start_offset) ←
      (if version_ge_2 m then
         bytes ← bin_slice_or key_block_info_buffer key_block_info_bytes_num
                   (nw * 2) nw "decode key block decompress size failed";
         d ← be_number m bytes 0;
         mret (d, nw * 3)
       else mret (key_block_info_decompress_size (kh m), nw * 2));
    (* 4. key block info size *)
    key_block_info_size_buffer ←
      bin_slice_or key_block_info_buffer key_block_info_bytes_num
        key_block_info_size_start_offset nw "decode key block info size failed";
    key_block_info_size ← be_number m key_block_info_size_buffer 0;
    (* 5. key block size *)
    key_block_size_buffer ←
      bin_slice_or key_block_info_buffer key_block_info_bytes_num
        (key_block_info_size_start_offset + nw) nw "decode key block size failed";
    key_block_size ← be_number m key_block_size_buffer 0;
    let key_block_info_start_offset :=
      if version_ge_2 m then key_block_start_offset (hdr m) + 40 + 4
      else key_block_start_offset (hdr m) + 16 in
    mret (set_kh (mk_key_header key_block_info_start_offset key_block_num entries_num
                    key_block_info_decompress_size key_block_info_size key_block_size) m).

(** *** [Mdict::decode_key_block_info] (lines 1319-1549) *)

(** One key of a block descriptor: [be_bin_to_utf8] for a text dictionary,
    and for a resource archive the zeroed buffer of [utf16_len] bytes that
    [utf16le_to_utf8] has filled from [utf16_len - 1] bytes. *)
Definition descriptor_key (m : Mdict) (decompress_buff : list Z)
    (data_offset step_gap text_term : Z) : outcome string :=
  let len := to_u64 (step_gap - text_term) in
  if bool_decide (filetype m = MDXTYPE) then
    bytes ← slice decompress_buff data_offset len;
    mret (be_bin_to_utf8 bytes)
  else
    src ← slice decompress_buff data_offset (to_u64 (len - 1));
    let written := fst (utf16le_to_utf8 src len) in
    mret (string_of_bytes
            (take (Z.to_nat len) (written ++ replicate (Z.to_nat len - length written) 0))).

(** The state of the [while] loop over the block descriptors. *)
Record kbi_state : Type := mk_kbi_state {
  data_offset : Z;
  num_entries_counter : Z;
  previous_start_offset : Z;
  comp_acc : Z;
  decomp_acc : Z;
  kbi_list : list key_block_info }.

(** One iteration of [while (counter < this->key_block_num)]. *)
Definition kbi_step (m : Mdict) (decompress_buff : list Z) (byte_width text_term : Z)
    (st : kbi_state) : outcome kbi_state :=
  let v2 := version_ge_2 m in
  let nw := number_width (hdr m) in
  let off := data_offset st in
  current_entries ←
    (if v2 then be_bin_to_u64 decompress_buff off else be_bin_to_u32 decompress_buff off);
  let off := to_u64 (off + nw) in
  first_key_size ←
    (if v2 then be_bin_to_u16 decompress_buff off else be_bin_to_u8 decompress_buff off);
  let off := to_u64 (off + byte_width) in
  let step_gap :=
    if bool_decide (encoding (hdr m) = ENCODING_UTF16)
    then (first_key_size + text_term) * 2 else first_key_size + text_term in
  first_key ← descriptor_key m decompress_buff off step_gap text_term;
  let off := to_u64 (off + step_gap) in
  last_key_size ←
    (if v2 then be_bin_to_u16 decompress_buff off else be_bin_to_u8 decompress_buff off);
  let off := to_u64 (off + byte_width) in
  let step_gap :=
    if bool_decide (encoding (hdr m) = ENCODING_UTF16)
    then (last_key_size + text_term) * 2 else last_key_size + text_term in
  last_key ← descriptor_key m decompress_buff off step_gap text_term;
  let off := to_u64 (off + step_gap) in
  key_block_compress_size ←
    (if v2 then be_bin_to_u64 decompress_buff off else be_bin_to_u32 decompress_buff off);
  let off := to_u64 (off + nw) in
  key_block_decompress_size ←
    (if v2 then be_bin_to_u64 decompress_buff off else be_bin_to_u32 decompress_buff off);
  let off := to_u64 (off + nw) in
  let kbinfo :=
    mk_key_block_info first_key last_key (previous_start_offset st)
      key_block_compress_size key_block_decompress_size (comp_acc st) (decomp_acc st) in
  mret (mk_kbi_state off
          (to_u64 (num_entries_counter st + current_entries))
          (to_u64 (previous_start_offset st + key_block_compress_size))
          (to_u64 (comp_acc st + key_block_compress_size))
          (to_u64 (decomp_acc st + key_block_decompress_size))
          (kbi_list st ++ [kbinfo])).

(** The loop, with [n] descriptors left to read. *)
Fixpoint kbi_loop (m : Mdict) (decompress_buff : list Z) (byte_width text_term : Z)
    (n : nat) (st : kbi_state) : outcome kbi_state :=
  match n with
  | O => Ok st
  | S n' =>
      st' ← kbi_step m decompress_buff byte_width text_term st;
      kbi_loop m decompress_buff byte_width text_term n' st'
  end.

(** The bytes handed to zlib: the buffer itself, or the buffer descrambled
    in place when the key info is scrambled. *)
Definition kb_info_decrypted (m : Mdict) (kb_info_buff : list Z) (kb_info_buff_len : Z)
  : outcome (list Z) :=
  if bool_decide (encrypt (hdr m) = ENCRYPT_KEY_INFO_ENC)
  then mdx_decrypt ripemd128bytes kb_info_buff (to_int kb_info_buff_len)
  else Ok kb_info_buff.

(** The part of [decode_key_block_info] that follows the call of zlib: it
    walks the decompressed descriptors. *)
Definition decode_key_block_info_payload (m : Mdict) (decompress_buff : list Z)
  : outcome Mdict :=
  _ ← assert (Z.of_nat (length decompress_buff) =? key_block_info_decompress_size (kh m));
  let byte_width := if version_ge_2 m then 2 else 1 in
  let text_term := if version_ge_2 m then 1 else 0 in
  st ← kbi_loop m decompress_buff byte_width text_term
         (Z.to_nat (key_block_num (kh m)))
         (mk_kbi_state 0 0 0 0 0 (key_block_info_list (ki m)));
  mret (set_ki (mk_key_index (kbi_list st)
                  (key_block_info_start_offset (kh m) + key_block_info_size (kh m))
                  (key_block_compressed_start_offset (ki m))
                  (key_list (ki m)) (record_block_info_offset (ki m))) m).

(** [assert(kb_info_buff[i] == v)]: the byte is read only when the
    assertion is compiled in. *)
Definition assert_byte (buf : list Z) (i v : Z) : outcome unit :=
  if NDEBUG then Ok tt else b ← read buf i; assert (b =? v).

Definition decode_key_block_info (m : Mdict) (key_block_info_buffer : list Z)
    (kb_info_buff_len : Z) : outcome Mdict :=
  if version_ge_2 m then
    _ ← assert_byte key_block_info_buffer 0 2;
    _ ← assert_byte key_block_info_buffer 1 0;
    _ ← assert_byte key_block_info_buffer 2 0;
    _ ← assert_byte key_block_info_buffer 3 0;
    decrypted ← kb_info_decrypted m key_block_info_buffer kb_info_buff_len;
    _ ← (if Z.of_nat (length decrypted) <? 8 then Undefined else Ok tt);
    decode_key_block_info_payload m
      (zlib_mem_uncompress (drop 8 decrypted) (to_u64 (kb_info_buff_len - 8))
         (Some (key_block_info_decompress_size (kh m))))
  else Throw (logic_error "not implements yet").

(** *** [Mdict::split_key_block] (lines 691-818)

    The indices [key_start_idx], [key_end_idx] and [i] are [int]s, and so is
    [width]; the member [number_width] is taken to be an [int] too (it is
    cast to [size_t] where a size is needed).  The indices are compared
    with the [unsigned long] length after conversion to that type. *)

(** The inner [while]: the index of the key terminator at or after [i], or
    [None] when the scan reaches [key_block_len]. *)
Fixpoint find_terminator (fuel : nat) (m : Mdict) (key_block : list Z)
    (key_block_len width i : Z) : outcome (option Z) :=
  match fuel with
  | O => Diverge
  | S fuel' =>
      if negb (to_u64 i <? key_block_len) then Ok None
      else
        b0 ← read key_block i;
        if bool_decide (encoding (hdr m) = ENCODING_UTF16) then
          if (Z.land b0 15 =? 0) && (Z.shiftr (Z.land b0 240) 4 =? 0) then
            i1 ← int_result (i + 1);
            b1 ← read key_block i1;
            if (Z.land b1 15 =? 0) && (Z.shiftr (Z.land b1 240) 4 =? 0)
            then Ok (Some i)
            else
              i' ← int_result (i + width);
              find_terminator fuel' m key_block key_block_len width i'
          else
            i' ← int_result (i + width);
            find_terminator fuel' m key_block key_block_len width i'
        else
          if (Z.shiftr (Z.land b0 240) 4 =? 0) && (Z.shiftr (Z.land b0 15) 0 =? 0)
          then Ok (Some i)
          else
            i' ← int_result (i + width);
            find_terminator fuel' m key_block key_block_len width i'
  end.

(** The key text between the number and the terminator. *)
Definition key_text_of (m : Mdict) (key_block : list Z) (key_start_idx key_end_idx : Z)
  : outcome string :=
  let nw := number_width (hdr m) in
  if bool_decide (encoding (hdr m) = ENCODING_UTF16) then
    start ← int_result (key_start_idx + nw);
    d ← int_result (key_end_idx - key_start_idx);
    d ← int_result (d - nw);
    bytes ← slice key_block start (to_u64 d);
    let hex_input := be_bin_to_utf16 bytes in
    let utf16le_buf_size := Z.of_nat (String.length hex_input) / 2 + 1 in
    match hex_to_bytes hex_input utf16le_buf_size with
    | None => Throw (runtime_error "hex_to_bytes failed")
    | Some utf16le_bytes =>
        let utf8_buf_size := Z.of_nat (length utf16le_bytes) * 3 + 1 in
        let '(utf8_output, utf8_bytes_written) :=
          utf16le_to_utf8 utf16le_bytes utf8_buf_size in
        if utf8_bytes_written <? 0 then Throw (runtime_error "utf16le_to_utf8 failed")
        else mret (string_of_bytes (take (Z.to_nat utf8_bytes_written) utf8_output))
    end
  else if bool_decide (encoding (hdr m) = ENCODING_UTF8) then
    start ← int_result (key_start_idx + nw);
    d ← int_result (key_end_idx - key_start_idx);
    d ← int_result (d - nw);
    bytes ← slice key_block start (to_u64 d);
    mret (be_bin_to_utf8 bytes)
  else mret EmptyString.

(** The outer [while (key_start_idx < key_block_len)]. *)
Fixpoint split_key_block_loop (fuel : nat) (m : Mdict) (key_block : list Z)
    (key_block_len key_start_idx key_end_idx : Z) (inner_key_list : list key_list_item)
  : outcome (list key_list_item) :=
  match fuel with
  | O => Diverge
  | S fuel' =>
      if negb (to_u64 key_start_idx <? key_block_len) then Ok inner_key_list
      else
        record_start ←
          (if version_ge_2 m then be_bin_to_u64 key_block key_start_idx
           else be_bin_to_u32 key_block key_start_idx);
        let width := if bool_decide (encoding (hdr m) = ENCODING_UTF16) then 2 else 1 in
        i ← int_result (key_start_idx + number_width (hdr m));
        if key_block_len <=? to_u64 i
        then Throw (runtime_error "key start idx > key block length")
        else
          found ← find_terminator (S (Z.to_nat key_block_len)) m key_block
                    key_block_len width i;
          let key_end_idx := default key_end_idx found in
          let key_end_idx :=
            if key_block_len <=? to_u64 key_end_idx then to_int key_block_len
            else key_end_idx in
          key_text ← key_text_of m key_block key_start_idx key_end_idx;
          next ← int_result (key_end_idx + width);
          split_key_block_loop fuel' m key_block key_block_len
            next key_end_idx
            (inner_key_list ++ [mk_key_list_item record_start key_text])
  end.

Definition split_key_block (m : Mdict) (key_block : list Z) (key_block_len : Z)
  : outcome (list key_list_item) :=
  split_key_block_loop (S (Z.to_nat key_block_len)) m key_block key_block_len 0 0 [].

(** *** [Mdict::decode_key_block] (lines 895-963) *)

(** The body of the [for] loop for one descriptor; [i] is the running
    offset into [key_block_buffer]. *)
Definition decode_one_key_block (m : Mdict) (key_block_buffer : list Z)
    (info : key_block_info) (i : Z) : outcome (list key_list_item) :=
  let comp_size := key_block_comp_size info in
  let decomp_size := key_block_decomp_size info in
  let start_ofset := to_u64 i in
  (* the four type bytes are copied from the start of the buffer *)
  key_block_comp_type ← slice key_block_buffer 0 4;
  chksum ← be_bin_to_u32 key_block_buffer (start_ofset + 4);
  let comp_type := Z.land (nth 0 key_block_comp_type 0) 255 in
  key_block ←
    (if comp_type =? 0 then Ok (drop 8 key_block_buffer)
     else if comp_type =? 1 then Ok []  (* the pointer stays null *)
     else if comp_type =? 2 then
       let kb_uncompressed :=
         zlib_mem_uncompress (drop (Z.to_nat (start_ofset + 8)) key_block_buffer)
           comp_size None in
       if bool_decide (kb_uncompressed = [])
       then Throw (runtime_error "key block decompress failed")
       else
         data ← slice kb_uncompressed 0 (to_u32 decomp_size);
         _ ← assert (adler32checksum data =? chksum);
         _ ← assert (Z.of_nat (length kb_uncompressed) =? decomp_size);
         Ok kb_uncompressed
     else Throw (runtime_error "cannot determine the key block compress type"));
  split_key_block m key_block decomp_size.

Fixpoint decode_key_block_loop (m : Mdict) (key_block_buffer : list Z)
    (infos : list key_block_info) (i : Z) (key_list : list key_list_item)
  : outcome (list key_list_item) :=
  match infos with
  | [] => Ok key_list
  | info :: rest =>
      tlist ← decode_one_key_block m key_block_buffer info i;
      decode_key_block_loop m key_block_buffer rest
        (to_int (i + key_block_comp_size info)) (key_list ++ tlist)
  end.

Definition decode_key_block (m : Mdict) (key_block_buffer : list Z) : outcome Mdict :=
  key_list ← decode_key_block_loop m key_block_buffer
                (key_block_info_list (ki m)) 0 (key_list (ki m));
  _ ← assert (Z.of_nat (length key_list) =? entries_num (kh m));
  mret (set_ki (mk_key_index (key_block_info_list (ki m)) (key_block_body_start (ki m))
                  (key_block_compressed_start_offset (ki m)) key_list
                  (key_block_info_start_offset (kh m) + key_block_info_size (kh m)
                   + key_block_size (kh m))) m).

(** *** [Mdict::read_key_block_info] (lines 591-634) *)

(** The second half of the function (lines 605-633): the compressed key
    blocks are read and decoded. *)
Definition read_key_block_compressed (m : Mdict) : outcome Mdict :=
  let start :=
    to_u32 (key_block_info_start_offset (kh m) + key_block_info_size (kh m)) in
  let m := set_ki (mk_key_index (key_block_info_list (ki m)) (key_block_body_start (ki m))
                     start (key_list (ki m)) (record_block_info_offset (ki m))) m in
  (* the length reaches [readfile] through [static_cast<int>] *)
  _ ← (if to_int (key_block_size (kh m)) <? 0 then Undefined else Ok tt);
  let key_block_compressed_buffer :=
    readfile m start (to_int (key_block_size (kh m))) ++
    replicate (Z.to_nat (key_block_size (kh m) - to_int (key_block_size (kh m)))) 0 in
  decode_key_block m key_block_compressed_buffer.

Definition read_key_block_info (m : Mdict) : outcome Mdict :=
  let key_block_info_buffer :=
    readfile m (key_block_info_start_offset (kh m)) (key_block_info_size (kh m)) in
  m ← decode_key_block_info m key_block_info_buffer (key_block_info_size (kh m));
  read_key_block_compressed m.

(** *** [Mdict::read_record_block_header] (lines 973-1056) *)

(** The [for] loop over the record blocks, with [n] iterations left. *)
Fixpoint record_header_loop (m : Mdict) (record_header_buffer : list Z) (n : nat)
    (i size_counter comp_accu decomp_accu : Z) (acc : list record_header_item)
  : outcome (list record_header_item * Z) :=
  match n with
  | O => Ok (acc, size_counter)
  | S n' =>
      if version_ge_2 m then
        comp_size ← be_bin_to_u64 record_header_buffer size_counter;
        let size_counter := to_u64 (size_counter + number_width (hdr m)) in
        uncomp_size ← be_bin_to_u64 record_header_buffer size_counter;
        let size_counter := to_u64 (size_counter + number_width (hdr m)) in
        record_header_loop m record_header_buffer n' (i + 1) size_counter
          (to_u64 (comp_accu + comp_size)) (to_u64 (decomp_accu + uncomp_size))
          (acc ++ [mk_record_header_item i comp_size uncomp_size comp_accu decomp_accu])
      else
        record_header_loop m record_header_buffer n' (i + 1) size_counter
          comp_accu decomp_accu acc
  end.

Definition read_record_block_header (m : Mdict) : outcome Mdict :=
  let record_block_info_size := if version_ge_2 m then 4 * 8 else 4 * 4 in
  let record_info_buffer :=
    readfile m (record_block_info_offset (ki m)) record_block_info_size in
  let nw := number_width (hdr m) in
  '(record_block_number, record_block_entries_number,
    record_block_header_size, record_block_size) ←
    (if version_ge_2 m then
       a ← be_bin_to_u64 record_info_buffer 0;
       b ← be_bin_to_u64 record_info_buffer nw;
       c ← be_bin_to_u64 record_info_buffer (2 * nw);
       d ← be_bin_to_u64 record_info_buffer (3 * nw);
       mret (a, b, c, d)
     else mret (record_block_number (ri m), record_block_entries_number (ri m),
                record_block_header_size (ri m), record_block_size (ri m)));
  _ ← assert (record_block_entries_number =? entries_num (kh m));
  let record_header_buffer :=
    readfile m (record_block_info_offset (ki m) + record_block_info_size)
      record_block_header_size in
  '(record_header, size_counter) ←
    record_header_loop m record_header_buffer (Z.to_nat record_block_number)
      0 0 0 0 (record_header (ri m));
  _ ← assert (Z.of_nat (length record_header) =? record_block_number);
  _ ← assert (size_counter =? record_block_header_size);
  mret (set_ri (mk_record_index record_block_info_size record_block_number
                  record_block_entries_number record_block_header_size record_block_size
                  record_header
                  (record_block_info_offset (ki m) + record_block_info_size
                   + record_block_header_size)) m).

(** *** [Mdict::init] (lines 1572-1592) *)
Definition init (m : Mdict) : outcome Mdict :=
  match file_ptr m with
  | NoFile => Throw (runtime_error ("File does not exist: " +:+ filename m))
  | Unopenable => Throw (runtime_error "File pointer is null (Open failed)")
  | Opened _ =>
      m ← read_header m;
      m ← read_key_block_header m;
      m ← read_key_block_info m;
      read_record_block_header m
  end.

End WithExternals.

End Engine.

Import Engine.

(** ** Queries *)

Module Query.

(** The [encoding] argument of [locate]. *)
Inductive mdict_encoding_t : Type := MDICT_ENCODING_HEX | MDICT_ENCODING_BASE64.

(** [hex_map[b >> 4]] and [hex_map[b & 0x0F]] for every byte of a slice. *)
Definition hex_digit (z : Z) : ascii :=
  nth (Z.to_nat z) (String.list_ascii_of_string "0123456789ABCDEF") "0"%char.

Definition hex_of_bytes (l : list Z) : string :=
  String.string_of_list_ascii
    (flat_map (fun b => [hex_digit (Z.shiftr b 4); hex_digit (Z.land b 15)]) l).

(** [::tolower] of the C locale, applied to every character by
    [std::transform]. *)
Definition tolower (c : ascii) : ascii :=
  if (65 <=? uc c) && (uc c <=? 90) then to_char (uc c + 32) else c.

Fixpoint lowercase (s : string) : string :=
  match s with
  | EmptyString => EmptyString
  | String c rest => String (tolower c) (lowercase rest)
  end.

(** [s.find(sub) != npos] on strings and on wide strings. *)
Fixpoint starts_with {A} `{EqDecision A} (p l : list A) : bool :=
  match p, l with
  | [], _ => true
  | x :: p', y :: l' => bool_decide (x = y) && starts_with p' l'
  | _ :: _, [] => false
  end.

Fixpoint contains {A} `{EqDecision A} (sub l : list A) : bool :=
  starts_with sub l ||
  match l with
  | [] => false
  | _ :: l' => contains sub l'
  end.

Definition string_contains (sub s : string) : bool :=
  contains (String.list_ascii_of_string sub) (String.list_ascii_of_string s).

(** [utf8_to_wstring] (lines 1947-1977): the scalar values of a UTF-8
    string; a truncated sequence ends the conversion, a stray byte is
    skipped. *)
Fixpoint utf8_to_wstring_bytes (str : list Z) : list Z :=
  match str with
  | [] => []
  | c :: rest =>
      if c <? 128 then c :: utf8_to_wstring_bytes rest
      else if Z.land c 224 =? 192 then
        match rest with
        | c1 :: rest1 =>
            Z.lor (Z.shiftl (Z.land c 31) 6) (Z.land c1 63) :: utf8_to_wstring_bytes rest1
        | _ => []
        end
      else if Z.land c 240 =? 224 then
        match rest with
        | c1 :: c2 :: rest2 =>
            Z.lor (Z.lor (Z.shiftl (Z.land c 15) 12) (Z.shiftl (Z.land c1 63) 6))
                  (Z.land c2 63) :: utf8_to_wstring_bytes rest2
        | _ => []
        end
      else if Z.land c 248 =? 240 then
        match rest with
        | c1 :: c2 :: c3 :: rest3 =>
            Z.lor (Z.lor (Z.lor (Z.shiftl (Z.land c 7) 18) (Z.shiftl (Z.land c1 63) 12))
                         (Z.shiftl (Z.land c2 63) 6))
                  (Z.land c3 63) :: utf8_to_wstring_bytes rest3
        | _ => []
        end
      else utf8_to_wstring_bytes rest
  end.

Definition utf8_to_wstring (s : string) : list Z :=
  utf8_to_wstring_bytes (bytes_of_string s).

(** [std::lower_bound] over a vector: the classic halving search, [count]
    elements from index [first]. *)
Fixpoint lower_bound_loop {A} (fuel : nat) (comp : A -> bool) (l : list A)
    (first count : nat) : nat :=
  match fuel with
  | O => first
  | S fuel' =>
      if (count =? 0)%nat then first
      else
        let step := (count / 2)%nat in
        match l !! (first + step)%nat with
        | Some x =>
            if comp x
            then lower_bound_loop fuel' comp l (S (first + step)) (count - S step)
            else lower_bound_loop fuel' comp l first step
        | None => first
        end
  end.

Definition lower_bound {A} (comp : A -> bool) (l : list A) : nat :=
  lower_bound_loop (S (length l)) comp l 0 (length l).

(** [std::map<unsigned long, std::vector<key_list_item*>>]: the entries in
    increasing order of their key; [map_push idx item] is
    [record_block_map[idx].push_back(item)]. *)
Fixpoint map_push (idx : Z) (item : key_list_item)
    (record_block_map : list (Z * list key_list_item)) : list (Z * list key_list_item) :=
  match record_block_map with
  | [] => [(idx, [item])]
  | (k, items) :: rest =>
      if idx <? k then (idx, [item]) :: (k, items) :: rest
      else if idx =? k then (k, items ++ [item]) :: rest
      else (k, items) :: map_push idx item rest
  end.

(** *** [Mdict::reduce_particial_keys_vector] (lines 1676-1711) *)
Definition reduce_particial_keys_vector (vec : list (string * string)) (phrase : string)
  : list string :=
  let word_to_find := _s phrase in
  let indexed := imap (fun i p => (i, p)) vec in
  (* Priority 1: unstripped exact matches *)
  let exact := filter (fun ip => phrase = fst (snd ip)) indexed in
  let definitions := map (fun ip => snd (snd ip)) exact in
  let found_indices := map fst exact in
  (* Priority 2: stripped matches at indices not yet used *)
  let stripped :=
    filter (fun ip => (fst ip ∉ found_indices) /\ (word_to_find = _s (fst (snd ip)))) indexed in
  definitions ++ map (fun ip => snd (snd ip)) stripped.

(** *** [Mdict::reduce_record_block_offset] (lines 1656-1674) *)
Fixpoint reduce_record_block_offset_loop (fuel : nat) (m : Mdict)
    (record_start left right : Z) : outcome Z :=
  match fuel with
  | O => Diverge
  | S fuel' =>
      if negb (left <=? right) then Ok (to_u64 (left - 1))
      else
        let mid := left + Z.shiftr (right - left) 1 in
        match record_header (ri m) !! Z.to_nat mid with
        | None => Undefined
        | Some h =>
            if decompressed_size_accumulator h <=? record_start
            then reduce_record_block_offset_loop fuel' m record_start (to_u64 (mid + 1)) right
            else reduce_record_block_offset_loop fuel' m record_start left (to_u64 (mid - 1))
        end
  end.

Definition reduce_record_block_offset (m : Mdict) (record_start : Z) : outcome Z :=
  let size := Z.of_nat (length (record_header (ri m))) in
  reduce_record_block_offset_loop (S (S (length (record_header (ri m))))) m
    record_start 0 (to_u64 (size - 1)).

Section WithExternals.

Context `{ext : Externals}.

(** *** [Mdict::decode_record_block_by_rid] (lines 1058-1203) *)

(** The value slice of the key at the head of [keys]: its start in the
    block and its length [upbound]. *)
Definition value_range (m : Mdict) (keys : list key_list_item)
    (uncomp_size decomp_accu previous_end previous_uncomp_size : Z) : Z * Z :=
  match keys with
  | [] => (0, 0)
  | k :: rest =>
      let expect_start := to_u64 (record_start k - decomp_accu) in
      let expect_end :=
        match rest with
        | k' :: _ => to_u64 (record_start k' - record_start k)
        | [] => to_u64 (record_block_size (ri m) - (previous_end + previous_uncomp_size))
        end in
      let upbound := if expect_end <? uncomp_size then expect_end else uncomp_size in
      (expect_start, upbound)
  end.

(** The [while (i < this->key_list.size())] loop, on the keys from index
    [i] on. *)
Fixpoint record_pairs (m : Mdict) (record_block : list Z) (keys : list key_list_item)
    (uncomp_size decomp_accu previous_end previous_uncomp_size : Z)
  : outcome (list (string * string)) :=
  match keys with
  | [] => Ok []
  | k :: rest =>
      if record_start k <? decomp_accu
      then record_pairs m record_block rest uncomp_size decomp_accu
             previous_end previous_uncomp_size
      else if uncomp_size <=? to_u64 (record_start k - decomp_accu) then Ok []
      else
        let '(expect_start, upbound) :=
          value_range m keys uncomp_size decomp_accu previous_end previous_uncomp_size in
        bytes ← slice record_block expect_start upbound;
        let def :=
          if bool_decide (filetype m = MDDTYPE) then hex_of_bytes bytes
          else be_bin_to_utf8 bytes in
        tl ← record_pairs m record_block rest uncomp_size decomp_accu
               previous_end previous_uncomp_size;
        mret ((key_word k, def) :: tl)
  end.

(** The block [rid] read, checked and decompressed. *)
Definition record_block_uncompressed (m : Mdict) (rid : Z) : outcome (list Z) :=
  match record_header (ri m) !! Z.to_nat rid with
  | None => Undefined
  | Some h =>
      let comp_size := compressed_size h in
      let uncomp_size := decompressed_size h in
      let record_block_cmp_buffer :=
        readfile m (record_block_offset (ri m) + compressed_size_accumulator h) comp_size in
      b0 ← read record_block_cmp_buffer 0;
      let comp_type := Z.land b0 255 in
      checksum ← be_bin_to_u32 record_block_cmp_buffer 4;
      if comp_type =? 0 then Throw (runtime_error "uncompress block not support yet")
      else if bool_decide (encrypt (hdr m) = ENCRYPT_RECORD_ENC)
      then Throw (runtime_error "record encrypted not support yet")
      else if comp_type =? 1 then Throw (runtime_error "lzo compress not support yet")
      else if comp_type =? 2 then
        let record_block_uncompressed_v :=
          zlib_mem_uncompress (drop 8 record_block_cmp_buffer) comp_size None in
        if bool_decide (record_block_uncompressed_v = [])
        then Throw (runtime_error "record block decompress failed size == 0")
        else
          data ← slice record_block_uncompressed_v 0 (to_u32 uncomp_size);
          let adler32cs := adler32checksum data in
          if negb (Z.of_nat (length record_block_uncompressed_v) =? uncomp_size)
          then Throw (runtime_error "record block decompress size mismatch")
          else if negb (adler32cs =? checksum)
          then Throw (runtime_error "record block checksum mismatch")
          else Ok record_block_uncompressed_v
      else Throw (runtime_error "cannot determine the record block compress type")
  end.

Definition decode_record_block_by_rid (m : Mdict) (rid : Z)
  : outcome (list (string * string)) :=
  match record_header (ri m) !! Z.to_nat rid with
  | None => Undefined
  | Some h =>
      let '(previous_end, previous_uncomp_size) :=
        if 0 <? rid then
          match record_header (ri m) !! Z.to_nat (rid - 1) with
          | Some p => (decompressed_size_accumulator p, decompressed_size p)
          | None => (0, 0)
          end
        else (0, 0) in
      record_block ← record_block_uncompressed m rid;
      record_pairs m record_block (key_list (ki m)) (decompressed_size h)
        (decompressed_size_accumulator h) previous_end previous_uncomp_size
  end.

(** *** [Mdict::locate] (lines 1713-1750) *)

Definition locate (m : Mdict) (resource_name : string) (encoding : mdict_encoding_t)
  : outcome string :=
  match list_find (fun item => key_word item = resource_name) (key_list (ki m)) with
  | None => Ok EmptyString
  | Some (_, item) =>
      record_block_idx ← reduce_record_block_offset m (record_start item);
      vec ← decode_record_block_by_rid m record_block_idx;
      match reduce_particial_keys_vector vec resource_name with
      | [] => Ok EmptyString
      | def :: _ =>
          let treated_output := trim_nulls def in
          match encoding with
          | MDICT_ENCODING_HEX => Ok treated_output
          | MDICT_ENCODING_BASE64 => Ok (base64_from_hex treated_output)
          end
      end
  end.

(** *** [Mdict::lookup] (lines 1797-1852) *)

(** Step 1: the matching keys, grouped by record block. *)
Fixpoint group_matches (m : Mdict) (word stripped_word : string)
    (keys : list key_list_item) (record_block_map : list (Z * list key_list_item))
  : outcome (list (Z * list key_list_item)) :=
  match keys with
  | [] => Ok record_block_map
  | item :: rest =>
      if bool_decide (key_word item = word) || bool_decide (_s (key_word item) = stripped_word)
      then
        record_block_idx ← reduce_record_block_offset m (record_start item);
        group_matches m word stripped_word rest (map_push record_block_idx item record_block_map)
      else group_matches m word stripped_word rest record_block_map
  end.

(** Step 2: the blocks decoded in the order of the map. *)
Fixpoint collect_definitions (m : Mdict) (word : string)
    (record_block_map : list (Z * list key_list_item)) (all_results : list string)
  : outcome (list string) :=
  match record_block_map with
  | [] => Ok all_results
  | (record_idx, _) :: rest =>
      vec ← decode_record_block_by_rid m record_idx;
      let defs := reduce_particial_keys_vector vec word in
      collect_definitions m word rest (all_results ++ defs)
  end.

(** The body of the [try] block. *)
Definition lookup_try (m : Mdict) (word : string) : outcome (list string) :=
  if bool_decide (filetype m = MDDTYPE) then
    result ← locate m word MDICT_ENCODING_HEX;
    mret (if bool_decide (result = EmptyString) then [] else [result])
  else
    record_block_map ← group_matches m word (_s word) (key_list (ki m)) [];
    match record_block_map with
    | [] => Ok []
    | _ => collect_definitions m word record_block_map []
    end.

(** [catch (std::exception &e)] prints the error; the function then
    returns the empty vector. *)
Definition lookup (m : Mdict) (word : string) : outcome (list string) :=
  match lookup_try m word with
  | Throw _ => Ok []
  | o => o
  end.

(** *** [Mdict::fulltext_search] (lines 2115-2171), without a progress
    callback *)

(** The loop over the entries of one block: the suggestions, and whether
    the limit of 50 was reached. *)
Fixpoint search_entries (wquery : list Z) (block_entries : list (string * string))
    (suggestions : list string) : list string * bool :=
  match block_entries with
  | [] => (suggestions, false)
  | entry :: rest =>
      let wdef := map towlower (utf8_to_wstring (snd entry)) in
      if contains wquery wdef then
        let suggestions := suggestions ++ [fst entry] in
        if (50 <=? length suggestions)%nat then (suggestions, true)
        else search_entries wquery rest suggestions
      else search_entries wquery rest suggestions
  end.

(** The loop over the record blocks [rid, rid + 1, ...]: [n] blocks left. *)
Fixpoint search_blocks (m : Mdict) (wquery : list Z) (n : nat) (rid : Z)
    (suggestions : list string) : outcome (list string) :=
  match n with
  | O => Ok suggestions
  | S n' =>
      match decode_record_block_by_rid m rid with
      | Ok block_entries =>
          let '(suggestions, full) := search_entries wquery block_entries suggestions in
          if full then Ok suggestions
          else search_blocks m wquery n' (rid + 1) suggestions
      | Throw _ => search_blocks m wquery n' (rid + 1) suggestions
      | Abort => Abort
      | Undefined => Undefined
      | Diverge => Diverge
      end
  end.

Definition fulltext_search (m : Mdict) (query : string) : outcome (list string) :=
  let wquery := map towlower (utf8_to_wstring query) in
  search_blocks m wquery (length (record_header (ri m))) 0 [].

(** *** Dictionaries in the layout of the format

    The predicates below are not functions of the engine: they describe
    what a file stores and the tables that [init] builds from a file in the
    layout of the format, for the statements about the queries.  [blocks]
    are the record blocks of the file, decompressed. *)

(** The block that holds the offset [rs]: its accumulator is at most [rs]
    and the next block, if any, starts after [rs]. *)
Definition holds (m : Mdict) (b : nat) (rs : Z) : Prop :=
  exists h, record_header (ri m) !! b = Some h /\
    decompressed_size_accumulator h <= rs /\
    forall h', record_header (ri m) !! S b = Some h' ->
      rs < decompressed_size_accumulator h'.

(** [rs] lies in the block described by [h]. *)
Definition in_block (h : record_header_item) (rs : Z) : bool :=
  (decompressed_size_accumulator h <=? rs) &&
  (rs <? decompressed_size_accumulator h + decompressed_size h).

(** The value that the file stores for the key [k]: the record data are the
    decompressed blocks one after another, [record_start] is an offset into
    them, and the value runs up to the offset of the key [next] that follows
    [k] in the key list, or to the end of the data for the last key. *)
Definition stored_value (blocks : list (list Z)) (k : key_list_item)
    (next : option key_list_item) : list Z :=
  let data := concat blocks in
  let stop :=
    match next with
    | Some k' => record_start k'
    | None => Z.of_nat (length data)
    end in
  take (Z.to_nat (stop - record_start k)) (drop (Z.to_nat (record_start k)) data).

(** The entries of the file, in the order of the key list: every key with
    the text of its value. *)
Fixpoint stored_entries (blocks : list (list Z)) (keys : list key_list_item)
  : list (key_list_item * string) :=
  match keys with
  | [] => []
  | k :: rest =>
      (k, be_bin_to_utf8 (stored_value blocks k (head rest))) :: stored_entries blocks rest
  end.

(** The entries whose value starts in the block described by [h], and those
    of block [b]. *)
Definition stored_in (h : record_header_item) (entries : list (key_list_item * string))
  : list (string * string) :=
  map (fun e => (key_word (fst e), snd e))
      (filter (fun e => in_block h (record_start (fst e)) = true) entries).

Definition stored_in_block (m : Mdict) (blocks : list (list Z)) (b : nat)
  : list (string * string) :=
  match record_header (ri m) !! b with
  | Some h => stored_in h (stored_entries blocks (key_list (ki m)))
  | None => []
  end.

(** The offset [rs] lies in no block that holds the last key of the key
    list. *)
Definition away_from_last_key (m : Mdict) (rs : Z) : Prop :=
  forall b h k, record_header (ri m) !! b = Some h -> last (key_list (ki m)) = Some k ->
    in_block h rs = true -> in_block h (record_start k) = false.

(** The query word matches the key, raw or normalized. *)
Definition matches (word : string) (k : key_list_item) : Prop :=
  key_word k = word \/ _s (key_word k) = _s word.

(** A text dictionary after [init] of a file in the layout of the format:
    the directory of record blocks holds the prefix sums of the block sizes,
    the record blocks decompress to [blocks], the keys are sorted by offset,
    every key lies in a block, and no value runs over the end of the block
    in which it starts. *)
Record well_formed (m : Mdict) (blocks : list (list Z)) : Prop := {
  wf_text : filetype m = MDXTYPE;
  wf_count : length (record_header (ri m)) = length blocks;
  wf_few : Z.of_nat (length blocks) < 2 ^ 63;
  wf_first : forall h, record_header (ri m) !! 0%nat = Some h ->
    decompressed_size_accumulator h = 0;
  wf_next : forall i h h',
    record_header (ri m) !! i = Some h -> record_header (ri m) !! S i = Some h' ->
    decompressed_size_accumulator h' =
    decompressed_size_accumulator h + decompressed_size h;
  wf_size : forall i h blk,
    record_header (ri m) !! i = Some h -> blocks !! i = Some blk ->
    decompressed_size h = Z.of_nat (length blk) /\
    decompressed_size_accumulator h + decompressed_size h < 2 ^ 64;
  wf_decode : forall i blk, blocks !! i = Some blk ->
    record_block_uncompressed m (Z.of_nat i) = Ok blk;
  wf_sorted : StronglySorted (fun k k' => record_start k <= record_start k')
                (key_list (ki m));
  wf_range : Forall (fun k => 0 <= record_start k < 2 ^ 64) (key_list (ki m));
  wf_covered : Forall (fun k => exists b h, record_header (ri m) !! b = Some h /\
                                  in_block h (record_start k) = true) (key_list (ki m));
  wf_whole : forall i k k' b h,
    key_list (ki m) !! i = Some k -> key_list (ki m) !! S i = Some k' ->
    record_header (ri m) !! b = Some h -> in_block h (record_start k) = true ->
    record_start k' <= decompressed_size_accumulator h + decompressed_size h }.

End WithExternals.

(** *** [Mdict::regex_suggest] (lines 1979-2113) *)

Section WithRegex.

Context `{ext : Externals}.

Definition max_suggestions : nat := 50.

(** The characters that end the literal prefix after [^]. *)
Definition ends_prefix (c : ascii) : bool :=
  existsb (Ascii.eqb c) ["."; "*"; "+"; "?"; "("; ")"; "["; "]"; "{"; "}"; "|"; "\"; "$"]%char.

(** The characters that end a literal run. *)
Definition ends_literal (c : ascii) : bool :=
  existsb (Ascii.eqb c)
    ["^"; "$"; "."; "*"; "+"; "?"; "("; ")"; "["; "]"; "{"; "}"; "|"; "\"]%char.

Fixpoint literal_prefix (s : string) : string :=
  match s with
  | EmptyString => EmptyString
  | String c rest => if ends_prefix c then EmptyString else String c (literal_prefix rest)
  end.

Definition longer (current_literal required_substring : string) : string :=
  if (String.length required_substring <? String.length current_literal)%nat
  then current_literal else required_substring.

Fixpoint longest_literal (s current_literal required_substring : string) : string :=
  match s with
  | EmptyString => longer current_literal required_substring
  | String c rest =>
      if ends_literal c
      then longest_literal rest EmptyString (longer current_literal required_substring)
      else longest_literal rest (current_literal +:+ String c EmptyString) required_substring
  end.

(** The [for] loop over the keys from the start iterator on; the result is
    the vector [suggestions] and the counter [checked_count] at its end. *)
Fixpoint regex_scan (re : wregex) (has_start_anchor : bool)
    (start_prefix_lower required_substring_lower : string)
    (keys : list key_list_item) (suggestions : list string) (checked_count : Z)
  : list string * Z :=
  match keys with
  | [] => (suggestions, checked_count)
  | item :: rest =>
      let key := key_word item in
      let key_lower := lowercase key in
      if has_start_anchor && negb (bool_decide (start_prefix_lower = EmptyString))
         && negb (String.prefix start_prefix_lower key_lower)
      then
        if String.ltb start_prefix_lower key_lower
        then (suggestions, checked_count)                      (* break *)
        else regex_scan re has_start_anchor start_prefix_lower
               required_substring_lower rest suggestions checked_count  (* continue *)
      else if negb (bool_decide (required_substring_lower = EmptyString))
              && negb (string_contains required_substring_lower key_lower)
      then regex_scan re has_start_anchor start_prefix_lower
             required_substring_lower rest suggestions checked_count     (* continue *)
      else
        let matched := regex_search (utf8_to_wstring key) re in
        let suggestions := if matched then suggestions ++ [key] else suggestions in
        if matched && (max_suggestions <=? length suggestions)%nat
        then (suggestions, checked_count)                      (* break *)
        else
          let checked_count := checked_count + 1 in
          if 20000 <? checked_count then (suggestions, checked_count)  (* break *)
          else regex_scan re has_start_anchor start_prefix_lower
                 required_substring_lower rest suggestions checked_count
  end.

(** The function up to its [return]: the suggestions and [checked_count]. *)
Definition regex_suggest_run (m : Mdict) (regex_str : string) : list string * Z :=
  match regex_str with
  | EmptyString => ([], 0)
  | String c0 tail =>
      let has_start_anchor := Ascii.eqb c0 "^" in
      let start_prefix := if has_start_anchor then literal_prefix tail else EmptyString in
      let required_substring := longest_literal regex_str EmptyString EmptyString in
      let start_prefix_lower := lowercase start_prefix in
      let required_substring_lower := lowercase required_substring in
      match regex_compile (utf8_to_wstring regex_str) with
      | None => ([], 0)
      | Some re =>
          let it :=
            if has_start_anchor && negb (bool_decide (start_prefix = EmptyString))
            then lower_bound
                   (fun item => String.ltb (lowercase (key_word item)) (lowercase start_prefix))
                   (key_list (ki m))
            else 0%nat in
          regex_scan re has_start_anchor start_prefix_lower required_substring_lower
            (drop it (key_list (ki m))) [] 0
      end
  end.

(** The call as a state transformer: the object after the call, and the
    returned vector.  The method assigns to no member. *)
Definition regex_suggest (m : Mdict) (regex_str : string) : Mdict * list string :=
  (m, fst (regex_suggest_run m regex_str)).

End WithRegex.

End Query.

Import Query.

(** ** A small dictionary file

    A complete file in the layout of the format, used to run the engine on a
    concrete input.  The helpers of [Externals] are given simple
    instances: the compressed form of a block is a run-length code, and the
    header text is taken as already scanned into its attributes. *)

Module Sample.

(** Modelled from the spec: [adler32checksum], "adler32(bytes) -> u32:
    standard" ([include/adler32.h] is not part of the sources at hand). *)
Definition adler32 (bytes : list Z) : Z :=
  let '(a, b) :=
    fold_left (fun '(a, b) x => let a' := (a + x) mod 65521 in (a', (b + a') mod 65521))
              bytes (1, 0) in
  b * 65536 + a.

(** A number as [width] big-endian bytes. *)
Fixpoint be_bytes (width : nat) (z : Z) : list Z :=
  match width with
  | O => []
  | S w => be_bytes w (z / 256) ++ [z mod 256]
  end.

(** The run-length code: pairs of a count and a byte. *)
Fixpoint rle_decode (src : list Z) : list Z :=
  match src with
  | n :: b :: rest => replicate (Z.to_nat n) b ++ rle_decode rest
  | _ => []
  end.

Fixpoint rle_encode (content : list Z) : list Z :=
  match content with
  | [] => []
  | b :: rest =>
      match rle_encode rest with
      | n :: b' :: tail =>
          if (b =? b') && (n <? 255) then (n + 1) :: b' :: tail
          else 1 :: b :: n :: b' :: tail
      | tail => 1 :: b :: tail
      end
  end.

(** A compressed block: the type tag 2, the Adler-32 of the content, and
    the coded content. *)
Definition block (content : list Z) : list Z :=
  [2; 0; 0; 0] ++ be_bytes 4 (adler32 content) ++ rle_encode content.

(** The helpers used to run the samples; [headinfo] is the result of the
    attribute scan of the header. *)
Definition externals (headinfo : gmap string string) : Externals := {|
  NDEBUG := false;
  utf16_to_utf8_header := fun _ => Some EmptyString;
  parse_xml_header := fun _ => headinfo;
  ripemd128bytes := fun kb => take 16 (kb ++ kb ++ replicate 16 0);
  zlib_mem_uncompress := fun src len _ => rle_decode (take (Z.to_nat len) src);
  adler32checksum := adler32;
  be_bin_to_utf8 := string_of_bytes;
  be_bin_to_utf16 := string_of_bytes;
  hex_to_bytes := fun s _ => Some (bytes_of_string s);
  utf16le_to_utf8 := fun src _ => (src, Z.of_nat (length src));
  trim_nulls := fun s => s;
  base64_from_hex := fun s => s;
  towlower := fun c => if (65 <=? c) && (c <=? 90) then c + 32 else c;
  wregex := list Z;
  regex_compile := fun p =>
    if bool_decide (count_occ Z.eq_dec p 91 = count_occ Z.eq_dec p 93)
    then Some p else None;
  regex_search := fun key p =>
    if bool_decide (p = [94; 36]) then bool_decide (key = []) else contains p key |}.

(** One entry of a key block, and one descriptor of the key block info. *)
Definition key_entry (record_start : Z) (key : string) : list Z :=
  be_bytes 8 record_start ++ bytes_of_string key ++ [0].

Definition descriptor (entries : Z) (first last : string) (comp decomp : Z) : list Z :=
  be_bytes 8 entries ++
  be_bytes 2 (Z.of_nat (String.length first)) ++ bytes_of_string first ++ [0] ++
  be_bytes 2 (Z.of_nat (String.length last)) ++ bytes_of_string last ++ [0] ++
  be_bytes 8 comp ++ be_bytes 8 decomp.

(** The entries of the key block: each key with the offset of its value
    in the record stream. *)
Fixpoint key_entries (record_start : Z) (entries : list (string * list Z)) : list Z :=
  match entries with
  | [] => []
  | e :: rest =>
      key_entry record_start (fst e) ++
      key_entries (record_start + Z.of_nat (length (snd e))) rest
  end.

(** A version 2.0 file with one key block and one record block: the keys
    with their values, in file order. *)
Definition file_of (entries : list (string * list Z)) : list Z :=
  let keys := key_entries 0 entries in
  let key_block := block keys in
  let first := default EmptyString (fst <$> head entries) in
  let last_ := default EmptyString (fst <$> last entries) in
  let info :=
    descriptor (Z.of_nat (length entries)) first last_
      (Z.of_nat (length key_block)) (Z.of_nat (length keys)) in
  let info_block := block info in
  let records := flat_map snd entries in
  let record_block := block records in
  (* header: empty text, then its checksum *)
  be_bytes 4 0 ++ be_bytes 4 0 ++
  (* key block header and its checksum *)
  be_bytes 8 1 ++ be_bytes 8 (Z.of_nat (length entries)) ++
  be_bytes 8 (Z.of_nat (length info)) ++ be_bytes 8 (Z.of_nat (length info_block)) ++
  be_bytes 8 (Z.of_nat (length key_block)) ++ be_bytes 4 0 ++
  info_block ++ key_block ++
  (* record block header *)
  be_bytes 8 1 ++ be_bytes 8 (Z.of_nat (length entries)) ++ be_bytes 8 16 ++
  be_bytes 8 (Z.of_nat (length record_block)) ++
  be_bytes 8 (Z.of_nat (length record_block)) ++ be_bytes 8 (Z.of_nat (length records)) ++
  record_block.

(** A version 2.0 file with one key block and one record block for every
    group of entries: no value runs from one record block into the next. *)
Definition file_of_groups (groups : list (list (string * list Z))) : list Z :=
  let entries := concat groups in
  let keys := key_entries 0 entries in
  let key_block := block keys in
  let first := default EmptyString (fst <$> head entries) in
  let last_ := default EmptyString (fst <$> last entries) in
  let info :=
    descriptor (Z.of_nat (length entries)) first last_
      (Z.of_nat (length key_block)) (Z.of_nat (length keys)) in
  let info_block := block info in
  let contents := map (flat_map snd) groups in
  let record_blocks := map block contents in
  let sizes :=
    flat_map (fun c => be_bytes 8 (Z.of_nat (length (block c))) ++
                       be_bytes 8 (Z.of_nat (length c))) contents in
  (* header: empty text, then its checksum *)
  be_bytes 4 0 ++ be_bytes 4 0 ++
  (* key block header and its checksum *)
  be_bytes 8 1 ++ be_bytes 8 (Z.of_nat (length entries)) ++
  be_bytes 8 (Z.of_nat (length info)) ++ be_bytes 8 (Z.of_nat (length info_block)) ++
  be_bytes 8 (Z.of_nat (length key_block)) ++ be_bytes 4 0 ++
  info_block ++ key_block ++
  (* record block header *)
  be_bytes 8 (Z.of_nat (length groups)) ++ be_bytes 8 (Z.of_nat (length entries)) ++
  be_bytes 8 (Z.of_nat (length sizes)) ++
  be_bytes 8 (Z.of_nat (length (concat record_blocks))) ++
  sizes ++ concat record_blocks.

(** The object as constructed, before [init]. *)
Definition constructed (ft : filetype_t) (source : file_source) : Mdict :=
  mk_Mdict "sample" ft source
    (mk_header 0 0 ENCRYPT_NO_ENC Float.zero 0 ENCODING_UTF8)
    (mk_key_header 0 0 0 0 0 0)
    (mk_key_index [] 0 0 [] 0)
    (mk_record_index 0 0 0 0 0 [] 0).

Definition headinfo_v2 : gmap string string :=
  {[ "GeneratedByEngineVersion" := "2.0" ]}.

Definition headinfo_v1 : gmap string string :=
  {[ "GeneratedByEngineVersion" := "1.2" ]}.

(** The layout below version 2.0: numbers of four bytes, a key block header
    of four numbers without checksum, a key block info that is not
    compressed and whose keys have a one-byte length and no terminator, and
    key entries that end in one NUL. *)
Definition key_entry_v1 (record_start : Z) (key : string) : list Z :=
  be_bytes 4 record_start ++ bytes_of_string key ++ [0].

Definition descriptor_v1 (entries : Z) (first last : string) (comp decomp : Z) : list Z :=
  be_bytes 4 entries ++
  be_bytes 1 (Z.of_nat (String.length first)) ++ bytes_of_string first ++
  be_bytes 1 (Z.of_nat (String.length last)) ++ bytes_of_string last ++
  be_bytes 4 comp ++ be_bytes 4 decomp.

Fixpoint key_entries_v1 (record_start : Z) (entries : list (string * list Z)) : list Z :=
  match entries with
  | [] => []
  | e :: rest =>
      key_entry_v1 record_start (fst e) ++
      key_entries_v1 (record_start + Z.of_nat (length (snd e))) rest
  end.

(** A version 1.2 file with one key block and one record block. *)
Definition file_of_v1 (entries : list (string * list Z)) : list Z :=
  let keys := key_entries_v1 0 entries in
  let key_block := block keys in
  let first := default EmptyString (fst <$> head entries) in
  let last_ := default EmptyString (fst <$> last entries) in
  let info :=
    descriptor_v1 (Z.of_nat (length entries)) first last_
      (Z.of_nat (length key_block)) (Z.of_nat (length keys)) in
  let records := flat_map snd entries in
  let record_block := block records in
  (* header: empty text, then its checksum *)
  be_bytes 4 0 ++ be_bytes 4 0 ++
  (* key block header *)
  be_bytes 4 1 ++ be_bytes 4 (Z.of_nat (length entries)) ++
  be_bytes 4 (Z.of_nat (length info)) ++ be_bytes 4 (Z.of_nat (length key_block)) ++
  info ++ key_block ++
  (* record block header *)
  be_bytes 4 1 ++ be_bytes 4 (Z.of_nat (length entries)) ++ be_bytes 4 8 ++
  be_bytes 4 (Z.of_nat (length record_block)) ++
  be_bytes 4 (Z.of_nat (length record_block)) ++ be_bytes 4 (Z.of_nat (length records)) ++
  record_block.

(** Two entries: the value of "apple" (nine letters and a NUL) and the
    value of "banana" (twenty-nine letters and a NUL). *)
Definition apple_value : list Z := replicate 9 97 ++ [0].
Definition banana_value : list Z := replicate 29 98 ++ [0].

Definition two_entries : list Z :=
  file_of [("apple", apple_value); ("banana", banana_value)].

(** The scrambling that [mdx_decrypt] undoes: from the ninth byte on, the
    byte that replaces the byte [p] is the nibble swap of
    [p XOR previous XOR (i & 0xff) XOR key[i mod 16]], where [previous] is
    the replacement of the byte before. *)
Fixpoint scramble_loop (key : list Z) (i previous : Z) (plain : list Z) : list Z :=
  match plain with
  | [] => []
  | p :: rest =>
      let b := swap_nibbles (Z.lxor (Z.lxor (Z.lxor p previous) (Z.land i 255))
                                    (nth (Z.to_nat (i mod 16)) key 0)) in
      b :: scramble_loop key (i + 1) b rest
  end.

Definition scramble (ripemd : list Z -> list Z) (block : list Z) : list Z :=
  take 8 block ++
  scramble_loop (ripemd (take 4 (drop 4 block) ++ [149; 54; 0; 0])) 0 54 (drop 8 block).

(** [two_entries] with its key block info (the 48 bytes at file offset 52)
    scrambled, and the header attributes of such a file. *)
Definition two_entries_scrambled : list Z :=
  take 52 two_entries ++
  scramble (fun kb => take 16 (kb ++ kb ++ replicate 16 0)) (take 48 (drop 52 two_entries)) ++
  drop 100 two_entries.

Definition headinfo_scrambled : gmap string string :=
  {[ "GeneratedByEngineVersion" := "2.0"; "Encrypted" := "2" ]}.

(** The same entries in a file of version 1.2. *)
Definition two_entries_v1 : list Z :=
  file_of_v1 [("apple", apple_value); ("banana", banana_value)].

(** The same keys with the long value first: "banana" owns the last ten
    bytes of a record block of forty. *)
Definition long_value_first : list Z :=
  file_of [("apple", replicate 29 97 ++ [0]); ("banana", replicate 9 98 ++ [0])].

(** [two_entries] with the type tag of its record block (file offset 184)
    changed from 2 (zlib) to 0 (stored). *)
Definition stored_record_block : list Z := <[184%nat := 0]> two_entries.

(** The engine with the sample helpers, opened on [bytes] as a text
    dictionary of version 2.0. *)
Definition opened (bytes : list Z) : outcome Mdict :=
  @init (externals headinfo_v2) (constructed MDXTYPE (Opened bytes)).

(** The object obtained from [stored_record_block]. *)
Definition stored_dict : Mdict :=
  match opened stored_record_block with
  | Ok m => m
  | _ => constructed MDXTYPE NoFile
  end.

(** The object obtained from [two_entries]. *)
Definition two_entries_dict : Mdict :=
  match opened two_entries with
  | Ok m => m
  | _ => constructed MDXTYPE NoFile
  end.

(** Four entries in two record blocks: "apple", "Banana" and "banana" in
    the first, "cherry" in the second. *)
Definition upper_banana_value : list Z := replicate 4 66 ++ [0].
Definition cherry_value : list Z := replicate 19 99 ++ [0].

Definition two_blocks : list Z :=
  file_of_groups [[("apple", apple_value); ("Banana", upper_banana_value);
                   ("banana", banana_value)];
                  [("cherry", cherry_value)]].

Definition two_blocks_dict : Mdict :=
  match opened two_blocks with
  | Ok m => m
  | _ => constructed MDXTYPE NoFile
  end.

(** Its record blocks, decompressed. *)
Definition two_blocks_contents : list (list Z) :=
  [apple_value ++ upper_banana_value ++ banana_value; cherry_value].

(** A dictionary of [n] entries with the key "a". *)
Definition many_keys (n : nat) : Mdict :=
  set_ki (mk_key_index [] 0 0 (replicate n (mk_key_list_item 0 "a")) 0)
    (constructed MDXTYPE (Opened [])).

End Sample.

(** ** Paths and markup (mdict.cc, lines 42-130 and 1878-1885) *)

Module Text.

(** [std::replace(res.begin(), res.end(), old_value, new_value)] *)
Fixpoint replace (old_value new_value : ascii) (s : string) : string :=
  match s with
  | EmptyString => EmptyString
  | String c rest =>
      String (if Ascii.eqb c old_value then new_value else c)
             (replace old_value new_value rest)
  end.

(** [normalize_path] (lines 80-93): lower case, backslashes, and a leading
    backslash unless the path is empty. *)
Definition normalize_path (path : string) : string :=
  let res := lowercase path in
  let res := replace "/" "\" res in
  match res with
  | EmptyString => res
  | String c _ => if negb (Ascii.eqb c "\") then String "\" res else res
  end.

(** A string in the form that [normalize_path] produces before it adds the
    leading backslash: no slash, no upper-case ASCII letter. *)
Definition plain (s : string) : Prop :=
  Forall (fun c => c <> "/"%char /\ ~ (65 <= uc c <= 90)) (String.list_ascii_of_string s).

(** [Mdict::endsWith] (lines 1878-1885);
    [fullString.compare(pos, len, ending)] compares the substring with
    [ending]. *)
Definition endsWith (fullString ending : string) : bool :=
  if (String.length ending <=? String.length fullString)%nat
  then bool_decide
         (String.substring (String.length fullString - String.length ending)
                           (String.length ending) fullString = ending)
  else false.

(** The file type that the constructor [Mdict(std::string fn)] assigns
    (lines 42-48). *)
Definition filetype_of_filename (fn : string) : filetype_t :=
  if endsWith fn ".mdd" then MDDTYPE else MDXTYPE.

(** [s.find(sub)]: the first index at which [sub] occurs in [s]. *)
Fixpoint find {A} `{EqDecision A} (sub s : list A) : option nat :=
  match s with
  | [] => if starts_with sub [] then Some 0%nat else None
  | _ :: s' => if starts_with sub s then Some 0%nat else S <$> find sub s'
  end.

(** [s.find(sub, pos)]: the first index at or after [pos]. *)
Definition find_from {A} `{EqDecision A} (sub s : list A) (pos : nat) : option nat :=
  if (pos <=? length s)%nat then (fun i => (pos + i)%nat) <$> find sub (drop pos s)
  else None.

(** [s.rfind(sub)]: the last index at which [sub] occurs in [s]. *)
Fixpoint rfind {A} `{EqDecision A} (sub s : list A) : option nat :=
  match s with
  | [] => if starts_with sub [] then Some 0%nat else None
  | _ :: s' =>
      match rfind sub s' with
      | Some i => Some (S i)
      | None => if starts_with sub s then Some 0%nat else None
      end
  end.

(** [Mdict::extract_body_content] (lines 95-130). *)
Definition extract_body_content (html : string) : string :=
  let h := String.list_ascii_of_string html in
  let found :=
    match find (String.list_ascii_of_string "<body") h with
    | Some i => Some i
    | None => find (String.list_ascii_of_string "<BODY") h
    end in
  match found with
  | None => html
  | Some body_start =>
      match find_from [">"%char] h (body_start + 1) with
      | None => html
      | Some tag_end =>
          let body_start := (tag_end + 1)%nat in
          let closing :=
            match rfind (String.list_ascii_of_string "</body>") h with
            | Some i => Some i
            | None => rfind (String.list_ascii_of_string "</BODY>") h
            end in
          match closing with
          | None => html
          | Some body_end =>
              if (body_end <=? body_start)%nat then html
              else String.string_of_list_ascii
                     (take (body_end - body_start) (drop body_start h))
          end
      end
  end.

End Text.

Import Text.

(** ** Searches in the key list (mdict.cc, lines 170-192, 1622-1648 and 1893-1944) *)

Module KeySearch.

(** *** [Mdict::get_match_count] (lines 170-192) *)

(** The [while] loop that counts the adjacent identical keys; [count] is an
    [int32_t]. *)
Fixpoint count_adjacent (key : string) (keys : list key_list_item) (count : Z)
  : outcome Z :=
  match keys with
  | [] => Ok count
  | item :: rest =>
      if bool_decide (key_word item = key)
      then if 2 ^ 31 - 1 <=? count then Undefined
           else count_adjacent key rest (count + 1)
      else Ok count
  end.

Definition get_match_count (m : Mdict) (key : string) : outcome Z :=
  let it := lower_bound (fun item => String.ltb (key_word item) key) (key_list (ki m)) in
  match key_list (ki m) !! it with
  | None => Ok 0
  | Some item =>
      if negb (bool_decide (key_word item = key)) then Ok 0
      else count_adjacent key (drop it (key_list (ki m))) 0
  end.

(** *** [Mdict::reduce_key_info_block_items_vector] (lines 1622-1648) *)

(** The [while (left <= right)] loop; [left], [right] and [mid] are
    [unsigned long]. *)
Fixpoint reduce_key_info_block_items_vector_loop (fuel : nat)
    (wordlist : list key_list_item) (word : string) (left right : Z) : outcome Z :=
  match fuel with
  | O => Diverge
  | S fuel' =>
      if negb (left <=? right) then Ok (-1)
      else
        let mid := left + Z.shiftr (right - left) 1 in
        if Z.of_nat (length wordlist) <=? mid then Ok (-1)
        else
          match wordlist !! Z.to_nat mid with
          | None => Undefined
          | Some item =>
              match String.compare word (_s (key_word item)) with
              | Eq => Ok mid
              | Gt => reduce_key_info_block_items_vector_loop fuel' wordlist word
                        (to_u64 (mid + 1)) right
              | Lt => reduce_key_info_block_items_vector_loop fuel' wordlist word
                        left (to_u64 (mid - 1))
              end
          end
  end.

Definition reduce_key_info_block_items_vector (wordlist : list key_list_item)
    (phrase : string) : outcome Z :=
  reduce_key_info_block_items_vector_loop (S (S (length wordlist))) wordlist (_s phrase)
    0 (to_u64 (Z.of_nat (length wordlist) - 1)).

(** *** [Mdict::suggest] (lines 1893-1944) *)

(** The [for] loop from the position found by [std::lower_bound]. *)
Fixpoint suggest_scan (prefix : string) (keys : list key_list_item)
    (suggestions : list string) : list string :=
  match keys with
  | [] => suggestions
  | item :: rest =>
      let key := key_word item in
      let lower_key := lowercase key in
      if String.prefix prefix lower_key then
        let suggestions := suggestions ++ [key] in
        if (50 <=? length suggestions)%nat then suggestions      (* break *)
        else suggest_scan prefix rest suggestions
      else if String.ltb prefix lower_key then suggestions     (* break *)
      else suggest_scan prefix rest suggestions
  end.

Definition suggest (m : Mdict) (word : string) : list string :=
  if bool_decide (word = EmptyString) then []
  else
    let prefix := lowercase word in
    let it :=
      lower_bound (fun item => String.ltb (lowercase (key_word item)) prefix)
        (key_list (ki m)) in
    suggest_scan prefix (drop it (key_list (ki m))) [].

(** *** Orders of the key list, for the statements about the searches *)

(** Keys in the order of [std::string::operator<], smallest first. *)
Definition keys_sorted (keys : list key_list_item) : Prop :=
  StronglySorted (fun a b => String.ltb (key_word b) (key_word a) = false) keys.

(** Keys in the order of their lower-case forms. *)
Definition keys_sorted_lower (keys : list key_list_item) : Prop :=
  StronglySorted
    (fun a b => String.ltb (lowercase (key_word b)) (lowercase (key_word a)) = false) keys.

(** Keys in the order of their normalized forms. *)
Definition keys_sorted_normalized (keys : list key_list_item) : Prop :=
  StronglySorted
    (fun a b => String.ltb (_s (key_word b)) (_s (key_word a)) = false) keys.

(** The key starts with the word, both in lower case. *)
Definition has_prefix (word : string) (item : key_list_item) : bool :=
  String.prefix (lowercase word) (lowercase (key_word item)).

(** The normalized key at index [i] of [wordlist] is [k]. *)
Definition key_at (wordlist : list key_list_item) (i : Z) (k : string) : Prop :=
  0 <= i /\ exists item, wordlist !! Z.to_nat i = Some item /\ _s (key_word item) = k.

End KeySearch.

Import KeySearch.

(** ** Encoders, for the statements about the decoders

    These functions are not part of the engine.  [utf8_encode] is the UTF-8
    encoding of a scalar value, which [utf8_to_wstring] decodes; [unhex] reads
    back the text that [decode_record_block_by_rid] produces for a resource
    archive. *)

Module Codec.

Definition utf8_encode (cp : Z) : list Z :=
  if cp <? 128 then [cp]
  else if cp <? 2048 then [192 + cp / 64; 128 + cp mod 64]
  else if cp <? 65536 then [224 + cp / 4096; 128 + (cp / 64) mod 64; 128 + cp mod 64]
  else [240 + cp / 262144; 128 + (cp / 4096) mod 64; 128 + (cp / 64) mod 64;
        128 + cp mod 64].

(** The value of a hexadecimal digit. *)
Definition hex_value (c : ascii) : Z :=
  let z := uc c in
  if (48 <=? z) && (z <=? 57) then z - 48
  else if (65 <=? z) && (z <=? 70) then z - 55
  else 0.

Fixpoint unhex_chars (l : list ascii) : list Z :=
  match l with
  | hi :: lo :: rest => (hex_value hi * 16 + hex_value lo) :: unhex_chars rest
  | _ => []
  end.

Definition unhex (s : string) : list Z := unhex_chars (String.list_ascii_of_string s).

End Codec.

Import Codec.

(** ** Directories with running totals

    [directory_from i ca da l]: the record blocks of [l] are numbered from
    [i] on, and their accumulators are the running totals, in 64-bit
    arithmetic, of the sizes before them, starting from [ca] and [da].
    [descriptors_from] says the same of the key block descriptors. *)

Module Directory.

Fixpoint directory_from (i ca da : Z) (l : list record_header_item) : Prop :=
  match l with
  | [] => True
  | h :: rest =>
      block_id h = i /\
      compressed_size_accumulator h = ca /\
      decompressed_size_accumulator h = da /\
      directory_from (i + 1) (to_u64 (ca + compressed_size h))
        (to_u64 (da + decompressed_size h)) rest
  end.

Fixpoint descriptors_from (start ca da : Z) (l : list key_block_info) : Prop :=
  match l with
  | [] => True
  | info :: rest =>
      key_block_start_offset_ info = start /\
      key_block_comp_accumulator info = ca /\
      key_block_decomp_accumulator info = da /\
      descriptors_from (to_u64 (start + key_block_comp_size info))
        (to_u64 (ca + key_block_comp_size info))
        (to_u64 (da + key_block_decomp_size info)) rest
  end.

End Directory.

Import Directory.

(** ** Single definitions (mdict.cc, lines 1752-1789 and 1854-1869) *)

Module Single.

Section WithExternals.

Context `{ext : Externals}.

(** The body of the [try] block of [lookup0]; the test [record_start >= 0]
    of an unsigned number always holds. *)
Definition lookup0_try (m : Mdict) (word : string) : outcome string :=
  match list_find (fun item => key_word item = word) (key_list (ki m)) with
  | None => Ok EmptyString
  | Some (_, item) =>
      record_block_idx ← reduce_record_block_offset m (record_start item);
      vec ← decode_record_block_by_rid m record_block_idx;
      match reduce_particial_keys_vector vec word with
      | [] => Ok EmptyString
      | def :: _ => Ok (trim_nulls def)
      end
  end.

(** [Mdict::lookup0]: [catch (std::exception &e)] prints the error, and the
    function returns the empty string. *)
Definition lookup0 (m : Mdict) (word : string) : outcome string :=
  match lookup0_try m word with
  | Throw _ => Ok EmptyString
  | o => o
  end.

(** [Mdict::parse_definition] *)
Definition parse_definition (m : Mdict) (word : string) (record_start : Z)
  : outcome string :=
  record_block_idx ← reduce_record_block_offset m record_start;
  vec ← decode_record_block_by_rid m record_block_idx;
  match reduce_particial_keys_vector vec word with
  | [] => Ok EmptyString
  | def :: _ => Ok def
  end.

End WithExternals.

End Single.

Import Single.

(** ** The layout of a key block, for the statement about [split_key_block]

    Not part of the engine: the bytes of a key block of version 2.0 with
    UTF-8 keys, as the format lays them out: for every entry the offset of
    its record as eight big-endian bytes, the bytes of the key, and a zero
    byte. *)

Module Layout.

Definition key_block_of (entries : list (Z * list Z)) : list Z :=
  flat_map (fun e => Sample.be_bytes 8 (fst e) ++ snd e ++ [0]) entries.

(** A byte of a key: not the terminator. *)
Definition key_byte (b : Z) : Prop := 0 < b < 256.

End Layout.

Import Layout.

(** ** The entry points for Java (native-lib.cpp)

    A handle is the address of a dictionary, or 0.  The environment of the
    call is given by what its functions return: whether [FindClass] finds
    [java/lang/String], whether [NewObjectArray] makes an array of a given
    length, and the string (or null) that [NewStringUTF] makes of a C
    string.  An array is the list of its elements, [None] being null. *)

Module Jni.

Record JNIEnv : Type := mk_JNIEnv {
  FindClass_String : bool;
  NewObjectArray : nat -> bool;
  NewStringUTF : string -> option string }.

Definition jobjectArray : Type := option (list (option string)).

(** [s.c_str()] read as a C string: the characters before the first NUL. *)
Fixpoint c_str (s : string) : string :=
  match s with
  | EmptyString => EmptyString
  | String c rest => if Ascii.eqb c "000" then EmptyString else String c (c_str rest)
  end.

(** The common tail of the entry points that return strings: the class, the
    array, and one [NewStringUTF] for each element. *)
Definition string_array (env : JNIEnv) (strings : list string) : jobjectArray :=
  if negb (FindClass_String env) then None
  else if negb (NewObjectArray env (length strings)) then None
  else Some (map (fun s => NewStringUTF env (c_str s)) strings).

Section WithExternals.

Context `{ext : Externals}.

(** [Java_..._lookupNative] (lines 61-94) *)
Definition lookupNative (env : JNIEnv) (dictHandle : option Mdict) (word : string)
  : outcome jobjectArray :=
  match dictHandle with
  | None => Ok None
  | Some dict =>
      results ← lookup dict word;
      if bool_decide (results = []) then Ok None
      else Ok (string_array env results)
  end.

(** [Java_..._getSuggestionsNative] (lines 114-143) *)
Definition getSuggestionsNative (env : JNIEnv) (dictHandle : option Mdict)
    (prefix : string) : outcome jobjectArray :=
  match dictHandle with
  | None => Ok None
  | Some dict => Ok (string_array env (suggest dict prefix))
  end.

(** [Java_..._getMatchCountNative] (lines 148-164) *)
Definition getMatchCountNative (dictHandle : option Mdict) (key : string) : outcome Z :=
  match dictHandle with
  | None => Ok 0
  | Some md => get_match_count md key
  end.

(** [Java_..._getFullTextSuggestionsNative] (lines 207-240) *)
Definition getFullTextSuggestionsNative (env : JNIEnv) (dictHandle : option Mdict)
    (query : string) : outcome jobjectArray :=
  match dictHandle with
  | None => Ok None
  | Some dict =>
      suggestions ← fulltext_search dict query;
      Ok (string_array env suggestions)
  end.

End WithExternals.

End Jni.

Import Jni.

(** ** Statements about calls

    [post o Q]: when the call returns, its result satisfies [Q].
    [same_file m m']: the members that only the constructor assigns are the
    same.  [found_in_text]: the key comes from an entry of a decoded block
    whose definition holds the query, both in lower case. *)

Module Statements.

Definition post {A} (o : outcome A) (Q : A -> Prop) : Prop :=
  forall a, o = Ok a -> Q a.

Definition same_file (m m' : Mdict) : Prop :=
  filename m' = filename m /\ filetype m' = filetype m /\ file_ptr m' = file_ptr m.

Section WithExternals.

Context `{ext : Externals}.

Definition found_in_text (m : Mdict) (wquery : list Z) (key : string) : Prop :=
  exists rid entries def,
    decode_record_block_by_rid m rid = Ok entries /\
    (key, def) ∈ entries /\
    contains wquery (map towlower (utf8_to_wstring def)) = true.

End WithExternals.

End Statements.

Import Statements.

(** ** More sample objects *)

Module Examples.

Import Sample.

(** A dictionary with the given key words, all at offset 0. *)
Definition with_keys (words : list string) : Mdict :=
  set_ki (mk_key_index [] 0 0 (map (mk_key_list_item 0) words) 0)
    (constructed MDXTYPE (Opened [])).

(** The sample file after [read_header] and [read_key_block_header]. *)
Definition two_entries_header : Mdict :=
  match (m1 ← @read_header (externals headinfo_v2) (constructed MDXTYPE (Opened two_entries));
         read_key_block_header m1) with
  | Ok m => m
  | _ => constructed MDXTYPE NoFile
  end.

(** The bytes of its key block info. *)
Definition two_entries_info_buffer : list Z :=
  readfile two_entries_header (key_block_info_start_offset (kh two_entries_header))
    (key_block_info_size (kh two_entries_header)).

(** The sample after [decode_key_block_info]. *)
Definition two_entries_descriptors : Mdict :=
  match @decode_key_block_info (externals headinfo_v2) two_entries_header
          two_entries_info_buffer (key_block_info_size (kh two_entries_header)) with
  | Ok m => m
  | _ => constructed MDXTYPE NoFile
  end.

(** The sample after [read_key_block_info]. *)
Definition two_entries_keys : Mdict :=
  match @read_key_block_info (externals headinfo_v2) two_entries_header with
  | Ok m => m
  | _ => constructed MDXTYPE NoFile
  end.

End Examples.

(** * Theorems *)

Section ByteFacts.

Lemma uc_range c : 0 <= uc c < 256.
Proof.
  unfold uc. pose proof (Ascii.N_ascii_bounded c) as Hb. lia.
Qed.

Lemma to_char_uc c : to_char (uc c) = c.
Proof.
  unfold to_char. pose proof (uc_range c) as Hr.
  rewrite Z.mod_small by lia. unfold uc.
  rewrite N2Z.id. apply Ascii.ascii_N_embedding.
Qed.

Lemma uc_to_char z : 0 <= z < 256 -> uc (to_char z) = z.
Proof.
  intros Hz. unfold uc, to_char. rewrite Z.mod_small by lia.
  rewrite Ascii.N_ascii_embedding by lia. lia.
Qed.

End ByteFacts.

Section NormalizeFacts.

Lemma _s_flat (s : string) :
  _s s = String.string_of_list_ascii (flat_map step_s (String.list_ascii_of_string s)).
Proof.
  induction s as [|ch rest IH]; [reflexivity|].
  cbn [_s String.list_ascii_of_string flat_map]. unfold step_s at 1.
  destruct ((uc "A" <=? uc ch) && (uc ch <=? uc "Z")); cbn; [now rewrite IH|].
  destruct (skipped (uc ch)); cbn; now rewrite IH.
Qed.

Lemma step_s_spec (ch : ascii) :
  step_s ch = if in_punctuation_set ch then [] else [lower ch].
Proof.
  destruct ch as [[] [] [] [] [] [] [] []]; vm_compute; reflexivity.
Qed.

Lemma step_s_fixed (ch : ascii) :
  flat_map step_s (step_s ch) = step_s ch.
Proof.
  destruct ch as [[] [] [] [] [] [] [] []]; vm_compute; reflexivity.
Qed.

Lemma flat_map_step_s_idem (l : list ascii) :
  flat_map step_s (flat_map step_s l) = flat_map step_s l.
Proof.
  induction l as [|ch l IH]; [reflexivity|].
  cbn [flat_map]. rewrite flat_map_app, step_s_fixed, IH. reflexivity.
Qed.

Lemma flat_step_filter_map (l : list ascii) :
  flat_map step_s l =
  map lower (filter (fun ch => in_punctuation_set ch = false) l).
Proof.
  induction l as [|ch l IH]; [reflexivity|].
  cbn [flat_map]. rewrite step_s_spec, IH.
  rewrite filter_cons. destruct (in_punctuation_set ch) eqn:E.
  - rewrite decide_False by congruence. reflexivity.
  - rewrite decide_True by reflexivity. reflexivity.
Qed.

(** C8, first half: the normalizer is idempotent. *)
Lemma _s_idempotent (s : string) : _s (_s s) = _s s.
Proof.
  rewrite !_s_flat, String.list_ascii_of_string_of_list_ascii.
  now rewrite flat_map_step_s_idem.
Qed.

(** C8, second half: the code computes the specification's normalizer. *)
Lemma _s_is_normalize_for_compare (s : string) : _s s = normalize_for_compare s.
Proof.
  rewrite _s_flat. unfold normalize_for_compare.
  now rewrite flat_step_filter_map.
Qed.

(** A byte of a multi-byte sequence (>= 0x80) is neither folded nor dropped. *)
Lemma lower_high_byte (ch : ascii) :
  128 <= uc ch -> in_punctuation_set ch = false /\ lower ch = ch.
Proof.
  destruct ch as [[] [] [] [] [] [] [] []]; vm_compute; intros H; try (split; reflexivity);
    exfalso; apply H; reflexivity.
Qed.

(** An upper-case ASCII letter is mapped to the byte 32 above it. *)
Lemma lower_upper (ch : ascii) :
  65 <= uc ch <= 90 -> in_punctuation_set ch = false /\ uc (lower ch) = uc ch + 32.
Proof.
  destruct ch as [[] [] [] [] [] [] [] []]; vm_compute; intros [H1 H2];
    try (split; reflexivity); exfalso; (apply H1; reflexivity) || (apply H2; reflexivity).
Qed.

(** Every byte that is neither an upper-case letter nor punctuation is kept. *)
Lemma lower_other (ch : ascii) :
  ~ (65 <= uc ch <= 90) -> lower ch = ch.
Proof.
  intros H. unfold lower, is_upper.
  destruct (65 <=? uc ch) eqn:E1; [|reflexivity].
  destruct (uc ch <=? 90) eqn:E2; [|reflexivity].
  exfalso. apply H. lia.
Qed.

(** C8. [_s] is idempotent, and its output is the input with each byte
    'A'..'Z' replaced by that byte plus 32, the bytes of the punctuation
    set (exactly the twenty listed characters) removed, and every other
    byte, in particular every byte >= 0x80, unchanged. *)
Theorem C8_normalizer_idempotent_and_exact :
  (forall s : string, _s (_s s) = _s s) /\
  (forall s : string,
      _s s = String.string_of_list_ascii
               (map lower (filter (fun ch => in_punctuation_set ch = false)
                                  (String.list_ascii_of_string s)))) /\
  (forall ch : ascii,
      (65 <= uc ch <= 90 -> uc (lower ch) = uc ch + 32) /\
      (~ (65 <= uc ch <= 90) -> lower ch = ch) /\
      (128 <= uc ch -> in_punctuation_set ch = false /\ lower ch = ch) /\
      (in_punctuation_set ch = true <->
         In ch [" "; ":"; "."; ","; "-"; "_"; "'"; "("; ")"; "#"; "<"; ">";
                "!"; "/"; "\"; "["; "]"; "{"; "}"; "@"]%char)).
Proof.
  split; [exact _s_idempotent|]. split; [exact _s_is_normalize_for_compare|].
  intros ch. repeat split.
  - intros H. now apply lower_upper.
  - apply lower_other.
  - now apply lower_high_byte.
  - now apply lower_high_byte.
  - unfold in_punctuation_set, punctuation_set. rewrite existsb_exists.
    intros (x & Hin & Heq). apply Ascii.eqb_eq in Heq. now subst.
  - unfold in_punctuation_set, punctuation_set. rewrite existsb_exists.
    intros Hin. exists ch. split; [exact Hin | apply Ascii.eqb_refl].
Qed.

End NormalizeFacts.

(** ** The descrambler *)

Section DescrambleFacts.

Lemma is_byte_lxor (a b : Z) : is_byte a -> is_byte b -> is_byte (Z.lxor a b).
Proof.
  unfold is_byte. intros Ha Hb.
  assert (Hnn : 0 <= Z.lxor a b) by (apply Z.lxor_nonneg; lia).
  split; [exact Hnn|].
  destruct (Z.eq_dec (Z.lxor a b) 0) as [->|Hne]; [lia|].
  assert (Hlog : forall x, 0 <= x < 256 -> Z.log2 x < 8).
  { intros x Hx. destruct (Z.eq_dec x 0) as [->|Hx0]; [reflexivity|].
    apply Z.log2_lt_pow2; lia. }
  change 256 with (2 ^ 8). apply Z.log2_lt_pow2; [lia|].
  pose proof (Z.log2_lxor a b ltac:(lia) ltac:(lia)) as Hl.
  pose proof (Hlog a Ha). pose proof (Hlog b Hb). lia.
Qed.

Lemma is_byte_rotl4 (x : Z) : is_byte (rotl4 x).
Proof.
  unfold is_byte, rotl4. change 255 with (Z.ones 8).
  rewrite Z.land_ones by lia. apply Z.mod_pos_bound. lia.
Qed.

(** A property checked on the 256 bytes holds of every byte. *)
Lemma all_bytes (P : Z -> bool) :
  forallb P (map Z.of_nat (seq 0 256)) = true -> forall x, is_byte x -> P x = true.
Proof.
  intros H x Hx. rewrite forallb_forall in H. apply H.
  apply in_map_iff. exists (Z.to_nat x). unfold is_byte in Hx.
  split; [lia | apply in_seq; lia].
Qed.

(** The expression of [fast_decrypt] swaps the two nibbles of a byte. *)
Lemma rotl4_swaps_nibbles (x : Z) : is_byte x -> rotl4 x = swap_nibbles x.
Proof.
  intros Hx. apply Z.eqb_eq.
  apply (all_bytes (fun x => rotl4 x =? swap_nibbles x)); [|exact Hx].
  vm_compute. reflexivity.
Qed.

(** The bits of a swapped byte: bit [k] comes from bit [k + 4] for the low
    nibble and from bit [k - 4] for the high one. *)
Lemma swap_nibbles_bits (x k : Z) :
  is_byte x -> 0 <= k < 8 ->
  Z.testbit (swap_nibbles x) k = Z.testbit x (if k <? 4 then k + 4 else k - 4).
Proof.
  intros Hx Hk.
  assert (H : forallb (fun k => Bool.eqb (Z.testbit (swap_nibbles x) k)
                                  (Z.testbit x (if k <? 4 then k + 4 else k - 4)))
                [0; 1; 2; 3; 4; 5; 6; 7] = true).
  { apply (all_bytes (fun x => forallb (fun k => Bool.eqb (Z.testbit (swap_nibbles x) k)
                         (Z.testbit x (if k <? 4 then k + 4 else k - 4)))
                       [0; 1; 2; 3; 4; 5; 6; 7])); [vm_compute; reflexivity | exact Hx]. }
  rewrite forallb_forall in H. apply Bool.eqb_prop. apply H.
  cbn [In]. lia.
Qed.

Lemma is_byte_land_255 (i : Z) : is_byte (Z.land i 255).
Proof.
  unfold is_byte. change 255 with (Z.ones 8).
  rewrite Z.land_ones by lia. apply Z.mod_pos_bound. lia.
Qed.

Lemma to_byte_id (z : Z) : is_byte z -> to_byte z = z.
Proof. intros Hz. unfold to_byte. apply Z.mod_small. exact Hz. Qed.

Lemma read_lookup_Z (buf : list Z) (z x : Z) :
  0 <= z -> buf !! Z.to_nat z = Some x -> read buf z = Ok x.
Proof.
  intros Hz H. unfold read.
  destruct (Z.ltb_spec z 0) as [E|E]; [lia|]. now rewrite H.
Qed.

Lemma read_lookup (buf : list Z) (i : nat) (x : Z) :
  buf !! i = Some x -> read buf (Z.of_nat i) = Ok x.
Proof.
  intros H. apply read_lookup_Z; [lia|]. now rewrite Nat2Z.id.
Qed.

(** Invariant of the loop of [fast_decrypt]: [n] iterations from index [i]
    rewrite exactly the cells [i .. i+n-1], each from its old content and the
    old content of its left neighbour. *)
Lemma fast_decrypt_loop_spec (key : list Z) :
  length key = 16%nat -> Forall is_byte key ->
  forall (n i : nat) (previous : Z) (b : list Z),
    Forall is_byte b -> is_byte previous -> (i + n <= length b)%nat ->
    exists b',
      fast_decrypt_loop n (Z.of_nat i) previous b key 16 = Ok b' /\
      length b' = length b /\
      (forall j, (j < i)%nat -> b' !! j = b !! j) /\
      (forall j, (i + n <= j)%nat -> b' !! j = b !! j) /\
      (forall k, (k < n)%nat ->
         b' !! (i + k)%nat =
         Some (scrambled key (Z.of_nat (i + k)) (nth (i + k) b 0)
                 (match k with O => previous | S k' => nth (i + k') b 0 end))).
Proof.
  intros Hlen Hkey n. induction n as [|n IH]; intros i previous b Hb Hprev Hle.
  - exists b. cbn. repeat split; auto. intros k Hk. lia.
  - cbn [fast_decrypt_loop].
    assert (Hi : (i < length b)%nat) by lia.
    destruct (lookup_lt_is_Some_2 b i Hi) as [bi Hbi].
    assert (Hrem : Z.rem (Z.of_nat i) 16 = Z.of_nat i mod 16)
      by (apply Z.rem_mod_nonneg; lia).
    assert (Hki : (Z.to_nat (Z.of_nat i mod 16) < length key)%nat).
    { rewrite Hlen. pose proof (Z.mod_pos_bound (Z.of_nat i) 16 ltac:(lia)). lia. }
    destruct (lookup_lt_is_Some_2 key _ Hki) as [ki Hk].
    rewrite (read_lookup _ _ _ Hbi). cbn [mbind outcome_bind].
    rewrite Hrem.
    rewrite (read_lookup_Z _ _ _ (proj1 (Z.mod_pos_bound (Z.of_nat i) 16 eq_refl)) Hk).
    cbn [mbind outcome_bind].
    assert (Hbi_byte : is_byte bi) by exact (Forall_lookup_1 _ _ _ _ Hb Hbi).
    assert (Hki_byte : is_byte ki) by exact (Forall_lookup_1 _ _ _ _ Hkey Hk).
    rewrite (to_byte_id (rotl4 bi) (is_byte_rotl4 bi)).
    rewrite (to_byte_id (Z.land _ 255) (is_byte_land_255 _)).
    set (t := Z.lxor _ ki).
    assert (Ht : is_byte t).
    { subst t. repeat apply is_byte_lxor;
        auto using is_byte_rotl4, is_byte_land_255. }
    rewrite (to_byte_id t Ht).
    rewrite Nat2Z.id. replace (Z.of_nat i + 1) with (Z.of_nat (S i)) by lia.
    destruct (IH (S i) bi (<[i := t]> b)) as (b' & Hrun & Hl & Hlo & Hhi & Hmid).
    { apply Forall_insert; auto. }
    { exact Hbi_byte. }
    { rewrite length_insert. lia. }
    exists b'. split; [exact Hrun|]. rewrite length_insert in Hl.
    split; [exact Hl|]. split; [|split].
    + intros j Hj. rewrite Hlo by lia. apply list_lookup_insert_ne. lia.
    + intros j Hj. rewrite Hhi by lia. apply list_lookup_insert_ne. lia.
    + intros k Hk'. destruct k as [|k].
      * rewrite Nat.add_0_r, Hlo by lia.
        rewrite list_lookup_insert_eq by lia. f_equal. subst t. unfold scrambled.
        rewrite (nth_lookup_Some _ _ _ _ Hbi), (nth_lookup_Some _ _ _ _ Hk).
        reflexivity.
      * replace (i + S k)%nat with (S i + k)%nat by lia.
        rewrite Hmid by lia. f_equal.
        assert (Hsame : forall j, (i < j)%nat -> nth j (<[i:=t]> b) 0 = nth j b 0).
        { intros j Hj. rewrite !nth_lookup, list_lookup_insert_ne by lia. reflexivity. }
        rewrite Hsame by lia. f_equal.
        destruct k as [|k'].
        -- rewrite Nat.add_0_r. symmetry. exact (nth_lookup_Some _ _ _ _ Hbi).
        -- rewrite Hsame by lia. f_equal. lia.
Qed.

Lemma key_buffer_eq (payload : list Z) :
  (8 <= length payload)%nat ->
  key_buffer payload = Ok (take 4 (drop 4 payload) ++ [149; 54; 0; 0]).
Proof.
  intros Hlen. unfold key_buffer, slice.
  destruct (Z.ltb_spec (Z.of_nat (length payload)) (4 + 4)) as [E|E]; [lia|].
  cbn [orb Z.ltb Z.compare mbind outcome_bind mret outcome_ret]. f_equal.
  change (Z.to_nat 4) with 4%nat.
  assert (Hl : length (take 4 (drop 4 payload)) = 4%nat)
    by (rewrite length_take, length_drop; lia).
  destruct (take 4 (drop 4 payload)) as [|a [|b [|c [|d [|e l]]]]];
    cbn in Hl; try discriminate. reflexivity.
Qed.

(** What [mdx_decrypt] returns: the first eight bytes, and then every byte
    as the format describes its replacement. *)
Lemma mdx_decrypt_bytes (ripemd128bytes : list Z -> list Z) (payload : list Z) :
  let key := ripemd128bytes (take 4 (drop 4 payload) ++ [149; 54; 0; 0]) in
  Forall is_byte payload -> (8 <= length payload)%nat ->
  length key = 16%nat -> Forall is_byte key ->
  mdx_decrypt ripemd128bytes payload (Z.of_nat (length payload)) =
  Ok (take 8 payload ++
      map (fun i => descrambled_byte key payload (Z.of_nat i))
          (seq 0 (length payload - 8))).
Proof.
  intros key Hbytes Hlen Hklen Hkbytes.
  unfold mdx_decrypt. rewrite key_buffer_eq by exact Hlen.
  cbn [mbind outcome_bind]. fold key. unfold fast_decrypt.
  destruct (fast_decrypt_loop_spec key Hklen Hkbytes
              (Z.to_nat (Z.of_nat (length payload) - 8)) 0 54 (drop 8 payload))
    as (b' & Hrun & Hl & _ & _ & Hmid).
  { apply Forall_drop. exact Hbytes. }
  { unfold is_byte. lia. }
  { rewrite length_drop. lia. }
  change (Z.of_nat 0) with 0 in Hrun. rewrite Hrun.
  cbn [mbind outcome_bind mret outcome_ret]. do 2 f_equal.
  assert (Hd : forall j, nth j (drop 8 payload) 0 = nth (8 + j) payload 0).
  { intros j. rewrite !nth_lookup, lookup_drop. reflexivity. }
  apply list_eq. intros j.
  destruct (decide (j < length payload - 8)%nat) as [Hj|Hj].
  - specialize (Hmid j ltac:(lia)). cbn [Nat.add] in Hmid. rewrite Hmid.
    rewrite list_lookup_fmap, lookup_seq_lt by lia. cbn [fmap option_fmap option_map Nat.add].
    f_equal. unfold scrambled, descrambled_byte.
    assert (Hbyte : is_byte (nth (8 + j) payload 0)).
    { rewrite Forall_forall in Hbytes. apply Hbytes. apply list_elem_of_In.
      apply nth_In. lia. }
    replace (Z.to_nat (8 + Z.of_nat j)) with (8 + j)%nat by lia.
    rewrite <- (rotl4_swaps_nibbles _ Hbyte), Hd.
    replace (if Z.of_nat j =? 0 then 54
             else nth (Z.to_nat (8 + (Z.of_nat j - 1))) payload 0)
      with (match j with
            | O => 54
            | S k' => nth k' (drop 8 payload) 0
            end); [reflexivity|].
    destruct j as [|k]; [reflexivity|].
    destruct (Z.eqb_spec (Z.of_nat (S k)) 0); [lia|].
    rewrite Hd. f_equal. lia.
  - rewrite !lookup_ge_None_2; [reflexivity | |].
    + rewrite length_map, length_seq. lia.
    + rewrite Hl, length_drop. lia.
Qed.

(** C7. The descrambler hashes the eight bytes [payload[4..8) ++ 95 36 00 00]
    (hexadecimal) with RIPEMD-128 and replaces, for every [i >= 0], the byte at
    payload offset [8 + i] by [rotl4 b XOR previous XOR (i & 0xff) XOR
    key[i mod 16]], where [rotl4] swaps the two nibbles of the byte and
    [previous] is the original value of the preceding byte and 0x36 for
    [i = 0]; the first eight bytes are left as they are. *)
Theorem C7_descrambler (ripemd128bytes : list Z -> list Z) (payload : list Z) :
  let key := ripemd128bytes (take 4 (drop 4 payload) ++ [149; 54; 0; 0]) in
  Forall is_byte payload -> (8 <= length payload)%nat ->
  length key = 16%nat -> Forall is_byte key ->
  exists out,
    mdx_decrypt ripemd128bytes payload (Z.of_nat (length payload)) = Ok out /\
    length out = length payload /\
    take 8 out = take 8 payload /\
    length (take 4 (drop 4 payload) ++ [149; 54; 0; 0]) = 8%nat /\
    (forall i, 0 <= i < Z.of_nat (length payload) - 8 ->
       nth (Z.to_nat (8 + i)) out 0 = descrambled_byte key payload i) /\
    (forall x k, is_byte x -> 0 <= k < 8 ->
       Z.testbit (rotl4 x) k = Z.testbit x (if k <? 4 then k + 4 else k - 4)).
Proof.
  intros key Hbytes Hlen Hklen Hkbytes.
  eexists. split; [exact (mdx_decrypt_bytes _ payload Hbytes Hlen Hklen Hkbytes)|].
  assert (Ht8 : length (take 8 payload) = 8%nat) by (rewrite length_take; lia).
  split; [|split; [|split; [|split]]].
  - rewrite length_app, length_map, length_seq, Ht8. lia.
  - rewrite take_app_length'; [reflexivity | symmetry; exact Ht8].
  - rewrite length_app, length_take, length_drop. cbn [length]. lia.
  - intros i Hi.
    replace (Z.to_nat (8 + i)) with (length (take 8 payload) + Z.to_nat i)%nat by lia.
    rewrite nth_lookup, lookup_app_r, Nat.add_comm, Nat.add_sub by lia.
    rewrite list_lookup_fmap, lookup_seq_lt by lia.
    cbn [fmap option_fmap option_map default from_option id Nat.add].
    fold key. f_equal. lia.
  - intros x k Hx Hk. rewrite (rotl4_swaps_nibbles x Hx). now apply swap_nibbles_bits.
Qed.

(** The theorem at an eleven-byte payload, with a fixed sixteen-byte key in
    place of the hash. *)
Lemma C7_descrambler_witness :
  mdx_decrypt (fun _ => [1; 2; 3; 4; 5; 6; 7; 8; 9; 10; 11; 12; 13; 14; 15; 16])
    [2; 0; 0; 0; 17; 34; 51; 68; 171; 205; 239] 11 =
    Ok [2; 0; 0; 0; 17; 34; 51; 68; 141; 116; 50] /\
  exists out,
    mdx_decrypt (fun _ => [1; 2; 3; 4; 5; 6; 7; 8; 9; 10; 11; 12; 13; 14; 15; 16])
      [2; 0; 0; 0; 17; 34; 51; 68; 171; 205; 239] 11 = Ok out /\
    length out = 11%nat /\
    take 8 out = [2; 0; 0; 0; 17; 34; 51; 68] /\
    length (take 4 (drop 4 [2; 0; 0; 0; 17; 34; 51; 68; 171; 205; 239]) ++ [149; 54; 0; 0])
      = 8%nat /\
    (forall i, 0 <= i < 11 - 8 ->
       nth (Z.to_nat (8 + i)) out 0 =
       descrambled_byte [1; 2; 3; 4; 5; 6; 7; 8; 9; 10; 11; 12; 13; 14; 15; 16]
         [2; 0; 0; 0; 17; 34; 51; 68; 171; 205; 239] i) /\
    (forall x k, is_byte x -> 0 <= k < 8 ->
       Z.testbit (rotl4 x) k = Z.testbit x (if k <? 4 then k + 4 else k - 4)).
Proof.
  split; [vm_compute; reflexivity|].
  apply (C7_descrambler
           (fun _ => [1; 2; 3; 4; 5; 6; 7; 8; 9; 10; 11; 12; 13; 14; 15; 16])
           [2; 0; 0; 0; 17; 34; 51; 68; 171; 205; 239]).
  - repeat constructor; unfold is_byte; lia.
  - cbn [length]. lia.
  - reflexivity.
  - repeat constructor; unfold is_byte; lia.
Defined.

End DescrambleFacts.
(** ** Buffers *)

Section BufferFacts.

Lemma readfile_length (m : Mdict) (offset len : Z) :
  length (readfile m offset len) = Z.to_nat len.
Proof.
  unfold readfile. destruct (file_ptr m) as [| |bytes]; try apply length_replicate.
  rewrite length_app, length_replicate, length_take. lia.
Qed.

Lemma slice_ok (buf : list Z) (off len : Z) :
  0 <= off -> 0 <= len -> off + len <= Z.of_nat (length buf) ->
  slice buf off len = Ok (take (Z.to_nat len) (drop (Z.to_nat off) buf)).
Proof.
  intros Ho Hl Hb. unfold slice.
  destruct (Z.ltb_spec off 0); [lia|]. destruct (Z.ltb_spec len 0); [lia|].
  destruct (Z.ltb_spec (Z.of_nat (length buf)) (off + len)); [lia|]. reflexivity.
Qed.

Lemma be_bin_to_uint_ok (width : Z) (buf : list Z) (off : Z) :
  0 <= off -> 0 <= width -> off + width <= Z.of_nat (length buf) ->
  exists v, be_bin_to_uint width buf off = Ok v.
Proof.
  intros Ho Hw Hb. unfold be_bin_to_uint. rewrite slice_ok by assumption.
  eexists. reflexivity.
Qed.

Lemma bin_slice_ok (src : list Z) (srclen offset len : Z) :
  0 <= offset -> 0 <= len -> offset + len <= srclen ->
  bin_slice src srclen offset len =
  Some (take (Z.to_nat len) (drop (Z.to_nat offset) src)).
Proof.
  intros Ho Hl Hb. unfold bin_slice.
  destruct (Z.ltb_spec offset 0); [lia|]. destruct (Z.ltb_spec len 0); [lia|].
  destruct (Z.ltb_spec srclen (offset + len)); [lia|]. reflexivity.
Qed.

Lemma header_size_read (m : Mdict) :
  be_bin_to_u32 (readfile m 0 4) 0 = Ok (declared_header_size m).
Proof.
  unfold be_bin_to_u32, be_bin_to_uint.
  rewrite slice_ok by (rewrite ?readfile_length; lia).
  cbn [mbind outcome_bind mret outcome_ret]. unfold declared_header_size.
  change (Z.to_nat 0) with 0%nat. rewrite drop_0.
  rewrite take_ge by (rewrite readfile_length; lia). reflexivity.
Qed.

End BufferFacts.

(** ** The header *)

Section HeaderFacts.

Context `{ext : Externals}.

Lemma encrypt_of_absent (headinfo : gmap string string) :
  headinfo !! "Encrypted" = None -> encrypt_of headinfo = ENCRYPT_NO_ENC.
Proof.
  intros H. unfold encrypt_of. rewrite H. reflexivity.
Qed.

Lemma encrypt_of_present (headinfo : gmap string string) (v : string) :
  headinfo !! "Encrypted" = Some v ->
  encrypt_of headinfo =
  if bool_decide (v = EmptyString) || bool_decide (v = "No") then ENCRYPT_NO_ENC
  else if bool_decide (v = "Yes") then ENCRYPT_RECORD_ENC
  else match v with
       | String "2" _ => ENCRYPT_KEY_INFO_ENC
       | String "1" _ => ENCRYPT_RECORD_ENC
       | _ => ENCRYPT_NO_ENC
       end.
Proof.
  intros H. unfold encrypt_of, subscript. rewrite H. reflexivity.
Qed.

(** The flag is "record encrypted" exactly for the value "Yes" and for the
    values that start with the character 1. *)
Lemma encrypt_of_record (headinfo : gmap string string) :
  encrypt_of headinfo = ENCRYPT_RECORD_ENC <->
  (headinfo !! "Encrypted" = Some "Yes" \/
   exists s, headinfo !! "Encrypted" = Some (String "1" s)).
Proof.
  destruct (headinfo !! "Encrypted") as [v|] eqn:Hv.
  - rewrite (encrypt_of_present _ _ Hv). split.
    + repeat case_bool_decide; cbn [orb]; try discriminate.
      * intros _. left. congruence.
      * destruct v as [|c s]; [discriminate|].
        destruct c as [[] [] [] [] [] [] [] []]; try discriminate.
        intros _. right. exists s. reflexivity.
    + intros [Hy | [s Hs]].
      * injection Hy as ->. reflexivity.
      * injection Hs as ->. reflexivity.
  - rewrite (encrypt_of_absent _ Hv). split; [discriminate|].
    intros [Hy | [s Hs]]; discriminate.
Qed.

Lemma encrypt_of_key_info (headinfo : gmap string string) (s : string) :
  headinfo !! "Encrypted" = Some (String "2" s) ->
  encrypt_of headinfo = ENCRYPT_KEY_INFO_ENC.
Proof.
  intros H. rewrite (encrypt_of_present _ _ H). reflexivity.
Qed.

(** Whatever the [Encoding] attribute says, once it is present the first
    test of the chain succeeds. *)
Lemma encoding_of_present (ft : filetype_t) (headinfo : gmap string string) (v : string) :
  headinfo !! "Encoding" = Some v ->
  encoding_of ft headinfo =
  if bool_decide (ft = MDDTYPE) then ENCODING_UTF16 else ENCODING_UTF8.
Proof.
  intros H. unfold encoding_of. rewrite H.
  rewrite (bool_decide_eq_false_2 (Some v = None)) by discriminate. reflexivity.
Qed.

Lemma encoding_of_absent (ft : filetype_t) (headinfo : gmap string string) :
  headinfo !! "Encoding" = None ->
  encoding_of ft headinfo =
  if bool_decide (ft = MDDTYPE) then ENCODING_UTF16 else ENCODING_UTF8.
Proof.
  intros H. unfold encoding_of, subscript. rewrite H. reflexivity.
Qed.

Lemma read_header_parsed (m : Mdict) (text : string) :
  utf16_to_utf8_header (readfile m 4 (declared_header_size m)) = Some text ->
  read_header m =
  Ok (after_read_header m (parse_xml_header text)).
Proof.
  intros H. unfold read_header. rewrite header_size_read.
  cbn [mbind outcome_bind]. rewrite H. reflexivity.
Qed.

End HeaderFacts.

(** ** The key block header *)

Section KeyHeaderFacts.

Lemma be_number_ok (m : Mdict) (bytes : list Z) (dflt : Z) :
  (number_width (hdr m) <= Z.of_nat (length bytes)) ->
  exists v, be_number m bytes dflt = Ok v.
Proof.
  intros Hlen. unfold be_number.
  destruct (Z.eqb_spec (number_width (hdr m)) 8) as [E8|_].
  - apply be_bin_to_uint_ok; lia.
  - destruct (Z.eqb_spec (number_width (hdr m)) 4) as [E4|_].
    + apply be_bin_to_uint_ok; lia.
    + eexists. reflexivity.
Qed.

Lemma read_key_block_header_record_enc (m : Mdict) :
  encrypt (hdr m) = ENCRYPT_RECORD_ENC ->
  read_key_block_header m = Throw (invalid_argument "invalid encrypted file").
Proof.
  intros H. unfold read_key_block_header.
  rewrite bool_decide_eq_true_2 by exact H. reflexivity.
Qed.

Lemma length_take_drop_readfile (m : Mdict) (off len k n : Z) :
  0 <= k -> 0 <= n -> k + n <= len ->
  length (take (Z.to_nat n) (drop (Z.to_nat k) (readfile m off len))) = Z.to_nat n.
Proof.
  intros Hk Hn Hle. rewrite length_take, length_drop, readfile_length. lia.
Qed.

Lemma bin_slice_or_ok (src : list Z) (srclen offset len : Z) (what : string) :
  0 <= offset -> 0 <= len -> offset + len <= srclen ->
  bin_slice_or src srclen offset len what =
  Ok (take (Z.to_nat len) (drop (Z.to_nat offset) src)).
Proof.
  intros Ho Hl Hb. unfold bin_slice_or. now rewrite bin_slice_ok.
Qed.

Ltac field_step :=
  rewrite bin_slice_or_ok by lia; cbn [mbind outcome_bind];
  match goal with
  | |- context [be_bin_to_uint ?w (take ?k (drop ?j (readfile ?m ?o ?n))) 0] =>
      let v := fresh "v" in
      let Hv := fresh "Hv" in
      destruct (be_bin_to_uint_ok w (take k (drop j (readfile m o n))) 0)
        as [v Hv];
      [ lia | lia | rewrite length_take_drop_readfile by lia; lia
      | rewrite Hv; cbn [mbind outcome_bind mret outcome_ret] ]
  end.

(** With the number width that [read_header] derives from the version, the
    five fields are read without an error. *)
Lemma read_key_block_header_ok (m : Mdict) :
  encrypt (hdr m) <> ENCRYPT_RECORD_ENC ->
  number_width (hdr m) = (if version_ge_2 m then 8 else 4) ->
  exists k, read_key_block_header m = Ok (set_kh k m).
Proof.
  intros Henc Hnw. unfold read_key_block_header.
  rewrite bool_decide_eq_false_2 by exact Henc.
  unfold be_number, be_bin_to_u64, be_bin_to_u32. rewrite Hnw.
  destruct (version_ge_2 m); cbn [Z.eqb Pos.eqb Z.mul Pos.mul];
    repeat field_step; eexists; reflexivity.
Qed.

End KeyHeaderFacts.

(** ** Opening a file *)

Section InitFacts.

Context `{ext : Externals}.

Lemma be_bin_to_uint_eq (width : Z) (buf : list Z) (off : Z) :
  0 <= off -> 0 <= width -> off + width <= Z.of_nat (length buf) ->
  be_bin_to_uint width buf off =
  Ok (be_value (take (Z.to_nat width) (drop (Z.to_nat off) buf))).
Proof.
  intros Ho Hw Hb. unfold be_bin_to_uint. now rewrite slice_ok.
Qed.

Lemma after_read_header_version (m : Mdict) (headinfo : gmap string string) :
  version_ge_2 (after_read_header m headinfo) =
  Float.geb (parse_version (subscript headinfo "GeneratedByEngineVersion") Float.zero)
    Float.two.
Proof. reflexivity. Qed.

Lemma after_read_header_width (m : Mdict) (headinfo : gmap string string) :
  number_width (hdr (after_read_header m headinfo)) =
  if version_ge_2 (after_read_header m headinfo) then 8 else 4.
Proof. reflexivity. Qed.

(** The four big-endian 32-bit fields of the 16-byte key block header of a
    file below version 2.0; the second one is stored in [key_block_num]. *)
Lemma read_key_block_header_v1 (m : Mdict) :
  encrypt (hdr m) <> ENCRYPT_RECORD_ENC ->
  version_ge_2 m = false ->
  number_width (hdr m) = 4 ->
  let buf := readfile m (key_block_start_offset (hdr m)) 16 in
  read_key_block_header m =
  Ok (set_kh (mk_key_header (key_block_start_offset (hdr m) + 16)
                (be_value (take 4 (drop 4 buf))) 0
                (key_block_info_decompress_size (kh m))
                (be_value (take 4 (drop 8 buf)))
                (be_value (take 4 (drop 12 buf)))) m).
Proof.
  intros Henc Hv Hnw buf. unfold read_key_block_header.
  rewrite bool_decide_eq_false_2 by exact Henc.
  unfold be_number, be_bin_to_u64, be_bin_to_u32. rewrite Hv, Hnw.
  cbn [Z.eqb Pos.eqb]. change (4 * 4) with 16. change (4 * 2 + 4) with 12.
  change (4 * 2) with 8. fold buf.
  assert (Hfield : forall k, 0 <= k -> k + 4 <= 16 ->
            be_bin_to_uint 4 (take (Z.to_nat 4) (drop (Z.to_nat k) buf)) 0 =
            Ok (be_value (take 4 (drop (Z.to_nat k) buf)))).
  { intros k Hk Hle. rewrite be_bin_to_uint_eq;
      [| lia | lia | subst buf; rewrite length_take_drop_readfile by lia; lia].
    change (Z.to_nat 0) with 0%nat. rewrite drop_0. change (Z.to_nat 4) with 4%nat.
    rewrite take_take. reflexivity. }
  repeat (rewrite bin_slice_or_ok by lia; cbn [mbind outcome_bind mret outcome_ret];
          rewrite Hfield by lia; cbn [mbind outcome_bind mret outcome_ret]).
  reflexivity.
Qed.

End InitFacts.

(** ** The header attributes and the first steps of [init] *)

Section HeaderTheorems.

Context `{ext : Externals}.

(** C2 (what the code does).  After [read_header] has parsed a header whose
    [Encoding] attribute is present, the stored encoding of a text
    dictionary is UTF-8 whatever the attribute says: the values "GBK",
    "GB2312", "Big5", "BIG5", "utf16" and "UTF-16" of the table are all read
    as UTF-8 (and a resource archive is UTF-16 in every case). *)
Theorem C2_present_encoding_is_read_as_utf8 (m : Mdict) (text v : string) :
  utf16_to_utf8_header (readfile m 4 (declared_header_size m)) = Some text ->
  parse_xml_header text !! "Encoding" = Some v ->
  exists m', read_header m = Ok m' /\
    encoding (hdr m') =
    match filetype m with MDXTYPE => ENCODING_UTF8 | MDDTYPE => ENCODING_UTF16 end.
Proof.
  intros Htext Hattr. eexists. split; [apply read_header_parsed; exact Htext|].
  cbn [after_read_header set_kh set_hdr hdr encoding].
  rewrite (encoding_of_present _ _ _ Hattr).
  destruct (filetype m); reflexivity.
Qed.

(** C3 (amended).  For a file whose version text [parse_version] reads as
    a [float] below 2.0 (as it does "1.2"), [read_header] selects 4-byte
    numbers and [read_key_block_header] reads the sizes of the key block
    info and of the key blocks as big-endian 32-bit fields at offsets 8 and
    12 of a 16-byte header; [init] then does not succeed: it throws "invalid
    encrypted file" for a record-encrypted file and "not implements yet"
    from [decode_key_block_info] otherwise, so that no key list is
    produced. *)
Theorem C3_below_version_2_init_throws (m : Mdict) (bytes : list Z) (text : string) :
  file_ptr m = Opened bytes ->
  utf16_to_utf8_header (readfile m 4 (declared_header_size m)) = Some text ->
  Float.geb (parse_version (subscript (parse_xml_header text) "GeneratedByEngineVersion")
               Float.zero) Float.two = false ->
  let m1 := after_read_header m (parse_xml_header text) in
  let buf := readfile m1 (key_block_start_offset (hdr m1)) 16 in
  read_header m = Ok m1 /\
  number_width (hdr m1) = 4 /\
  (encrypt (hdr m1) <> ENCRYPT_RECORD_ENC ->
   exists m2, read_key_block_header m1 = Ok m2 /\
     key_block_info_size (kh m2) = be_value (take 4 (drop 8 buf)) /\
     key_block_size (kh m2) = be_value (take 4 (drop 12 buf))) /\
  init m =
  Throw (if bool_decide (encrypt (hdr m1) = ENCRYPT_RECORD_ENC)
         then invalid_argument "invalid encrypted file"
         else logic_error "not implements yet").
Proof.
  intros Hfile Htext Hver m1 buf.
  assert (Hrh : read_header m = Ok m1) by (apply read_header_parsed; exact Htext).
  assert (Hv1 : version_ge_2 m1 = false) by exact Hver.
  assert (Hnw : number_width (hdr m1) = 4).
  { unfold m1. rewrite after_read_header_width. fold m1. now rewrite Hv1. }
  split; [exact Hrh|]. split; [exact Hnw|]. split.
  - intros Henc. eexists. split; [apply read_key_block_header_v1; assumption|].
    split; reflexivity.
  - unfold init. rewrite Hfile, Hrh. cbn [mbind outcome_bind].
    case_bool_decide as Henc.
    + now rewrite read_key_block_header_record_enc.
    + rewrite read_key_block_header_v1 by assumption.
      cbn [mbind outcome_bind]. unfold read_key_block_info, decode_key_block_info.
      replace (version_ge_2 (set_kh _ m1)) with false by (symmetry; exact Hv1).
      reflexivity.
Qed.

End HeaderTheorems.

Section HeaderExamples.

Import Sample.

(** C2 at a header that declares [Encoding="GBK"]. *)
Lemma C2_present_encoding_witness :
  exists m',
    @read_header (externals {[ "Encoding" := "GBK" ]})
      (constructed MDXTYPE (Opened two_entries)) = Ok m' /\
    encoding (hdr m') = ENCODING_UTF8.
Proof.
  apply (@C2_present_encoding_is_read_as_utf8 (externals {[ "Encoding" := "GBK" ]})
           (constructed MDXTYPE (Opened two_entries)) EmptyString "GBK");
    reflexivity.
Defined.

(** The version texts around 2.0: "1.2" and "1.9999999" are read as
    numbers below 2.0; "1.99999994" and "1.99999999" are rounded to 2.0 and
    select the layout of version 2.0. *)
Example parse_version_near_2 :
  map (fun sver => Float.geb (parse_version sver Float.zero) Float.two)
      ["1.2"; "1.9999999"; "1.99999994"; "1.99999999"; "2.0"] =
  [false; false; true; true; true].
Proof. vm_compute. reflexivity. Qed.

(** C3 as stated fails: a file of version 1.2, in the layout of that
    version with 4-byte numbers and two entries, is not indexed; [init]
    throws. *)
Lemma C3_version_1_2_counterexample :
  take 16 (drop 8 two_entries_v1) =
    be_bytes 4 1 ++ be_bytes 4 2 ++ be_bytes 4 25 ++ be_bytes 4 36 /\
  @init (externals headinfo_v1) (constructed MDXTYPE (Opened two_entries_v1)) =
    Throw (logic_error "not implements yet") /\
  ~ (exists m', @init (externals headinfo_v1)
                  (constructed MDXTYPE (Opened two_entries_v1)) = Ok m').
Proof.
  assert (H : @init (externals headinfo_v1) (constructed MDXTYPE (Opened two_entries_v1)) =
              Throw (logic_error "not implements yet")) by (vm_compute; reflexivity).
  split; [vm_compute; reflexivity|].
  split; [exact H|]. intros [m' Hm']. rewrite H in Hm'. discriminate.
Qed.

(** C3 (amended) at the file of version 1.2. *)
Lemma C3_below_version_2_witness :
  let m := constructed MDXTYPE (Opened two_entries_v1) in
  let m1 := after_read_header m headinfo_v1 in
  let buf := readfile m1 (key_block_start_offset (hdr m1)) 16 in
  @read_header (externals headinfo_v1) m = Ok m1 /\
  number_width (hdr m1) = 4 /\
  (encrypt (hdr m1) <> ENCRYPT_RECORD_ENC ->
   exists m2, read_key_block_header m1 = Ok m2 /\
     key_block_info_size (kh m2) = be_value (take 4 (drop 8 buf)) /\
     key_block_size (kh m2) = be_value (take 4 (drop 12 buf))) /\
  @init (externals headinfo_v1) m =
  Throw (if bool_decide (encrypt (hdr m1) = ENCRYPT_RECORD_ENC)
         then invalid_argument "invalid encrypted file"
         else logic_error "not implements yet").
Proof.
  apply (@C3_below_version_2_init_throws (externals headinfo_v1)
           (constructed MDXTYPE (Opened two_entries_v1)) two_entries_v1 EmptyString);
    reflexivity.
Defined.

End HeaderExamples.

(** ** Which calls can throw "invalid encrypted file" *)

Section EncryptionGate.

Context `{ext : Externals}.

Lemma nia_bind {A B} (o : outcome A) (f : A -> outcome B) :
  not_invalid_argument o -> (forall a, not_invalid_argument (f a)) ->
  not_invalid_argument (o ≫= f).
Proof.
  intros Ho Hf what. destruct o as [a| e | | |]; cbn; try discriminate.
  - apply Hf.
  - intros E. apply (Ho what). injection E as ->. reflexivity.
Qed.

Lemma nia_ok {A} (a : A) : not_invalid_argument (Ok a).
Proof. intros what. discriminate. Qed.

Lemma nia_abort {A} : not_invalid_argument (@Abort A).
Proof. intros what. discriminate. Qed.

Lemma nia_undefined {A} : not_invalid_argument (@Undefined A).
Proof. intros what. discriminate. Qed.

Lemma nia_diverge {A} : not_invalid_argument (@Diverge A).
Proof. intros what. discriminate. Qed.

Lemma nia_logic_error {A} (w : string) : not_invalid_argument (@Throw A (logic_error w)).
Proof. intros what. discriminate. Qed.

Lemma nia_runtime_error {A} (w : string) :
  not_invalid_argument (@Throw A (runtime_error w)).
Proof. intros what. discriminate. Qed.

Lemma nia_read (buf : list Z) (i : Z) : not_invalid_argument (read buf i).
Proof.
  unfold read. destruct (i <? 0); [apply nia_undefined|].
  destruct (buf !! Z.to_nat i); [apply nia_ok | apply nia_undefined].
Qed.

Lemma nia_slice (buf : list Z) (off len : Z) : not_invalid_argument (slice buf off len).
Proof.
  unfold slice. destruct (_ || _); [apply nia_undefined | apply nia_ok].
Qed.

Lemma nia_be_bin_to_uint (w : Z) (buf : list Z) (off : Z) :
  not_invalid_argument (be_bin_to_uint w buf off).
Proof.
  unfold be_bin_to_uint. apply nia_bind; [apply nia_slice | intros; apply nia_ok].
Qed.

Lemma nia_assert (c : bool) : not_invalid_argument (assert c).
Proof.
  unfold assert. destruct NDEBUG; [apply nia_ok|].
  destruct c; [apply nia_ok | apply nia_abort].
Qed.

Lemma nia_int_result (z : Z) : not_invalid_argument (int_result z).
Proof.
  unfold int_result. destruct (_ && _); [apply nia_ok | apply nia_undefined].
Qed.

Create HintDb nia.

#[local] Hint Resolve nia_ok nia_abort nia_undefined nia_diverge nia_logic_error
  nia_runtime_error nia_read nia_slice nia_be_bin_to_uint nia_assert nia_int_result : nia.

(** One step through the structure of a computation. *)
Ltac nia_step :=
  match goal with
  | |- not_invalid_argument (mbind _ _) => apply nia_bind; [|intros ?]
  | |- not_invalid_argument (mret _) => apply nia_ok
  | |- not_invalid_argument (be_bin_to_u8 _ _) => apply nia_be_bin_to_uint
  | |- not_invalid_argument (be_bin_to_u16 _ _) => apply nia_be_bin_to_uint
  | |- not_invalid_argument (be_bin_to_u32 _ _) => apply nia_be_bin_to_uint
  | |- not_invalid_argument (be_bin_to_u64 _ _) => apply nia_be_bin_to_uint
  | |- not_invalid_argument (if ?c then _ else _) => destruct c
  | |- not_invalid_argument (match ?x with _ => _ end) => destruct x
  | |- not_invalid_argument _ => solve [auto with nia]
  end.

Ltac nia := repeat nia_step.

Lemma nia_fast_decrypt_loop (n : nat) (i previous : Z) (b key : list Z) (key_len : Z) :
  not_invalid_argument (fast_decrypt_loop n i previous b key key_len).
Proof.
  revert i previous b. induction n as [|n IH]; intros i previous b; cbn [fast_decrypt_loop].
  - apply nia_ok.
  - nia.
Qed.

Lemma nia_mdx_decrypt (r : list Z -> list Z) (comp_block : list Z) (len : Z) :
  not_invalid_argument (mdx_decrypt r comp_block len).
Proof.
  unfold mdx_decrypt, key_buffer, fast_decrypt.
  repeat (nia_step || apply nia_fast_decrypt_loop).
Qed.

Lemma nia_descriptor_key (m : Mdict) (buf : list Z) (off gap term : Z) :
  not_invalid_argument (descriptor_key m buf off gap term).
Proof. unfold descriptor_key. nia. Qed.

Lemma nia_kbi_step (m : Mdict) (buf : list Z) (bw tt : Z) (st : kbi_state) :
  not_invalid_argument (kbi_step m buf bw tt st).
Proof.
  unfold kbi_step. repeat (nia_step || apply nia_descriptor_key).
Qed.

Lemma nia_kbi_loop (m : Mdict) (buf : list Z) (bw tt : Z) (n : nat) (st : kbi_state) :
  not_invalid_argument (kbi_loop m buf bw tt n st).
Proof.
  revert st. induction n as [|n IH]; intros st; cbn [kbi_loop].
  - apply nia_ok.
  - apply nia_bind; [apply nia_kbi_step | intros; apply IH].
Qed.

Lemma nia_decode_key_block_info (m : Mdict) (buf : list Z) (len : Z) :
  not_invalid_argument (decode_key_block_info m buf len).
Proof.
  unfold decode_key_block_info, decode_key_block_info_payload, assert_byte,
    kb_info_decrypted.
  repeat (nia_step || apply nia_mdx_decrypt || apply nia_kbi_loop).
Qed.

Lemma nia_find_terminator (fuel : nat) (m : Mdict) (kb : list Z) (len width i : Z) :
  not_invalid_argument (find_terminator fuel m kb len width i).
Proof.
  revert i. induction fuel as [|fuel IH]; intros i; cbn [find_terminator].
  - apply nia_diverge.
  - repeat (nia_step || apply IH).
Qed.

Lemma nia_key_text_of (m : Mdict) (kb : list Z) (s e : Z) :
  not_invalid_argument (key_text_of m kb s e).
Proof. unfold key_text_of. nia. Qed.

Lemma nia_split_key_block_loop (fuel : nat) (m : Mdict) (kb : list Z)
    (len s e : Z) (acc : list key_list_item) :
  not_invalid_argument (split_key_block_loop fuel m kb len s e acc).
Proof.
  revert s e acc. induction fuel as [|fuel IH]; intros s e acc;
    cbn [split_key_block_loop].
  - apply nia_diverge.
  - repeat (nia_step || apply nia_find_terminator || apply nia_key_text_of || apply IH).
Qed.

Lemma nia_decode_one_key_block (m : Mdict) (buf : list Z) (info : key_block_info) (i : Z) :
  not_invalid_argument (decode_one_key_block m buf info i).
Proof.
  unfold decode_one_key_block, split_key_block.
  repeat (nia_step || apply nia_split_key_block_loop).
Qed.

Lemma nia_decode_key_block_loop (m : Mdict) (buf : list Z) (infos : list key_block_info)
    (i : Z) (acc : list key_list_item) :
  not_invalid_argument (decode_key_block_loop m buf infos i acc).
Proof.
  revert i acc. induction infos as [|info rest IH]; intros i acc;
    cbn [decode_key_block_loop].
  - apply nia_ok.
  - apply nia_bind; [apply nia_decode_one_key_block | intros; apply IH].
Qed.

Lemma nia_read_key_block_info (m : Mdict) :
  not_invalid_argument (read_key_block_info m).
Proof.
  unfold read_key_block_info, read_key_block_compressed, decode_key_block.
  repeat (nia_step || apply nia_decode_key_block_info || apply nia_decode_key_block_loop).
Qed.

Lemma nia_record_header_loop (m : Mdict) (buf : list Z) (n : nat)
    (i sc ca da : Z) (acc : list record_header_item) :
  not_invalid_argument (record_header_loop m buf n i sc ca da acc).
Proof.
  revert i sc ca da acc. induction n as [|n IH]; intros i sc ca da acc;
    cbn [record_header_loop].
  - apply nia_ok.
  - repeat (nia_step || apply IH).
Qed.

Lemma nia_read_record_block_header (m : Mdict) :
  not_invalid_argument (read_record_block_header m).
Proof.
  unfold read_record_block_header.
  repeat (nia_step || apply nia_record_header_loop).
Qed.

Lemma mdx_decrypt_length (r : list Z -> list Z) (buf : list Z) (len : Z) (d : list Z) :
  mdx_decrypt r buf len = Ok d -> (8 <= length d)%nat.
Proof.
  unfold mdx_decrypt, key_buffer, slice.
  destruct (Z.ltb_spec (Z.of_nat (length buf)) (4 + 4)) as [Hshort|Hlong];
    cbn [orb Z.ltb Z.compare mbind outcome_bind mret outcome_ret]; [discriminate|].
  destruct (fast_decrypt _ _ _ _) as [tail| | | |]; cbn; try discriminate.
  intros E. injection E as <-. rewrite length_app, length_take. lia.
Qed.

Lemma assert_byte_ok (buf : list Z) (i v : Z) :
  0 <= i -> (NDEBUG = false -> buf !! Z.to_nat i = Some v) -> assert_byte buf i v = Ok tt.
Proof.
  intros Hi Hb. unfold assert_byte, assert. destruct NDEBUG; [reflexivity|].
  rewrite (read_lookup_Z _ _ _ Hi (Hb eq_refl)). cbn [mbind outcome_bind].
  now rewrite Z.eqb_refl.
Qed.

(** A scrambled key block info is descrambled, and zlib is applied to the
    descrambled bytes from offset 8 on. *)
Lemma decode_key_block_info_scrambled (m : Mdict) (buf : list Z) (len : Z) (d : list Z) :
  version_ge_2 m = true ->
  encrypt (hdr m) = ENCRYPT_KEY_INFO_ENC ->
  (NDEBUG = false -> take 4 buf = [2; 0; 0; 0]) ->
  mdx_decrypt ripemd128bytes buf (to_int len) = Ok d ->
  decode_key_block_info m buf len =
  decode_key_block_info_payload m
    (zlib_mem_uncompress (drop 8 d) (to_u64 (len - 8))
       (Some (key_block_info_decompress_size (kh m)))).
Proof.
  intros Hv Henc Htag Hd. unfold decode_key_block_info. rewrite Hv.
  assert (Hb : forall i v, [2; 0; 0; 0] !! i = Some v -> NDEBUG = false -> buf !! i = Some v).
  { intros i v Hi Hn. rewrite <- (Htag Hn) in Hi. apply lookup_take_Some in Hi. tauto. }
  rewrite (assert_byte_ok buf 0 2) by (try lia; apply Hb; reflexivity).
  rewrite (assert_byte_ok buf 1 0) by (try lia; apply Hb; reflexivity).
  rewrite (assert_byte_ok buf 2 0) by (try lia; apply Hb; reflexivity).
  rewrite (assert_byte_ok buf 3 0) by (try lia; apply Hb; reflexivity).
  cbn [mbind outcome_bind]. unfold kb_info_decrypted.
  rewrite bool_decide_eq_true_2 by exact Henc. rewrite Hd. cbn [mbind outcome_bind].
  pose proof (mdx_decrypt_length _ _ _ _ Hd) as Hlen.
  destruct (Z.ltb_spec (Z.of_nat (length d)) 8) as [Hlt|_]; [lia|]. reflexivity.
Qed.

Lemma readfile_bytes (m : Mdict) (bytes : list Z) (offset len : Z) :
  file_ptr m = Opened bytes -> Forall is_byte bytes -> Forall is_byte (readfile m offset len).
Proof.
  intros Hfile Hbytes. unfold readfile. rewrite Hfile. apply Forall_app. split.
  - apply Forall_take, Forall_drop. exact Hbytes.
  - apply Forall_replicate. unfold is_byte. lia.
Qed.


End EncryptionGate.

Section EncryptionExamples.

Import Sample.

(** The scrambled sample is opened when its header declares [Encrypted="2"],
    and only then; the plain sample is not opened under that attribute. *)
Example init_scrambled :
  (exists m', @init (externals headinfo_scrambled)
                (constructed MDXTYPE (Opened two_entries_scrambled)) = Ok m' /\
     key_list (ki m') = [mk_key_list_item 0 "apple"; mk_key_list_item 10 "banana"]) /\
  @init (externals headinfo_v2) (constructed MDXTYPE (Opened two_entries_scrambled)) = Abort /\
  @init (externals headinfo_scrambled) (constructed MDXTYPE (Opened two_entries)) = Abort.
Proof.
  split; [eexists; split; vm_compute; reflexivity|].
  split; vm_compute; reflexivity.
Qed.


(** A record-encrypted file is rejected. *)
Example init_encrypted_yes :
  @init (externals {[ "GeneratedByEngineVersion" := "2.0"; "Encrypted" := "Yes" ]})
    (constructed MDXTYPE (Opened two_entries)) =
  Throw (invalid_argument "invalid encrypted file").
Proof. vm_compute. reflexivity. Qed.

End EncryptionExamples.

(** ** Values *)

Section ValueFacts.

Context `{ext : Externals}.

(** The length that [decode_record_block_by_rid] gives to the value of the
    key at the head of [keys]: the distance to the next key, or for the last
    key [record_block_size] minus the accumulated size before the block, and
    in both cases at most the whole size [uncomp_size] of the block. *)
Lemma value_range_eq (m : Mdict) (k : key_list_item) (rest : list key_list_item)
    (uncomp_size decomp_accu previous_end previous_uncomp_size : Z) :
  value_range m (k :: rest) uncomp_size decomp_accu previous_end previous_uncomp_size =
  (to_u64 (record_start k - decomp_accu),
   Z.min (match rest with
          | k' :: _ => to_u64 (record_start k' - record_start k)
          | [] => to_u64 (record_block_size (ri m) - (previous_end + previous_uncomp_size))
          end) uncomp_size).
Proof.
  cbn [value_range]. f_equal.
  destruct rest as [|k' rest'].
  - destruct (Z.ltb_spec (to_u64 (record_block_size (ri m)
                                   - (previous_end + previous_uncomp_size))) uncomp_size); lia.
  - destruct (Z.ltb_spec (to_u64 (record_start k' - record_start k)) uncomp_size); lia.
Qed.

End ValueFacts.

Section ValueExamples.

Import Sample.

(** C4 (what the code does).  In a one-block file whose last key starts at
    offset 30 of a block of 40 bytes, the length computed for the last key
    is [min (record_block_size - 0) 40 = 16], not at most [40 - 30]: the
    slice [30, 46) leaves the decompressed block, and decoding the block has
    no defined result. *)
Theorem C4_tail_length_not_clamped_to_block_end :
  exists m,
    opened long_value_first = Ok m /\
    map decompressed_size (record_header (ri m)) = [40] /\
    record_block_size (ri m) = 16 /\
    map record_start (key_list (ki m)) = [0; 30] /\
    value_range m (drop 1 (key_list (ki m))) 40 0 0 0 = (30, 16) /\
    40 - 30 < 16 /\
    @decode_record_block_by_rid (externals headinfo_v2) m 0 = Undefined.
Proof.
  eexists. split; [vm_compute; reflexivity|].
  repeat split; vm_compute; reflexivity.
Qed.

(** C1 (what the code does).  In the sample file the value stored for
    "banana" is twenty-nine letters and a NUL; [lookup] returns its first
    sixteen bytes only, sixteen being the compressed size of the record
    blocks, so the stored value is not in the result. *)
Theorem C1_lookup_truncates_last_value :
  exists m,
    opened two_entries = Ok m /\
    map (fun k => (key_word k, record_start k)) (key_list (ki m)) =
      [("apple", 0); ("banana", 10)] /\
    @lookup (externals headinfo_v2) m "banana" =
      Ok [string_of_bytes (take 16 banana_value)] /\
    @lookup (externals headinfo_v2) m "apple" = Ok [string_of_bytes apple_value] /\
    ~ In (string_of_bytes banana_value) [string_of_bytes (take 16 banana_value)].
Proof.
  eexists. split; [vm_compute; reflexivity|].
  repeat split; try (vm_compute; reflexivity).
  intros [E|[]]. vm_compute in E. discriminate.
Qed.

End ValueExamples.

(** ** Errors during a query *)

Section QueryErrors.

Context `{ext : Externals}.

(** The matching step of [lookup] finds nothing when no key matches, raw or
    normalized. *)
Lemma group_matches_none (m : Mdict) (word : string) (keys : list key_list_item)
    (record_block_map : list (Z * list key_list_item)) :
  Forall (fun item => key_word item <> word /\ _s (key_word item) <> _s word) keys ->
  group_matches m word (_s word) keys record_block_map = Ok record_block_map.
Proof.
  induction 1 as [|item rest [Hraw Hnorm] _ IH]; cbn [group_matches]; [reflexivity|].
  rewrite (bool_decide_eq_false_2 _ Hraw), (bool_decide_eq_false_2 _ Hnorm).
  exact IH.
Qed.

(** The first block that throws ends the collection of definitions. *)
Lemma collect_definitions_throw (m : Mdict) (word : string)
    (pre : list (Z * list key_list_item)) (rid : Z) (items : list key_list_item)
    (post : list (Z * list key_list_item)) (e : exn) :
  Forall (fun b => exists vec, decode_record_block_by_rid m (fst b) = Ok vec) pre ->
  decode_record_block_by_rid m rid = Throw e ->
  forall all_results,
    collect_definitions m word (pre ++ (rid, items) :: post) all_results = Throw e.
Proof.
  intros Hpre Hrid. induction Hpre as [|[r its] pre [vec Hvec] _ IH]; intros all_results.
  - cbn [app collect_definitions]. rewrite Hrid. reflexivity.
  - cbn [app collect_definitions]. cbn [fst] in Hvec. rewrite Hvec.
    cbn [mbind outcome_bind]. apply IH.
Qed.

(** C5 (amended).  An exception thrown while a record block is decoded
    during [lookup] is caught inside [lookup], which returns the empty list:
    the caller sees no error and no result of the blocks decoded before.
    [fulltext_search] skips a block whose decoding throws and goes on with
    the next block, its suggestions unchanged.  [lookup] of a word that
    matches no key returns the empty list. *)
Theorem C5_block_errors_are_caught (m : Mdict) :
  (forall word e, lookup_try m word = Throw e -> lookup m word = Ok []) /\
  (forall word pre rid items post e,
      filetype m = MDXTYPE ->
      group_matches m word (_s word) (key_list (ki m)) [] =
        Ok (pre ++ (rid, items) :: post) ->
      Forall (fun b => exists vec, decode_record_block_by_rid m (fst b) = Ok vec) pre ->
      decode_record_block_by_rid m rid = Throw e ->
      lookup m word = Ok []) /\
  (forall wquery n rid suggestions e,
      decode_record_block_by_rid m rid = Throw e ->
      search_blocks m wquery (S n) rid suggestions =
      search_blocks m wquery n (rid + 1) suggestions) /\
  (forall word,
      Forall (fun item => key_word item <> word /\ _s (key_word item) <> _s word)
             (key_list (ki m)) ->
      lookup m word = Ok []).
Proof.
  assert (Hcatch : forall word e, lookup_try m word = Throw e -> lookup m word = Ok []).
  { intros word e H. unfold lookup. rewrite H. reflexivity. }
  split; [exact Hcatch|]. split; [|split].
  - intros word pre rid items post e Hft Hgroup Hpre Hrid.
    apply (Hcatch word e). unfold lookup_try.
    rewrite bool_decide_eq_false_2 by (rewrite Hft; discriminate).
    rewrite Hgroup. cbn [mbind outcome_bind].
    rewrite <- (collect_definitions_throw m word pre rid items post e Hpre Hrid []).
    destruct pre; reflexivity.
  - intros wquery n rid suggestions e Hrid. cbn [search_blocks].
    rewrite Hrid. reflexivity.
  - intros word Hnone. unfold lookup, lookup_try.
    destruct (filetype m) eqn:Hft.
    + rewrite bool_decide_eq_false_2 by discriminate.
      rewrite (group_matches_none m word _ [] Hnone). reflexivity.
    + rewrite bool_decide_eq_true_2 by reflexivity. unfold locate.
      assert (Hfind : list_find (fun item => key_word item = word) (key_list (ki m)) = None).
      { apply list_find_None. eapply Forall_impl; [exact Hnone|].
        intros item [Hraw _]. exact Hraw. }
      rewrite Hfind. reflexivity.
Qed.

End QueryErrors.

Section QueryErrorExamples.

Import Sample.

(** C5 as stated fails: with a stored (type 0) record block, decoding the
    block throws, and [lookup] of a key of that block returns the empty list
    to its caller instead of the error. *)
Lemma C5_lookup_returns_empty_counterexample :
  exists m,
    opened stored_record_block = Ok m /\
    @decode_record_block_by_rid (externals headinfo_v2) m 0 =
      Throw (runtime_error "uncompress block not support yet") /\
    In "apple" (map key_word (key_list (ki m))) /\
    @lookup (externals headinfo_v2) m "apple" = Ok [] /\
    ~ (exists e, @lookup (externals headinfo_v2) m "apple" = Throw e).
Proof.
  eexists. split; [vm_compute; reflexivity|].
  split; [vm_compute; reflexivity|]. split; [vm_compute; auto|].
  split; [vm_compute; reflexivity|].
  intros [e He]. vm_compute in He. discriminate.
Qed.

(** C5 (amended) at the file with the stored record block: the block that
    holds "apple" throws and the query returns the empty list; the full-text
    search passes over the block; a missing word gives the empty list. *)
Lemma C5_block_errors_witness :
  @lookup (externals headinfo_v2) stored_dict "apple" = Ok [] /\
  @search_blocks (externals headinfo_v2) stored_dict [98] 1 0 [] =
    @search_blocks (externals headinfo_v2) stored_dict [98] 0 1 [] /\
  @lookup (externals headinfo_v2) stored_dict "grape" = Ok [].
Proof.
  pose proof (@C5_block_errors_are_caught (externals headinfo_v2) stored_dict)
    as (_ & Hlookup & Hsearch & Hmissing).
  split; [|split].
  - apply (Hlookup "apple" [] 0 [mk_key_list_item 0 "apple"] []
             (runtime_error "uncompress block not support yet"));
      [reflexivity | vm_compute; reflexivity | constructor | vm_compute; reflexivity].
  - apply (Hsearch [98] 0%nat 0 [] (runtime_error "uncompress block not support yet")).
    vm_compute. reflexivity.
  - apply Hmissing. refine (bool_decide_unpack _ _). vm_compute. exact I.
Defined.

End QueryErrorExamples.

(** ** The result of a lookup *)

Section LookupFacts.

Context `{ext : Externals}.

Lemma filter_indexed {A B} (P : A -> Prop) `{forall x, Decision (P x)}
    (g : A -> B) (l : list A) (k : nat) :
  map (fun ip => g (snd ip)) (filter (fun ip => P (snd ip)) (imap (fun i p => ((k + i)%nat, p)) l)) =
  map g (filter P l).
Proof.
  revert k. induction l as [|x l IH]; intros k; [reflexivity|].
  rewrite imap_cons, !filter_cons. cbn [snd].
  assert (Htail : imap ((fun i p => ((k + i)%nat, p)) ∘ S) l =
                  imap (fun i p => ((S k + i)%nat, p)) l).
  { apply imap_ext. intros i y _. cbn. f_equal. lia. }
  rewrite Htail. destruct (decide (P x)); cbn [map]; rewrite IH; reflexivity.
Qed.

Lemma filter_agree {A} (P Q : A -> Prop) `{forall x, Decision (P x)}
    `{forall x, Decision (Q x)} (l : list A) :
  (forall x, x ∈ l -> (P x <-> Q x)) -> filter P l = filter Q l.
Proof.
  induction l as [|x l IH]; intros Hpq; [reflexivity|].
  rewrite !filter_cons.
  assert (Hx : P x <-> Q x) by (apply Hpq; left).
  rewrite IH by (intros y Hy; apply Hpq; right; exact Hy).
  destruct (decide (P x)), (decide (Q x)); tauto.
Qed.

Lemma filter_none {A} (P : A -> Prop) `{forall x, Decision (P x)} (l : list A) :
  (forall x, x ∈ l -> ~ P x) -> filter P l = [].
Proof.
  induction l as [|x l IH]; intros Hno; [reflexivity|].
  rewrite filter_cons. destruct (decide (P x)) as [HP|_].
  - exfalso. apply (Hno x); [left | exact HP].
  - apply IH. intros y Hy. apply Hno. right. exact Hy.
Qed.

(** The definitions found in one decoded block: first the values of the
    pairs whose raw key is the phrase, then the values of the pairs whose
    key differs from the phrase and has the same normal form; no pair is
    taken twice. *)
Lemma reduce_particial_keys_vector_eq (vec : list (string * string)) (phrase : string) :
  reduce_particial_keys_vector vec phrase =
  map snd (filter (fun p => phrase = fst p) vec) ++
  map snd (filter (fun p => phrase <> fst p /\ _s phrase = _s (fst p)) vec).
Proof.
  unfold reduce_particial_keys_vector.
  set (indexed := imap (fun i p => (i, p)) vec).
  set (exact := filter (fun ip => phrase = fst (snd ip)) indexed).
  assert (Hidx : forall i p, (i, p) ∈ indexed <-> vec !! i = Some p).
  { intros i p. unfold indexed. rewrite elem_of_lookup_imap. split.
    - intros (j & y & E & Hy). injection E as -> ->. exact Hy.
    - intros Hp. exists i, p. split; [reflexivity | exact Hp]. }
  assert (Hfound : forall i p, (i, p) ∈ indexed ->
            (i ∈ map fst exact <-> phrase = fst p)).
  { intros i p Hip. split.
    - intros Hi. apply list_elem_of_fmap in Hi. destruct Hi as ([j q] & E & Hq).
      cbn in E. subst j. apply list_elem_of_filter in Hq. destruct Hq as [Hraw Hq].
      apply Hidx in Hq. apply Hidx in Hip. rewrite Hip in Hq. injection Hq as <-.
      exact Hraw.
    - intros Hraw. apply list_elem_of_fmap. exists (i, p). split; [reflexivity|].
      apply list_elem_of_filter. split; [exact Hraw | exact Hip]. }
  f_equal.
  - exact (filter_indexed (fun p => phrase = fst p) snd vec 0).
  - rewrite <- (filter_indexed (fun p => phrase <> fst p /\ _s phrase = _s (fst p)) snd vec 0).
    f_equal. apply filter_agree. intros [i p] Hip. cbn [fst snd].
    rewrite (Hfound i p Hip). tauto.
Qed.

(** When every block of the map decodes, the definitions of the blocks are
    appended in the order of the map. *)
Lemma collect_definitions_ok (m : Mdict) (word : string)
    (decoded : Z -> list (string * string))
    (record_block_map : list (Z * list key_list_item)) :
  Forall (fun b => decode_record_block_by_rid m (fst b) = Ok (decoded (fst b)))
         record_block_map ->
  forall all_results,
    collect_definitions m word record_block_map all_results =
    Ok (all_results ++
        concat (map (fun b => reduce_particial_keys_vector (decoded (fst b)) word)
                    record_block_map)).
Proof.
  induction 1 as [|[rid items] rest Hrid _ IH]; intros all_results.
  - cbn. now rewrite app_nil_r.
  - cbn [collect_definitions map concat fst]. cbn [fst] in Hrid. rewrite Hrid.
    cbn [mbind outcome_bind]. rewrite IH, app_assoc. reflexivity.
Qed.

End LookupFacts.

(** ** The record block of a key *)

Section BlockSearch.

Variable m : Mdict.

(** The directory of record blocks of a well-formed file: the accumulators
    are the prefix sums of the sizes, starting at 0. *)
Hypothesis Hfirst : forall h, record_header (ri m) !! 0%nat = Some h ->
  decompressed_size_accumulator h = 0.
Hypothesis Hnext : forall i h h',
  record_header (ri m) !! i = Some h -> record_header (ri m) !! S i = Some h' ->
  decompressed_size_accumulator h' = decompressed_size_accumulator h + decompressed_size h.
Hypothesis Hsizes : forall i h, record_header (ri m) !! i = Some h -> 0 <= decompressed_size h.
Hypothesis Hcount : Z.of_nat (length (record_header (ri m))) < 2 ^ 63.

Lemma accumulator_mono (i j : nat) (h h' : record_header_item) :
  (i <= j)%nat ->
  record_header (ri m) !! i = Some h -> record_header (ri m) !! j = Some h' ->
  decompressed_size_accumulator h <= decompressed_size_accumulator h'.
Proof.
  intros Hij Hi. revert h'. induction Hij as [|j Hij IH]; intros h' Hj.
  - rewrite Hi in Hj. injection Hj as <-. lia.
  - destruct (lookup_lt_is_Some_2 (record_header (ri m)) j) as [hj Hhj].
    { apply lookup_lt_Some in Hj. lia. }
    specialize (IH hj Hhj). rewrite (Hnext j hj h' Hhj Hj).
    pose proof (Hsizes j hj Hhj). lia.
Qed.

Lemma holds_unique (b b' : nat) (rs : Z) : holds m b rs -> holds m b' rs -> b = b'.
Proof.
  intros (h & Hh & Hle & Hlt) (h' & Hh' & Hle' & Hlt').
  destruct (Nat.lt_trichotomy b b') as [Hlt1|[Heq|Hgt]]; [|exact Heq|]; exfalso.
  - destruct (lookup_lt_is_Some_2 (record_header (ri m)) (S b)) as [hs Hhs].
    { apply lookup_lt_Some in Hh'. lia. }
    pose proof (Hlt hs Hhs). pose proof (accumulator_mono (S b) b' hs h' ltac:(lia) Hhs Hh').
    lia.
  - destruct (lookup_lt_is_Some_2 (record_header (ri m)) (S b')) as [hs Hhs].
    { apply lookup_lt_Some in Hh. lia. }
    pose proof (Hlt' hs Hhs). pose proof (accumulator_mono (S b') b hs h ltac:(lia) Hhs Hh).
    lia.
Qed.

Lemma reduce_record_block_offset_loop_spec (rs : Z) :
  0 <= rs ->
  forall (fuel : nat) (left right : Z),
    0 <= left -> left <= right + 1 -> right < Z.of_nat (length (record_header (ri m))) ->
    (0 < left \/ 0 <= right) ->
    (forall j h, Z.of_nat j < left -> record_header (ri m) !! j = Some h ->
                 decompressed_size_accumulator h <= rs) ->
    (forall j h, right < Z.of_nat j -> record_header (ri m) !! j = Some h ->
                 rs < decompressed_size_accumulator h) ->
    (Z.to_nat (right + 1 - left) < fuel)%nat ->
    exists b, reduce_record_block_offset_loop fuel m rs left right = Ok (Z.of_nat b) /\
              holds m b rs.
Proof.
  intros Hrs fuel. induction fuel as [|fuel IH];
    intros left right Hl Hlr Hr Hstart Hlow Hhigh Hfuel; [lia|].
  cbn [reduce_record_block_offset_loop].
  destruct (Z.leb_spec left right) as [Hin|Hout]; cbn [negb].
  - set (mid := left + Z.shiftr (right - left) 1).
    assert (Hmid : left <= mid <= right).
    { subst mid. rewrite Z.shiftr_div_pow2 by lia. change (2 ^ 1) with 2.
      pose proof (Z.div_pos (right - left) 2 ltac:(lia) ltac:(lia)).
      assert ((right - left) / 2 <= right - left) by (apply Z.div_le_upper_bound; lia).
      lia. }
    destruct (lookup_lt_is_Some_2 (record_header (ri m)) (Z.to_nat mid)) as [h Hh]; [lia|].
    rewrite Hh.
    assert (Hpow : 2 ^ 63 < 2 ^ 64) by (vm_compute; reflexivity).
    destruct (Z.leb_spec (decompressed_size_accumulator h) rs) as [Hle|Hgt].
    + unfold to_u64. rewrite Z.mod_small by lia.
      apply IH; try lia; try assumption.
      intros j hj Hj Hhj.
      pose proof (accumulator_mono j (Z.to_nat mid) hj h ltac:(lia) Hhj Hh). lia.
    + assert (Hmid0 : 0 < mid).
      { destruct (Z.eq_dec mid 0) as [E|E]; [|lia]. exfalso.
        rewrite E in Hh. change (Z.to_nat 0) with 0%nat in Hh.
        rewrite (Hfirst h Hh) in Hgt. lia. }
      unfold to_u64. rewrite Z.mod_small by lia.
      apply IH; try lia; try assumption.
      intros j hj Hj Hhj.
      pose proof (accumulator_mono (Z.to_nat mid) j h hj ltac:(lia) Hh Hhj). lia.
  - assert (Hleft : 0 < left).
    { destruct Hstart as [H0|H0]; lia. }
    assert (Hpow : 2 ^ 63 < 2 ^ 64) by (vm_compute; reflexivity).
    exists (Z.to_nat (left - 1)). unfold to_u64.
    rewrite Z.mod_small by lia. rewrite Z2Nat.id by lia. split; [reflexivity|].
    destruct (lookup_lt_is_Some_2 (record_header (ri m)) (Z.to_nat (left - 1)))
      as [h Hh]; [lia|].
    exists h. split; [exact Hh|]. split.
    + apply (Hlow (Z.to_nat (left - 1)) h); [lia | exact Hh].
    + intros h' Hh'. apply (Hhigh (S (Z.to_nat (left - 1))) h'); [lia | exact Hh'].
Qed.

(** The binary search returns the block that holds the offset. *)
Lemma reduce_record_block_offset_spec (rs : Z) :
  0 <= rs -> record_header (ri m) <> [] ->
  exists b, reduce_record_block_offset m rs = Ok (Z.of_nat b) /\ holds m b rs.
Proof.
  intros Hrs Hne. unfold reduce_record_block_offset.
  assert (Hlen : (0 < length (record_header (ri m)))%nat).
  { destruct (record_header (ri m)); [congruence | cbn; lia]. }
  assert (Hpow : 2 ^ 63 < 2 ^ 64) by (vm_compute; reflexivity).
  unfold to_u64. rewrite Z.mod_small by lia.
  apply reduce_record_block_offset_loop_spec; try lia.
  intros j h Hj Hh. apply lookup_lt_Some in Hh. lia.
Qed.

End BlockSearch.

(** ** The entries of a record block *)

Section BlockEntries.

Context `{ext : Externals}.

Variable m : Mdict.
Variable blocks : list (list Z).

Lemma stored_in_cons (h : record_header_item) (k : key_list_item)
    (rest : list key_list_item) :
  stored_in h (stored_entries blocks (k :: rest)) =
  (if in_block h (record_start k)
   then [(key_word k, be_bin_to_utf8 (stored_value blocks k (head rest)))]
   else []) ++ stored_in h (stored_entries blocks rest).
Proof.
  unfold stored_in. cbn [stored_entries]. rewrite filter_cons. cbn [fst].
  destruct (in_block h (record_start k)).
  - destruct (decide (true = true)) as [_|Hn]; [reflexivity | contradiction].
  - destruct (decide (false = true)) as [E|_]; [discriminate | reflexivity].
Qed.

Lemma stored_in_outside (h : record_header_item) (keys : list key_list_item) :
  Forall (fun k => in_block h (record_start k) = false) keys ->
  stored_in h (stored_entries blocks keys) = [].
Proof.
  induction 1 as [|k rest Hk _ IH]; [reflexivity|].
  now rewrite stored_in_cons, Hk, IH.
Qed.

(** The keys of the entries of a block are the keys of the list that lie
    in the block, in the order of the list. *)
Lemma stored_in_keys (h : record_header_item) (keys : list key_list_item) :
  map fst (stored_in h (stored_entries blocks keys)) =
  map key_word (filter (fun k => in_block h (record_start k) = true) keys).
Proof.
  induction keys as [|k rest IH]; [reflexivity|].
  rewrite stored_in_cons, filter_cons.
  destruct (in_block h (record_start k)).
  - destruct (decide (true = true)) as [_|Hn]; [|contradiction].
    cbn [app map fst]. now rewrite IH.
  - destruct (decide (false = true)) as [E|_]; [discriminate | exact IH].
Qed.

Lemma stored_in_elem (h : record_header_item) (keys : list key_list_item) (w v : string) :
  (w, v) ∈ stored_in h (stored_entries blocks keys) <->
  exists k, (k, v) ∈ stored_entries blocks keys /\ key_word k = w /\
            in_block h (record_start k) = true.
Proof.
  unfold stored_in. rewrite list_elem_of_fmap. split.
  - intros ([k v'] & E & Hin). apply list_elem_of_filter in Hin. cbn [fst snd] in *.
    injection E as -> ->. exists k. tauto.
  - intros (k & Hin & Hw & Hb). exists (k, v). cbn [fst snd]. split; [now rewrite Hw|].
    apply list_elem_of_filter. tauto.
Qed.

Lemma stored_entries_key (keys : list key_list_item) (k : key_list_item) (v : string) :
  (k, v) ∈ stored_entries blocks keys -> k ∈ keys.
Proof.
  induction keys as [|k0 rest IH]; cbn [stored_entries]; intros Hin.
  - apply elem_of_nil in Hin. contradiction.
  - apply elem_of_cons in Hin. destruct Hin as [E|Hin].
    + injection E as -> _. left.
    + right. exact (IH Hin).
Qed.

(** The bytes of a block inside the record data. *)
Lemma data_slice (pre blk tail : list Z) (off n : nat) :
  (off + n <= length blk)%nat ->
  take n (drop (length pre + off) (pre ++ blk ++ tail)) = take n (drop off blk).
Proof.
  intros Hle. rewrite drop_app_ge by lia.
  replace (length pre + off - length pre)%nat with off by lia.
  rewrite drop_app_le by lia. apply take_app_le. rewrite length_drop. lia.
Qed.

(** On a sorted key list whose values do not run over the end of the block,
    and whose last key lies outside the block, the scan of
    [decode_record_block_by_rid] yields the entries that the file stores in
    the block. *)
Lemma record_pairs_stored (h : record_header_item) (blk pre tail : list Z)
    (previous_end previous_uncomp_size : Z) (keys : list key_list_item) :
  filetype m = MDXTYPE ->
  concat blocks = pre ++ blk ++ tail ->
  Z.of_nat (length pre) = decompressed_size_accumulator h ->
  decompressed_size h = Z.of_nat (length blk) ->
  decompressed_size_accumulator h + decompressed_size h < 2 ^ 64 ->
  StronglySorted (fun k k' => record_start k <= record_start k') keys ->
  Forall (fun k => 0 <= record_start k < 2 ^ 64) keys ->
  (forall i k k', keys !! i = Some k -> keys !! S i = Some k' ->
     in_block h (record_start k) = true ->
     record_start k' <= decompressed_size_accumulator h + decompressed_size h) ->
  (forall k, last keys = Some k -> in_block h (record_start k) = false) ->
  record_pairs m blk keys (decompressed_size h) (decompressed_size_accumulator h)
    previous_end previous_uncomp_size = Ok (stored_in h (stored_entries blocks keys)).
Proof.
  intros Hft Hdata Hpre Hsize Hbound Hsorted Hrange Hwhole Hlast.
  induction keys as [|k rest IH]; [reflexivity|].
  apply StronglySorted_inv in Hsorted. destruct Hsorted as [Hsorted Hk_le].
  apply Forall_cons in Hrange. destruct Hrange as [Hk Hrange].
  assert (IH' : rest <> [] ->
            record_pairs m blk rest (decompressed_size h) (decompressed_size_accumulator h)
              previous_end previous_uncomp_size =
            Ok (stored_in h (stored_entries blocks rest))).
  { intros Hne. apply IH; [exact Hsorted | exact Hrange | |].
    - intros i k1 k2 H1 H2. exact (Hwhole (S i) k1 k2 H1 H2).
    - intros k1 H1. apply Hlast. destruct rest; [contradiction | exact H1]. }
  assert (IHrest : record_pairs m blk rest (decompressed_size h)
                     (decompressed_size_accumulator h) previous_end previous_uncomp_size =
                   Ok (stored_in h (stored_entries blocks rest))).
  { destruct rest as [|k' rest']; [reflexivity | apply IH'; discriminate]. }
  rewrite stored_in_cons. cbn [record_pairs]. unfold in_block in *.
  destruct (Z.ltb_spec (record_start k) (decompressed_size_accumulator h)) as [Hbefore|Hfrom].
  - (* before the block: skipped *)
    destruct (Z.leb_spec (decompressed_size_accumulator h) (record_start k)); [lia|].
    cbn [andb app]. exact IHrest.
  - destruct (Z.leb_spec (decompressed_size_accumulator h) (record_start k)); [|lia].
    cbn [andb] in *. unfold to_u64 at 1. rewrite Z.mod_small by lia.
    destruct (Z.leb_spec (decompressed_size h)
                (record_start k - decompressed_size_accumulator h)) as [Hbeyond|Hin].
    + (* beyond the block: the scan stops, and so do the entries *)
      destruct (Z.ltb_spec (record_start k)
                  (decompressed_size_accumulator h + decompressed_size h)); [lia|].
      cbn [app]. symmetry. f_equal. apply stored_in_outside.
      eapply Forall_impl; [exact Hk_le|]. intros k' Hle. cbn beta in Hle.
      unfold in_block.
      destruct (Z.ltb_spec (record_start k')
                  (decompressed_size_accumulator h + decompressed_size h)); [lia|].
      apply andb_false_r.
    + destruct (Z.ltb_spec (record_start k)
                  (decompressed_size_accumulator h + decompressed_size h)) as [Hlt|]; [|lia].
      (* in the block: the key has a successor *)
      destruct rest as [|k' rest'].
      { specialize (Hlast k eq_refl).
        destruct (Z.leb_spec (decompressed_size_accumulator h) (record_start k)); [|lia].
        destruct (Z.ltb_spec (record_start k)
                    (decompressed_size_accumulator h + decompressed_size h)); [|lia].
        discriminate. }
      apply Forall_cons in Hk_le. destruct Hk_le as [Hle _].
      apply Forall_cons in Hrange. destruct Hrange as [Hk' Hrange].
      assert (Hend : record_start k' <=
                     decompressed_size_accumulator h + decompressed_size h).
      { apply (Hwhole 0%nat k k' eq_refl eq_refl).
        destruct (Z.leb_spec (decompressed_size_accumulator h) (record_start k)); [|lia].
        destruct (Z.ltb_spec (record_start k)
                    (decompressed_size_accumulator h + decompressed_size h)); [|lia].
        reflexivity. }
      rewrite value_range_eq.
      assert (Hup : Z.min (to_u64 (record_start k' - record_start k)) (decompressed_size h) =
                    record_start k' - record_start k).
      { unfold to_u64. rewrite Z.mod_small by lia. lia. }
      rewrite Hup. unfold to_u64. rewrite Z.mod_small by lia.
      rewrite slice_ok by lia. cbn [mbind outcome_bind].
      rewrite bool_decide_eq_false_2 by (rewrite Hft; discriminate).
      rewrite IHrest. cbn [mbind outcome_bind mret outcome_ret app head]. do 3 f_equal.
      unfold stored_value. rewrite Hdata.
      replace (Z.to_nat (record_start k))
        with (length pre + Z.to_nat (record_start k - decompressed_size_accumulator h))%nat
        by lia.
      symmetry. f_equal. apply data_slice. lia.
Qed.

End BlockEntries.


(** ** The result of a lookup on a well-formed dictionary *)

Section LookupExact.

Context `{ext : Externals}.

Lemma map_push_fst (idx : Z) (item : key_list_item)
    (mp : list (Z * list key_list_item)) (z : Z) :
  z ∈ map fst (map_push idx item mp) <-> z = idx \/ z ∈ map fst mp.
Proof.
  induction mp as [|[k items] rest IH]; cbn [map_push map fst].
  - rewrite list_elem_of_singleton, elem_of_nil. tauto.
  - destruct (Z.ltb_spec idx k); [cbn [map fst]; rewrite !elem_of_cons; tauto|].
    destruct (Z.eqb_spec idx k) as [->|Hne]; cbn [map fst].
    + rewrite !elem_of_cons. tauto.
    + rewrite !elem_of_cons, IH. tauto.
Qed.

Lemma map_push_sorted (idx : Z) (item : key_list_item)
    (mp : list (Z * list key_list_item)) :
  StronglySorted Z.lt (map fst mp) ->
  StronglySorted Z.lt (map fst (map_push idx item mp)).
Proof.
  induction mp as [|[k items] rest IH]; intros Hs; cbn [map_push map fst].
  - repeat constructor.
  - cbn [map fst] in Hs. apply StronglySorted_inv in Hs. destruct Hs as [Hs Hk].
    destruct (Z.ltb_spec idx k) as [Hlt|Hge].
    + cbn [map fst]. constructor; [constructor; assumption|].
      constructor; [exact Hlt|]. eapply Forall_impl; [exact Hk|]. cbn. lia.
    + destruct (Z.eqb_spec idx k) as [->|Hne]; cbn [map fst].
      * constructor; assumption.
      * constructor; [apply IH; exact Hs|].
        apply Forall_forall. intros z Hz. apply map_push_fst in Hz.
        destruct Hz as [->|Hz]; [lia|]. rewrite Forall_forall in Hk. exact (Hk z Hz).
Qed.

Section WithDictionary.

Variable m : Mdict.
Variable blocks : list (list Z).
Hypothesis Hwf : well_formed m blocks.

Lemma in_block_holds (b : nat) (h : record_header_item) (rs : Z) :
  record_header (ri m) !! b = Some h -> in_block h rs = true -> holds m b rs.
Proof.
  intros Hh Hin. unfold in_block in Hin. apply andb_true_iff in Hin.
  destruct Hin as [Hle Hlt]. apply Z.leb_le in Hle. apply Z.ltb_lt in Hlt.
  exists h. split; [exact Hh|]. split; [exact Hle|].
  intros h' Hh'. rewrite (wf_next _ _ Hwf b h h' Hh Hh'). exact Hlt.
Qed.

Lemma sizes_nonneg (i : nat) (h : record_header_item) :
  record_header (ri m) !! i = Some h -> 0 <= decompressed_size h.
Proof.
  intros Hh. destruct (lookup_lt_is_Some_2 blocks i) as [blk Hblk].
  { rewrite <- (wf_count _ _ Hwf). eapply lookup_lt_Some. exact Hh. }
  destruct (wf_size _ _ Hwf i h blk Hh Hblk) as [-> _]. lia.
Qed.

Lemma wf_few_headers : Z.of_nat (length (record_header (ri m))) < 2 ^ 63.
Proof. rewrite (wf_count _ _ Hwf). exact (wf_few _ _ Hwf). Qed.

(** The accumulator of a block is the offset of its bytes in the record
    data. *)
Lemma accumulator_is_offset (b : nat) (h : record_header_item) :
  record_header (ri m) !! b = Some h ->
  decompressed_size_accumulator h = Z.of_nat (length (concat (take b blocks))).
Proof.
  revert h. induction b as [|b IH]; intros h Hh.
  - rewrite (wf_first _ _ Hwf h Hh). reflexivity.
  - destruct (lookup_lt_is_Some_2 (record_header (ri m)) b) as [p Hp].
    { apply lookup_lt_Some in Hh. lia. }
    destruct (lookup_lt_is_Some_2 blocks b) as [blk Hblk].
    { rewrite <- (wf_count _ _ Hwf). eapply lookup_lt_Some. exact Hp. }
    rewrite (wf_next _ _ Hwf b p h Hp Hh), (IH p Hp).
    destruct (wf_size _ _ Hwf b p blk Hp Hblk) as [-> _].
    rewrite (take_S_r _ _ _ Hblk), concat_app, length_app. cbn [concat].
    rewrite app_nil_r. lia.
Qed.

(** A block that does not hold the last key of the list decodes to the
    entries that the file stores in it. *)
Lemma decode_record_block_by_rid_eq (b : nat) (h : record_header_item) :
  record_header (ri m) !! b = Some h ->
  (forall k, last (key_list (ki m)) = Some k -> in_block h (record_start k) = false) ->
  decode_record_block_by_rid m (Z.of_nat b) = Ok (stored_in_block m blocks b).
Proof.
  intros Hh Hlast.
  destruct (lookup_lt_is_Some_2 blocks b) as [blk Hblk].
  { rewrite <- (wf_count _ _ Hwf). eapply lookup_lt_Some. exact Hh. }
  unfold decode_record_block_by_rid, stored_in_block.
  rewrite Nat2Z.id, Hh.
  destruct (wf_size _ _ Hwf b h blk Hh Hblk) as [Hsize Hbound].
  destruct (if 0 <? Z.of_nat b then _ else _) as [previous_end previous_uncomp_size].
  rewrite (wf_decode _ _ Hwf b blk Hblk). cbn [mbind outcome_bind].
  apply (record_pairs_stored m blocks h blk (concat (take b blocks))
           (concat (drop (S b) blocks))).
  - exact (wf_text _ _ Hwf).
  - rewrite <- (take_drop_middle blocks b blk Hblk) at 1.
    rewrite concat_app. reflexivity.
  - symmetry. apply accumulator_is_offset. exact Hh.
  - exact Hsize.
  - exact Hbound.
  - exact (wf_sorted _ _ Hwf).
  - exact (wf_range _ _ Hwf).
  - intros i k k' Hk Hk' Hin. exact (wf_whole _ _ Hwf i k k' b h Hk Hk' Hh Hin).
  - exact Hlast.
Qed.

(** A key lies in the block that holds its offset. *)
Lemma holds_in_block (k : key_list_item) (b : nat) :
  k ∈ key_list (ki m) -> holds m b (record_start k) ->
  exists h, record_header (ri m) !! b = Some h /\ in_block h (record_start k) = true.
Proof.
  intros Hk Hb. pose proof (wf_covered _ _ Hwf) as Hcov.
  rewrite Forall_forall in Hcov. destruct (Hcov k Hk) as (b' & h & Hh & Hin).
  pose proof (in_block_holds b' h _ Hh Hin) as Hb'.
  rewrite (holds_unique m (wf_next _ _ Hwf) sizes_nonneg _ _ _ Hb Hb').
  exists h. split; assumption.
Qed.


(** The matching keys are grouped under the blocks that hold them; the map
    lists these blocks in increasing order. *)
Lemma group_matches_spec (word : string) (keys : list key_list_item) :
  Forall (fun k => 0 <= record_start k) keys ->
  (keys <> [] -> record_header (ri m) <> []) ->
  forall map0, StronglySorted Z.lt (map fst map0) ->
    exists mp,
      group_matches m word (_s word) keys map0 = Ok mp /\
      StronglySorted Z.lt (map fst mp) /\
      forall z, z ∈ map fst mp <->
        (z ∈ map fst map0 \/
         exists k b, k ∈ keys /\ matches word k /\ holds m b (record_start k) /\
                     z = Z.of_nat b).
Proof.
  intros Hrange Hne. induction keys as [|k rest IH]; intros map0 Hs0.
  - exists map0. split; [reflexivity|]. split; [exact Hs0|].
    intros z. split; [tauto|]. intros [Hz|(k & b & Hk & _)]; [exact Hz|].
    apply elem_of_nil in Hk. contradiction.
  - apply Forall_cons in Hrange. destruct Hrange as [Hk Hrange].
    assert (Hne' : rest <> [] -> record_header (ri m) <> []) by (intros _; apply Hne; discriminate).
    specialize (IH Hrange Hne'). cbn [group_matches].
    destruct (bool_decide (key_word k = word) || bool_decide (_s (key_word k) = _s word))
      eqn:Hmatch.
    + assert (Hm : matches word k).
      { apply orb_true_iff in Hmatch. destruct Hmatch as [H1|H1];
          apply bool_decide_eq_true in H1; [left | right]; exact H1. }
      destruct (reduce_record_block_offset_spec m (wf_first _ _ Hwf) (wf_next _ _ Hwf)
                  sizes_nonneg wf_few_headers (record_start k) Hk
                  (Hne ltac:(discriminate))) as (b & Hb & Hholds).
      rewrite Hb. cbn [mbind outcome_bind].
      destruct (IH (map_push (Z.of_nat b) k map0) (map_push_sorted _ _ _ Hs0))
        as (mp & Hrun & Hsorted & Hkeys).
      exists mp. split; [exact Hrun|]. split; [exact Hsorted|].
      intros z. rewrite Hkeys, map_push_fst. split.
      * intros [[->|Hz]|(k' & b' & Hk' & Hm' & Hh' & ->)].
        -- right. exists k, b. split; [left|]. tauto.
        -- left. exact Hz.
        -- right. exists k', b'. split; [right; exact Hk'|]. tauto.
      * intros [Hz|(k' & b' & Hk' & Hm' & Hh' & ->)]; [tauto|].
        apply elem_of_cons in Hk'. destruct Hk' as [->|Hk'].
        -- left. left. f_equal. exact (holds_unique m (wf_next _ _ Hwf) sizes_nonneg _ _ _ Hh' Hholds).
        -- right. exists k', b'. tauto.
    + assert (Hm : ~ matches word k).
      { apply orb_false_iff in Hmatch. destruct Hmatch as [H1 H2].
        apply bool_decide_eq_false in H1, H2. intros [H|H]; contradiction. }
      destruct (IH map0 Hs0) as (mp & Hrun & Hsorted & Hkeys).
      exists mp. split; [exact Hrun|]. split; [exact Hsorted|].
      intros z. rewrite Hkeys. split.
      * intros [Hz|(k' & b' & Hk' & Hrest)]; [tauto|].
        right. exists k', b'. split; [right; exact Hk' | exact Hrest].
      * intros [Hz|(k' & b' & Hk' & Hm' & Hrest)]; [tauto|].
        apply elem_of_cons in Hk'. destruct Hk' as [->|Hk']; [contradiction|].
        right. exists k', b'. tauto.
Qed.

(** A block that holds no matching key contributes nothing. *)
Lemma no_match_no_definition (word : string) (b : nat) :
  (forall k, k ∈ key_list (ki m) -> matches word k -> ~ holds m b (record_start k)) ->
  reduce_particial_keys_vector (stored_in_block m blocks b) word = [].
Proof.
  intros Hnone. rewrite reduce_particial_keys_vector_eq.
  unfold stored_in_block.
  destruct (record_header (ri m) !! b) as [h|] eqn:Hh; [|reflexivity].
  assert (Hno : forall (P : string * string -> Prop) `{forall p, Decision (P p)},
            (forall p, P p -> word = fst p \/ _s word = _s (fst p)) ->
            filter P (stored_in h (stored_entries blocks (key_list (ki m)))) = []).
  { intros P Hdec HP. apply filter_none. intros [w v] Hin HPp.
    apply stored_in_elem in Hin. destruct Hin as (k & Hk & <- & Hblock).
    apply (Hnone k (stored_entries_key _ _ _ _ Hk)).
    - destruct (HP _ HPp) as [E|E]; cbn [fst] in E; [left | right]; congruence.
    - exact (in_block_holds b h _ Hh Hblock). }
  rewrite !Hno; [reflexivity | intros p; tauto | intros p; tauto].
Qed.


(** The concatenation over an increasing list of blocks is the
    concatenation over all blocks when the others contribute nothing. *)
Lemma concat_sorted_blocks {X} (f : nat -> list X) (n : nat) :
  forall (s : nat) (L : list Z),
    StronglySorted Z.lt L ->
    Forall (fun z => Z.of_nat s <= z < Z.of_nat (s + n)) L ->
    (forall b, (s <= b < s + n)%nat -> Z.of_nat b ∉ L -> f b = []) ->
    concat (map (fun z => f (Z.to_nat z)) L) = flat_map f (seq s n).
Proof.
  induction n as [|n IH]; intros s L Hsorted Hrange Hout.
  - destruct L as [|z L]; [reflexivity|]. apply Forall_cons in Hrange. lia.
  - cbn [seq flat_map]. destruct L as [|z L].
    + rewrite (Hout s) by (try lia; apply not_elem_of_nil).
      rewrite <- (IH (S s) []); [reflexivity | constructor | constructor |].
      intros b Hb _. apply Hout; [lia | apply not_elem_of_nil].
    + apply StronglySorted_inv in Hsorted. destruct Hsorted as [Hsorted Hz].
      apply Forall_cons in Hrange. destruct Hrange as [Hzr Hrange].
      rewrite Forall_forall in Hz, Hrange.
      destruct (Z.eq_dec z (Z.of_nat s)) as [->|Hne].
      * cbn [map concat]. rewrite Nat2Z.id. f_equal.
        apply IH; [exact Hsorted | |].
        -- apply Forall_forall. intros y Hy. specialize (Hz y Hy). specialize (Hrange y Hy). lia.
        -- intros b Hb Hnot. apply Hout; [lia|]. intros Hin.
           apply elem_of_cons in Hin. destruct Hin as [E|Hin]; [lia | contradiction].
      * rewrite (Hout s); [| lia |].
        -- cbn [app]. apply IH.
           ++ constructor; [exact Hsorted | apply Forall_forall; exact Hz].
           ++ apply Forall_cons. split; [lia|]. apply Forall_forall. intros y Hy.
              specialize (Hz y Hy). specialize (Hrange y Hy). lia.
           ++ intros b Hb Hnot. apply Hout; [lia | exact Hnot].
        -- intros Hin. apply elem_of_cons in Hin. destruct Hin as [E|Hin]; [lia|].
           specialize (Hz _ Hin). lia.
Qed.

Lemma holds_lt (b : nat) (rs : Z) : holds m b rs -> (b < length blocks)%nat.
Proof.
  intros (h & Hh & _). rewrite <- (wf_count _ _ Hwf). eapply lookup_lt_Some. exact Hh.
Qed.

(** When no matching key lies in a block that holds the last key of the
    list, [lookup] returns, block after block in file order, the stored
    definitions of the entries that match the word: in each block the raw
    matches first, then the entries that match only after normalization,
    every entry once. *)
Theorem lookup_exact (word : string) :
  (forall k, k ∈ key_list (ki m) -> matches word k ->
             away_from_last_key m (record_start k)) ->
  lookup m word =
  Ok (flat_map (fun b => reduce_particial_keys_vector (stored_in_block m blocks b) word)
        (seq 0 (length blocks))).
Proof.
  intros Haway.
  unfold lookup, lookup_try. rewrite (wf_text _ _ Hwf).
  rewrite bool_decide_eq_false_2 by discriminate.
  destruct (group_matches_spec word (key_list (ki m))) with (map0 := @nil (Z * list key_list_item))
    as (mp & Hrun & Hsorted & Hkeys).
  { eapply Forall_impl; [exact (wf_range _ _ Hwf)|]. cbn. lia. }
  { intros Hne Hrh. destruct (key_list (ki m)) as [|k rest] eqn:Hkl; [contradiction|].
    pose proof (wf_covered _ _ Hwf) as Hcov. rewrite Hkl in Hcov.
    apply Forall_cons in Hcov. destruct Hcov as [(b & h & Hh & _) _].
    rewrite Hrh in Hh. discriminate. }
  { constructor. }
  rewrite Hrun. cbn [mbind outcome_bind].
  assert (Hmp : forall z, z ∈ map fst mp ->
            exists k b, k ∈ key_list (ki m) /\ matches word k /\
                        holds m b (record_start k) /\ z = Z.of_nat b).
  { intros z Hz. apply Hkeys in Hz. destruct Hz as [Hz|Hz]; [|exact Hz].
    apply elem_of_nil in Hz. contradiction. }
  assert (Hcollect : collect_definitions m word mp [] =
            Ok (flat_map (fun b => reduce_particial_keys_vector (stored_in_block m blocks b) word)
                  (seq 0 (length blocks)))).
  { rewrite (collect_definitions_ok m word (fun z => stored_in_block m blocks (Z.to_nat z))).
    - cbn [app]. f_equal.
      rewrite <- (concat_sorted_blocks
                    (fun b => reduce_particial_keys_vector (stored_in_block m blocks b) word)
                    (length blocks) 0 (map fst mp) Hsorted).
      + rewrite map_map. reflexivity.
      + apply Forall_forall. intros z Hz. destruct (Hmp z Hz) as (k & b & _ & _ & Hb & ->).
        apply holds_lt in Hb. lia.
      + intros b Hb Hnot. apply no_match_no_definition. intros k Hk Hm Hholds.
        apply Hnot. apply Hkeys. right. exists k, b. tauto.
    - apply Forall_forall. intros [z items] Hz. cbn [fst].
      assert (Hzin : z ∈ map fst mp).
      { apply list_elem_of_fmap. exists (z, items). split; [reflexivity | exact Hz]. }
      destruct (Hmp z Hzin) as (k & b & Hk & Hm & Hb & ->).
      rewrite Nat2Z.id.
      destruct (holds_in_block k b Hk Hb) as (h & Hh & Hin).
      apply (decode_record_block_by_rid_eq b h Hh).
      intros klast Hklast. exact (Haway k Hk Hm b h klast Hh Hklast Hin). }
  destruct mp as [|p mp']; [|rewrite Hcollect; reflexivity].
  cbn in Hcollect. injection Hcollect as <-. reflexivity.
Qed.

(** Under the same condition a definition is returned exactly when it is
    the stored value of an entry whose key matches the word, raw or
    normalized. *)
Corollary lookup_elem (word v : string) :
  (forall k, k ∈ key_list (ki m) -> matches word k ->
             away_from_last_key m (record_start k)) ->
  ((exists l, lookup m word = Ok l /\ v ∈ l) <->
   exists k, (k, v) ∈ stored_entries blocks (key_list (ki m)) /\ matches word k).
Proof.
  intros Haway. rewrite (lookup_exact word Haway). split.
  - intros (l & E & Hv). injection E as <-.
    apply list_elem_of_In, in_flat_map in Hv. destruct Hv as (b & _ & Hv).
    apply list_elem_of_In in Hv. rewrite reduce_particial_keys_vector_eq in Hv.
    unfold stored_in_block in Hv.
    destruct (record_header (ri m) !! b) as [h|] eqn:Hh;
      [|cbn in Hv; apply elem_of_nil in Hv; contradiction].
    apply elem_of_app in Hv.
    destruct Hv as [Hv|Hv]; apply list_elem_of_fmap in Hv; destruct Hv as ([w v'] & E & Hp);
      cbn [snd] in E; subst v'; apply list_elem_of_filter in Hp; cbn [fst] in Hp;
      destruct Hp as [Hw Hp]; apply stored_in_elem in Hp;
      destruct Hp as (k & Hk & Hkw & _); exists k; (split; [exact Hk|]).
    + left. congruence.
    + right. destruct Hw as [_ Hs]. congruence.
  - intros (k & Hin & Hm). eexists. split; [reflexivity|].
    pose proof (stored_entries_key _ _ _ _ Hin) as Hk.
    pose proof (wf_covered _ _ Hwf) as Hcov. rewrite Forall_forall in Hcov.
    destruct (Hcov k Hk) as (b & h & Hh & Hb).
    apply list_elem_of_In, in_flat_map. exists b. split.
    + apply in_seq. rewrite <- (wf_count _ _ Hwf). apply lookup_lt_Some in Hh. lia.
    + apply list_elem_of_In. rewrite reduce_particial_keys_vector_eq. apply elem_of_app.
      assert (Hentry : (key_word k, v) ∈ stored_in_block m blocks b).
      { unfold stored_in_block. rewrite Hh. apply stored_in_elem. exists k. tauto. }
      destruct (decide (word = key_word k)) as [E|Hne].
      * left. apply list_elem_of_fmap. exists (key_word k, v). split; [reflexivity|].
        apply list_elem_of_filter. split; [exact E | exact Hentry].
      * right. apply list_elem_of_fmap. exists (key_word k, v). split; [reflexivity|].
        apply list_elem_of_filter. split; [|exact Hentry]. cbn [fst].
        split; [exact Hne|]. destruct Hm as [E|E]; congruence.
Qed.


End WithDictionary.

End LookupExact.

Section LookupExamples.

Import Sample.

Lemma two_entries_tables :
  record_header (ri two_entries_dict) = [mk_record_header_item 0 16 40 0 0] /\
  key_list (ki two_entries_dict) =
    [mk_key_list_item 0 "apple"; mk_key_list_item 10 "banana"].
Proof. split; vm_compute; reflexivity. Qed.

(** The dictionary read from the sample file is in the layout of the
    format. *)
Example two_entries_well_formed :
  opened two_entries = Ok two_entries_dict /\
  @well_formed (externals headinfo_v2) two_entries_dict [apple_value ++ banana_value].
Proof.
  split; [vm_compute; reflexivity|].
  destruct two_entries_tables as [Hrh Hkl].
  constructor.
  - vm_compute; reflexivity.
  - vm_compute; reflexivity.
  - vm_compute; reflexivity.
  - rewrite Hrh. intros h [= <-]. reflexivity.
  - rewrite Hrh. intros [|i] h h' Hh Hh'; discriminate.
  - rewrite Hrh. intros [|i] h blk Hh Hblk; [|discriminate].
    injection Hh as <-. injection Hblk as <-. split; vm_compute; reflexivity.
  - intros [|i] blk Hblk; [|discriminate]. injection Hblk as <-. vm_compute. reflexivity.
  - rewrite Hkl. repeat constructor; cbn; lia.
  - rewrite Hkl. repeat constructor; cbn; lia.
  - rewrite Hkl, Hrh. repeat constructor; eexists 0%nat, _; (split; [reflexivity|]); reflexivity.
  - rewrite Hkl, Hrh. intros i k k' b h Hk Hk' Hh Hin.
    destruct b as [|b]; [|discriminate Hh]. injection Hh as <-.
    destruct i as [|[|i]]; [|discriminate Hk'|discriminate Hk'].
    injection Hk' as <-. vm_compute. discriminate.
Qed.

Lemma two_blocks_tables :
  record_header (ri two_blocks_dict) =
    [mk_record_header_item 0 20 45 0 0; mk_record_header_item 1 12 20 20 45] /\
  key_list (ki two_blocks_dict) =
    [mk_key_list_item 0 "apple"; mk_key_list_item 10 "Banana";
     mk_key_list_item 15 "banana"; mk_key_list_item 45 "cherry"].
Proof. split; vm_compute; reflexivity. Qed.

Example two_blocks_well_formed :
  opened two_blocks = Ok two_blocks_dict /\
  @well_formed (externals headinfo_v2) two_blocks_dict two_blocks_contents.
Proof.
  split; [vm_compute; reflexivity|].
  destruct two_blocks_tables as [Hrh Hkl].
  constructor.
  - vm_compute; reflexivity.
  - vm_compute; reflexivity.
  - vm_compute; reflexivity.
  - rewrite Hrh. intros h [= <-]. reflexivity.
  - rewrite Hrh. intros i h h' Hh Hh'.
    destruct i as [|[|i]]; [|discriminate Hh'|discriminate Hh'].
    injection Hh as <-. injection Hh' as <-. reflexivity.
  - rewrite Hrh. intros i h blk Hh Hblk.
    destruct i as [|[|i]]; [| |discriminate Hh];
      injection Hh as <-; injection Hblk as <-; split; vm_compute; reflexivity.
  - intros i blk Hblk.
    destruct i as [|[|i]]; [| |discriminate Hblk];
      injection Hblk as <-; vm_compute; reflexivity.
  - rewrite Hkl. repeat constructor; cbn; lia.
  - rewrite Hkl. repeat constructor; cbn; lia.
  - rewrite Hkl, Hrh. repeat constructor;
      [eexists 0%nat, _ | eexists 0%nat, _ | eexists 0%nat, _ | eexists 1%nat, _];
      (split; [reflexivity|]); reflexivity.
  - rewrite Hkl, Hrh. intros i k k' b h Hk Hk' Hh Hin.
    destruct b as [|[|b]]; [| |discriminate Hh]; injection Hh as <-;
      (destruct i as [|[|[|i]]]; [| | |discriminate Hk']);
      injection Hk as <-; injection Hk' as <-; vm_compute; vm_compute in Hin;
      discriminate.
Qed.

(** In the sample with two blocks, the offsets of the first block lie in no
    block that holds the last key. *)
Lemma two_blocks_away (rs : Z) :
  0 <= rs < 45 -> away_from_last_key two_blocks_dict rs.
Proof.
  intros Hrs b h k Hh Hk Hin.
  destruct two_blocks_tables as [Hrh Hkl]. rewrite Hrh in Hh. rewrite Hkl in Hk.
  injection Hk as <-.
  destruct b as [|[|b]]; [| |discriminate Hh]; injection Hh as <-.
  - reflexivity.
  - unfold in_block in Hin. cbn [decompressed_size_accumulator decompressed_size] in Hin.
    destruct (Z.leb_spec 45 rs); [lia | discriminate Hin].
Qed.

End LookupExamples.



(** ** Regular-expression suggestions *)

Section RegexFacts.

Context `{ext : Externals}.

(** C10.  [regex_suggest] returns the empty list, and leaves the dictionary
    as it was, when the pattern is the empty string or does not compile as
    a regular expression. *)
Theorem C10_regex_suggest_empty_or_invalid (m : Mdict) (regex_str : string) :
  regex_str = EmptyString \/ regex_compile (utf8_to_wstring regex_str) = None ->
  regex_suggest m regex_str = (m, []).
Proof.
  intros [Hempty | Hinvalid]; unfold regex_suggest, regex_suggest_run.
  - rewrite Hempty. reflexivity.
  - destruct regex_str as [|c0 tail]; [reflexivity|].
    rewrite Hinvalid. reflexivity.
Qed.

(** The scan keeps the suggestions it starts with, adds only keys that the
    regular expression matches, and stops at fifty. *)
Lemma regex_scan_sound (re : wregex) (anchor : bool) (prefix required : string)
    (keys : list key_list_item) :
  forall (suggestions : list string) (checked_count : Z),
    exists added,
      fst (regex_scan re anchor prefix required keys suggestions checked_count) =
        suggestions ++ added /\
      Forall (fun key => regex_search (utf8_to_wstring key) re = true /\
                         In key (map key_word keys)) added /\
      ((length suggestions < max_suggestions)%nat ->
       (length (suggestions ++ added) <= max_suggestions)%nat).
Proof.
  induction keys as [|item rest IH]; intros suggestions checked_count.
  - exists []. cbn. rewrite app_nil_r. repeat split; [constructor | lia].
  - assert (Hskip : exists added,
              fst (regex_scan re anchor prefix required rest suggestions checked_count) =
                suggestions ++ added /\
              Forall (fun key => regex_search (utf8_to_wstring key) re = true /\
                                 In key (map key_word (item :: rest))) added /\
              ((length suggestions < max_suggestions)%nat ->
               (length (suggestions ++ added) <= max_suggestions)%nat)).
    { destruct (IH suggestions checked_count) as (added & E & Hall & Hlen).
      exists added. split; [exact E|]. split; [|exact Hlen].
      eapply Forall_impl; [exact Hall|]. intros key [Hm Hin]. split; [exact Hm|].
      right. exact Hin. }
    assert (Hstop : exists added,
              suggestions = suggestions ++ added /\
              Forall (fun key => regex_search (utf8_to_wstring key) re = true /\
                                 In key (map key_word (item :: rest))) added /\
              ((length suggestions < max_suggestions)%nat ->
               (length (suggestions ++ added) <= max_suggestions)%nat)).
    { exists []. rewrite app_nil_r. repeat split; [constructor | lia]. }
    cbn [regex_scan].
    destruct (anchor && negb (bool_decide (prefix = EmptyString)) &&
              negb (String.prefix prefix (lowercase (key_word item)))).
    { destruct (String.ltb prefix (lowercase (key_word item))); [exact Hstop | exact Hskip]. }
    destruct (negb (bool_decide (required = EmptyString)) &&
              negb (string_contains required (lowercase (key_word item)))).
    { exact Hskip. }
    destruct (regex_search (utf8_to_wstring (key_word item)) re) eqn:Hmatch.
    + cbn [andb].
      destruct (Nat.leb_spec max_suggestions (length (suggestions ++ [key_word item])))
        as [Hfull|Hroom].
      * exists [key_word item]. cbn [fst]. split; [reflexivity|]. split.
        -- constructor; [|constructor]. split; [exact Hmatch | left; reflexivity].
        -- intros Hlt. rewrite length_app in *. cbn [length] in *. lia.
      * assert (Hnext : exists added,
                  fst (regex_scan re anchor prefix required rest
                         (suggestions ++ [key_word item]) (checked_count + 1)) =
                    suggestions ++ added /\
                  Forall (fun key => regex_search (utf8_to_wstring key) re = true /\
                                     In key (map key_word (item :: rest))) added /\
                  ((length suggestions < max_suggestions)%nat ->
                   (length (suggestions ++ added) <= max_suggestions)%nat)).
        { destruct (IH (suggestions ++ [key_word item]) (checked_count + 1))
            as (added & E & Hall & Hlen).
          exists (key_word item :: added). rewrite E, <- app_assoc.
          split; [reflexivity|]. split.
          - constructor; [split; [exact Hmatch | left; reflexivity]|].
            eapply Forall_impl; [exact Hall|]. intros key [Hm Hin].
            split; [exact Hm | right; exact Hin].
          - intros _. rewrite <- app_assoc in Hlen. apply Hlen. exact Hroom. }
        destruct (20000 <? checked_count + 1); [|exact Hnext].
        exists [key_word item]. cbn [fst]. split; [reflexivity|]. split.
        -- constructor; [|constructor]. split; [exact Hmatch | left; reflexivity].
        -- intros _. lia.
    + cbn [andb].
      destruct (20000 <? checked_count + 1); [exact Hstop|].
      destruct (IH suggestions (checked_count + 1)) as (added & E & Hall & Hlen).
      exists added. split; [exact E|]. split; [|exact Hlen].
      eapply Forall_impl; [exact Hall|]. intros key [Hm Hin]. split; [exact Hm|].
      right. exact Hin.
Qed.

(** The counter of tested candidates ends at 20001 at most. *)
Lemma regex_scan_checked (re : wregex) (anchor : bool) (prefix required : string)
    (keys : list key_list_item) :
  forall (suggestions : list string) (checked_count : Z),
    checked_count <= 20000 ->
    checked_count <=
      snd (regex_scan re anchor prefix required keys suggestions checked_count) <= 20001.
Proof.
  induction keys as [|item rest IH]; intros suggestions checked_count Hc;
    cbn [regex_scan]; [cbn; lia|].
  destruct (anchor && negb (bool_decide (prefix = EmptyString)) &&
            negb (String.prefix prefix (lowercase (key_word item)))).
  { destruct (String.ltb prefix (lowercase (key_word item)));
      [cbn; lia | apply IH; exact Hc]. }
  destruct (negb (bool_decide (required = EmptyString)) &&
            negb (string_contains required (lowercase (key_word item))));
    [apply IH; exact Hc|].
  match goal with
  | |- context [if ?c && ?d then _ else _] => destruct (c && d); [cbn; lia|]
  end.
  destruct (Z.ltb_spec 20000 (checked_count + 1)) as [Hover|Hunder]; [cbn; lia|].
  specialize (IH (if regex_search (utf8_to_wstring (key_word item)) re
                  then suggestions ++ [key_word item] else suggestions)
                 (checked_count + 1) Hunder).
  lia.
Qed.

(** What holds of every call: at most fifty keys, each a key of the
    dictionary that the regular expression matches, and a counter of tested
    candidates of at most 20001. *)
Lemma regex_suggest_sound_and_bounded (m : Mdict) (regex_str : string) :
  (length (snd (regex_suggest m regex_str)) <= 50)%nat /\
  (forall key, In key (snd (regex_suggest m regex_str)) ->
     In key (map key_word (key_list (ki m))) /\
     exists re, regex_compile (utf8_to_wstring regex_str) = Some re /\
                regex_search (utf8_to_wstring key) re = true) /\
  0 <= snd (regex_suggest_run m regex_str) <= 20001.
Proof.
  unfold regex_suggest, regex_suggest_run. cbn [snd].
  destruct regex_str as [|c0 tail]; [cbn; repeat split; try lia; intros key []|].
  destruct (regex_compile (utf8_to_wstring (String c0 tail))) as [re|];
    [|cbn; repeat split; try lia; intros key []].
  match goal with
  | |- context [regex_scan re ?a ?p ?r (drop ?it ?l) [] 0] =>
      destruct (regex_scan_sound re a p r (drop it l) [] 0) as (added & E & Hall & Hlen);
      pose proof (regex_scan_checked re a p r (drop it l) [] 0 ltac:(lia)) as Hchecked;
      rewrite E; set (start := it) in *
  end.
  cbn [app] in *. split; [|split].
  - apply Hlen. unfold max_suggestions. cbn. lia.
  - intros key Hin. rewrite Forall_forall in Hall.
    destruct (Hall key ltac:(apply list_elem_of_In; exact Hin)) as [Hm Hk].
    split; [|exists re; split; [reflexivity | exact Hm]].
    apply in_map_iff in Hk. destruct Hk as (item & <- & Hitem).
    apply in_map. rewrite <- (take_drop start (key_list (ki m))). apply in_or_app. right. exact Hitem.
  - lia.
Qed.

(** With no prefilter and a regular expression that never matches, the scan
    of [n] keys "a" counts every key until the counter has passed 20000. *)
Lemma regex_scan_no_match (re : wregex) (n : nat) :
  regex_search (utf8_to_wstring "a") re = false ->
  forall checked_count,
    0 <= checked_count <= 20000 ->
    regex_scan re true EmptyString EmptyString
      (replicate n (mk_key_list_item 0 "a")) [] checked_count =
    ([], Z.min (checked_count + Z.of_nat n) 20001).
Proof.
  intros Hno. induction n as [|n IH]; intros checked_count Hc.
  - cbn. f_equal. lia.
  - cbn [replicate regex_scan key_word lowercase]. rewrite Hno.
    cbn [andb negb bool_decide decide_rel].
    rewrite bool_decide_eq_true_2 by reflexivity. cbn [andb negb].
    destruct (Z.ltb_spec 20000 (checked_count + 1)) as [Hover|Hunder].
    + f_equal. lia.
    + rewrite IH by lia. f_equal. lia.
Qed.

(** C9 (what the code does).  For the pattern [^$] and a dictionary of
    20002 keys "a", none of which the pattern matches, the regular
    expression is tested on 20001 candidates before the scan stops: the
    counter is compared with [> 20000] after it has been incremented. *)
Theorem C9_scan_tests_20001_candidates (m : Mdict) (re : wregex) :
  regex_compile (utf8_to_wstring "^$") = Some re ->
  regex_search (utf8_to_wstring "a") re = false ->
  key_list (ki m) = replicate (Z.to_nat 20002) (mk_key_list_item 0 "a") ->
  regex_suggest_run m "^$" = ([], 20001) /\ 20000 < 20001.
Proof.
  intros Hcompile Hno Hkeys. split; [|lia].
  unfold regex_suggest_run. rewrite Hcompile, Hkeys.
  cbn [Ascii.eqb Bool.eqb literal_prefix ends_prefix existsb orb andb negb longest_literal
       ends_literal longer String.length Nat.ltb Nat.leb lowercase].
  rewrite bool_decide_eq_true_2 by reflexivity. cbn [andb negb].
  rewrite drop_0, regex_scan_no_match by (exact Hno || lia). f_equal.
Qed.

End RegexFacts.

Section RegexExamples.

Import Sample.

(** C10 at the pattern "[a", which the sample compiler rejects. *)
Lemma C10_regex_suggest_witness :
  @regex_suggest (externals headinfo_v2) stored_dict "[a" = (stored_dict, []).
Proof.
  apply (@C10_regex_suggest_empty_or_invalid (externals headinfo_v2) stored_dict "[a").
  right. reflexivity.
Defined.

(** C9 at the dictionary of 20002 keys. *)
Lemma C9_scan_tests_20001_witness :
  @regex_suggest_run (externals headinfo_v2) (many_keys (Z.to_nat 20002)) "^$" = ([], 20001) /\
  20000 < 20001.
Proof.
  apply (@C9_scan_tests_20001_candidates (externals headinfo_v2) (many_keys (Z.to_nat 20002))
           [94; 36]); reflexivity.
Defined.

End RegexExamples.

(** ** Paths and markup *)

Section TextFacts.

Lemma chars_app (a b : string) :
  String.list_ascii_of_string (a +:+ b) =
  String.list_ascii_of_string a ++ String.list_ascii_of_string b.
Proof.
  induction a as [|c a IH]; [reflexivity|].
  change (String c a +:+ b) with (String c (a +:+ b)). simpl. f_equal. exact IH.
Qed.

Lemma chars_length (s : string) :
  length (String.list_ascii_of_string s) = String.length s.
Proof. induction s as [|c s IH]; simpl; [reflexivity | f_equal; exact IH]. Qed.

Lemma chars_substring (s : string) (n m : nat) :
  String.list_ascii_of_string (String.substring n m s) =
  take m (drop n (String.list_ascii_of_string s)).
Proof.
  revert n m. induction s as [|c s IH]; intros n m.
  - destruct n, m; reflexivity.
  - destruct n as [|n].
    + destruct m as [|m]; [reflexivity|]. cbn. now rewrite IH.
    + cbn. apply IH.
Qed.

Lemma chars_inj (a b : string) :
  String.list_ascii_of_string a = String.list_ascii_of_string b -> a = b.
Proof.
  intros E. rewrite <- (String.string_of_list_ascii_of_string a),
                    <- (String.string_of_list_ascii_of_string b).
  now rewrite E.
Qed.

Lemma str_app (a b : list ascii) :
  String.string_of_list_ascii (a ++ b) =
  String.string_of_list_ascii a +:+ String.string_of_list_ascii b.
Proof. induction a as [|c a IH]; simpl; [reflexivity | rewrite IH; reflexivity]. Qed.

(** *** [endsWith] and the file type *)

Lemma endsWith_suffix (fullString ending : string) :
  endsWith fullString ending = true <-> exists stem, fullString = stem +:+ ending.
Proof.
  unfold endsWith. split.
  - destruct (Nat.leb_spec (String.length ending) (String.length fullString)) as [Hle|];
      [|discriminate].
    intros H. apply bool_decide_eq_true in H.
    exists (String.substring 0 (String.length fullString - String.length ending) fullString).
    apply (f_equal String.list_ascii_of_string) in H. rewrite chars_substring in H.
    apply chars_inj. rewrite chars_app, chars_substring, <- H. cbn [drop].
    rewrite <- !chars_length in *.
    set (l := String.list_ascii_of_string fullString) in *.
    set (e := String.list_ascii_of_string ending) in *.
    rewrite drop_0.
    rewrite (take_ge (drop (length l - length e) l)) by (rewrite length_drop; lia).
    now rewrite take_drop.
  - intros [stem ->].
    assert (Hlen : String.length (stem +:+ ending) =
                   (String.length stem + String.length ending)%nat).
    { rewrite <- !chars_length, chars_app, length_app. reflexivity. }
    rewrite Hlen.
    destruct (Nat.leb_spec (String.length ending)
                (String.length stem + String.length ending)); [|lia].
    apply bool_decide_eq_true. apply chars_inj. rewrite chars_substring, chars_app.
    replace (String.length stem + String.length ending - String.length ending)%nat
      with (length (String.list_ascii_of_string stem)) by (rewrite chars_length; lia).
    rewrite drop_app_length, <- chars_length. apply take_ge. lia.
Qed.

(** X19.  The constructor makes a resource archive of exactly the file
    names that end in ".mdd", in this spelling; every other name, ".MDD"
    included, gives a text dictionary.  [endsWith] holds exactly when the
    string is some stem followed by the ending. *)
Theorem filetype_of_filename_mdd :
  (forall fullString ending,
      endsWith fullString ending = true <-> exists stem, fullString = stem +:+ ending) /\
  (forall fn, filetype_of_filename fn = MDDTYPE <-> exists stem, fn = stem +:+ ".mdd") /\
  filetype_of_filename "WORDS.MDD" = MDXTYPE /\
  (forall ending, endsWith EmptyString ending = true <-> ending = EmptyString).
Proof.
  split; [exact endsWith_suffix|]. split; [|split].
  - intros fn. unfold filetype_of_filename. rewrite <- endsWith_suffix.
    destruct (endsWith fn ".mdd"); split; congruence.
  - reflexivity.
  - intros ending. rewrite endsWith_suffix. split.
    + intros [stem E]. destruct stem as [|c stem].
      * change (EmptyString = ending) in E. congruence.
      * change (EmptyString = String c (stem +:+ ending)) in E. discriminate.
    + intros ->. exists EmptyString. reflexivity.
Qed.

(** *** [normalize_path] *)

Lemma tolower_idem (c : ascii) : tolower (tolower c) = tolower c.
Proof.
  unfold tolower. pose proof (uc_range c).
  destruct (Z.leb_spec 65 (uc c)) as [H1|H1], (Z.leb_spec (uc c) 90) as [H2|H2];
    cbn [andb].
  - rewrite uc_to_char by lia.
    destruct (Z.leb_spec 65 (uc c + 32)), (Z.leb_spec (uc c + 32) 90); cbn [andb];
      try reflexivity. lia.
  - destruct (Z.leb_spec 65 (uc c)), (Z.leb_spec (uc c) 90); cbn [andb];
      try reflexivity. lia.
  - destruct (Z.leb_spec 65 (uc c)), (Z.leb_spec (uc c) 90); cbn [andb];
      try reflexivity. lia.
  - destruct (Z.leb_spec 65 (uc c)), (Z.leb_spec (uc c) 90); cbn [andb];
      try reflexivity. lia.
Qed.

Lemma tolower_not_upper (c : ascii) : ~ (65 <= uc (tolower c) <= 90).
Proof.
  unfold tolower. pose proof (uc_range c).
  destruct (Z.leb_spec 65 (uc c)), (Z.leb_spec (uc c) 90); cbn;
    try rewrite uc_to_char; lia.
Qed.

Lemma tolower_fixed (c : ascii) : ~ (65 <= uc c <= 90) -> tolower c = c.
Proof.
  intros H. unfold tolower.
  destruct (Z.leb_spec 65 (uc c)), (Z.leb_spec (uc c) 90); cbn; try reflexivity. lia.
Qed.

Lemma plain_replace_lowercase (p : string) : plain (replace "/" "\" (lowercase p)).
Proof.
  unfold plain. induction p as [|c p IH]; cbn; [constructor|].
  constructor; [|exact IH].
  destruct (Ascii.eqb_spec (tolower c) "/") as [E|Hne].
  - split; [discriminate|]. change (uc "\"%char) with 92. lia.
  - split; [exact Hne | apply tolower_not_upper].
Qed.

Lemma plain_fixed (s : string) : plain s -> replace "/" "\" (lowercase s) = s.
Proof.
  unfold plain. induction s as [|c s IH]; cbn; intros H; [reflexivity|].
  apply Forall_cons in H. destruct H as [[Hc Hu] Hs].
  rewrite (tolower_fixed c Hu), (IH Hs).
  destruct (Ascii.eqb_spec c "/"); [contradiction | reflexivity].
Qed.

Lemma normalize_path_cases (p : string) :
  normalize_path p = replace "/" "\" (lowercase p) \/
  normalize_path p = String "\" (replace "/" "\" (lowercase p)).
Proof.
  unfold normalize_path. destruct (replace "/" "\" (lowercase p)) as [|c r]; [now left|].
  destruct (Ascii.eqb c "\"); cbn; [now left | now right].
Qed.

Lemma plain_normalize_path (p : string) : plain (normalize_path p).
Proof.
  destruct (normalize_path_cases p) as [-> | ->]; [apply plain_replace_lowercase|].
  unfold plain. cbn. constructor; [|apply plain_replace_lowercase].
  split; [discriminate|]. change (uc "\"%char) with 92. lia.
Qed.

(** X17.  [normalize_path] is idempotent; its result is empty exactly for
    the empty path and otherwise starts with a backslash; it holds no slash
    and no upper-case ASCII letter, and is at most one character longer than
    the path. *)
Theorem normalize_path_idempotent_and_shape (p : string) :
  normalize_path (normalize_path p) = normalize_path p /\
  (normalize_path p = EmptyString <-> p = EmptyString) /\
  (p <> EmptyString -> exists rest, normalize_path p = String "\" rest) /\
  Forall (fun c => c <> "/"%char /\ ~ (65 <= uc c <= 90))
         (String.list_ascii_of_string (normalize_path p)) /\
  (String.length p <= String.length (normalize_path p) <= String.length p + 1)%nat.
Proof.
  assert (Hlen : forall s, String.length (replace "/" "\" (lowercase s)) = String.length s).
  { induction s as [|c s IH]; cbn; [reflexivity | now rewrite IH]. }
  assert (Hshape : normalize_path p = EmptyString /\ p = EmptyString \/
                   p <> EmptyString /\ exists rest, normalize_path p = String "\" rest).
  { unfold normalize_path. destruct p as [|c p]; [left; split; reflexivity|].
    right. split; [discriminate|]. cbn [lowercase replace].
    destruct (Ascii.eqb_spec (if Ascii.eqb (tolower c) "/" then "\"%char else tolower c) "\")
      as [E|Hne]; cbn [negb].
    - rewrite E. eexists. reflexivity.
    - eexists. reflexivity. }
  split; [|split; [|split; [|split]]].
  - pose proof (plain_normalize_path p) as Hplain.
    unfold normalize_path at 1. rewrite (plain_fixed _ Hplain).
    destruct Hshape as [[-> _] | [_ [rest ->]]]; reflexivity.
  - destruct Hshape as [[E1 E2] | [Hne [rest E]]]; [tauto|].
    rewrite E. split; [discriminate | contradiction].
  - intros Hne. destruct Hshape as [[_ E] | [_ H]]; [contradiction | exact H].
  - apply plain_normalize_path.
  - destruct (normalize_path_cases p) as [-> | ->]; cbn [String.length]; rewrite Hlen; lia.
Qed.

(** X18.  A leading separator makes no difference to a path that is not
    empty: a path whose first character is neither a slash nor a backslash
    normalizes to the same key with or without a separator in front, of
    either kind.  The empty path is the exception: it normalizes to the
    empty key, and a separator alone to a single backslash. *)
Theorem normalize_path_leading_separator (c : ascii) (rest : string) :
  c <> "/"%char -> c <> "\"%char ->
  let p := String c rest in
  normalize_path (String "/" p) = normalize_path p /\
  normalize_path (String "\" p) = normalize_path p /\
  normalize_path p = String "\" (replace "/" "\" (lowercase p)) /\
  normalize_path EmptyString = EmptyString /\
  normalize_path "/" = "\" /\ normalize_path "\" = "\".
Proof.
  intros Hslash Hback p.
  assert (Hfirst : (if Ascii.eqb (tolower c) "/" then "\"%char else tolower c) <> "\"%char).
  { destruct (Ascii.eqb_spec (tolower c) "/") as [E|Hne].
    - exfalso. unfold tolower in E.
      destruct ((65 <=? uc c) && (uc c <=? 90)) eqn:Hu; [|contradiction].
      apply andb_true_iff in Hu. destruct Hu as [H1 H2].
      apply Z.leb_le in H1, H2.
      apply (f_equal uc) in E. rewrite uc_to_char in E by (pose proof (uc_range c); lia).
      vm_compute in E. change (uc c + 32 = 47) in E. lia.
    - intros E. unfold tolower in E.
      destruct ((65 <=? uc c) && (uc c <=? 90)) eqn:Hu; [|contradiction].
      apply andb_true_iff in Hu. destruct Hu as [H1 H2].
      apply Z.leb_le in H1, H2.
      apply (f_equal uc) in E. rewrite uc_to_char in E by (pose proof (uc_range c); lia).
      change (uc c + 32 = 92) in E. lia. }
  assert (Hp : normalize_path p = String "\" (replace "/" "\" (lowercase p))).
  { unfold normalize_path, p. cbn [lowercase replace].
    destruct (Ascii.eqb_spec (if Ascii.eqb (tolower c) "/" then "\"%char else tolower c) "\");
      [contradiction | reflexivity]. }
  split; [|split; [|split]]; [| |exact Hp|repeat split]; rewrite Hp; reflexivity.
Qed.

Lemma normalize_path_leading_separator_witness :
  normalize_path "/Images/Logo.PNG" = normalize_path "Images/Logo.PNG" /\
  normalize_path "\Images/Logo.PNG" = normalize_path "Images/Logo.PNG" /\
  normalize_path "Images/Logo.PNG" =
    String "\" (replace "/" "\" (lowercase "Images/Logo.PNG")) /\
  normalize_path EmptyString = EmptyString /\
  normalize_path "/" = "\" /\ normalize_path "\" = "\".
Proof.
  exact (normalize_path_leading_separator "I" "mages/Logo.PNG"
           ltac:(discriminate) ltac:(discriminate)).
Defined.


(** *** Searching a string *)

Lemma starts_with_prefix {A} `{EqDecision A} (sub l : list A) :
  starts_with sub l = true <-> exists r, l = sub ++ r.
Proof.
  revert l. induction sub as [|x sub IH]; intros l; cbn [starts_with].
  - split; [intros _; exists l; reflexivity | reflexivity].
  - destruct l as [|y l].
    + split; [discriminate | intros [r E]; discriminate].
    + rewrite andb_true_iff, bool_decide_eq_true, IH. split.
      * intros [-> [r ->]]. exists r. reflexivity.
      * intros [r E]. injection E as -> ->. split; [reflexivity | exists r; reflexivity].
Qed.

Lemma contains_occurrence {A} `{EqDecision A} (sub l : list A) :
  contains sub l = true <-> exists u r, l = u ++ sub ++ r.
Proof.
  induction l as [|y l IH]; cbn [contains]; rewrite orb_true_iff, starts_with_prefix.
  - split.
    + intros [[r E]|H]; [|discriminate]. exists [], r. exact E.
    + intros (u & r & E). left. destruct u; [exists r; exact E | discriminate].
  - rewrite IH. split.
    + intros [[r E]|(u & r & E)]; [exists [], r; exact E|].
      exists (y :: u), r. rewrite E. reflexivity.
    + intros (u & r & E). destruct u as [|x u].
      * left. exists r. exact E.
      * right. injection E as -> ->. exists u, r. reflexivity.
Qed.

Lemma find_none {A} `{EqDecision A} (sub l : list A) :
  find sub l = None <-> contains sub l = false.
Proof.
  induction l as [|y l IH]; cbn [find contains].
  - destruct (starts_with sub []); cbn; split; congruence.
  - destruct (starts_with sub (y :: l)); cbn [orb].
    + split; discriminate.
    + rewrite <- IH. destruct (find sub l); cbn; split; congruence.
Qed.

Lemma rfind_none {A} `{EqDecision A} (sub l : list A) :
  rfind sub l = None <-> contains sub l = false.
Proof.
  induction l as [|y l IH]; cbn [rfind contains].
  - destruct (starts_with sub []); cbn; split; congruence.
  - destruct (rfind sub l) as [i|].
    + split; [discriminate|]. intros H. apply orb_false_iff in H.
      destruct H as [_ H]. apply IH in H. discriminate.
    + rewrite (proj1 IH eq_refl), orb_false_r.
      destruct (starts_with sub (y :: l)); split; congruence.
Qed.

(** No occurrence of [c :: t] overlaps the start of another one when [c]
    does not occur in [t]. *)
Lemma no_overlap {A} `{EqDecision A} (c : A) (t u rest r : list A) :
  c ∉ t -> u ++ (c :: t) ++ rest = (c :: t) ++ r ->
  u = [] \/ exists v, u = (c :: t) ++ v.
Proof.
  intros Hc E. destruct u as [|x u]; [now left|]. right.
  destruct (decide (length (c :: t) <= length (x :: u))%nat) as [Hle|Hgt].
  - exists (drop (length (c :: t)) (x :: u)).
    rewrite <- (take_drop (length (c :: t)) (x :: u)) at 1. f_equal.
    apply (f_equal (take (length (c :: t)))) in E.
    rewrite take_app_le in E by exact Hle.
    rewrite take_app_length in E. exact E.
  - exfalso. apply Hc.
    apply (f_equal (fun l => l !! length (x :: u))) in E. cbv beta in E.
    rewrite (lookup_app_r (x :: u)) in E by lia. rewrite Nat.sub_diag in E.
    cbn in E. cbn [length] in Hgt. rewrite (lookup_app_l t) in E by lia.
    symmetry in E. eapply list_elem_of_lookup_2. exact E.
Qed.

Lemma find_first {A} `{EqDecision A} (c : A) (t pre rest : list A) :
  c ∉ t -> contains (c :: t) pre = false ->
  find (c :: t) (pre ++ (c :: t) ++ rest) = Some (length pre).
Proof.
  intros Hc. induction pre as [|x pre IH]; intros Hpre.
  - cbn [app find length].
    rewrite (proj2 (starts_with_prefix (c :: t) (c :: t ++ rest))); [reflexivity|].
    exists rest. reflexivity.
  - cbn [contains] in Hpre. apply orb_false_iff in Hpre. destruct Hpre as [Hstart Hpre].
    change ((x :: pre) ++ (c :: t) ++ rest) with (x :: (pre ++ (c :: t) ++ rest)).
    cbn [find].
    destruct (starts_with (c :: t) (x :: pre ++ (c :: t) ++ rest)) eqn:Hs.
    + exfalso. apply starts_with_prefix in Hs. destruct Hs as [r E].
      destruct (no_overlap c t (x :: pre) rest r Hc E) as [Hnil|[v Hv]]; [discriminate|].
      rewrite (proj2 (starts_with_prefix (c :: t) (x :: pre))) in Hstart; [discriminate|].
      exists v. exact Hv.
    + rewrite (IH Hpre). reflexivity.
Qed.

Lemma rfind_last {A} `{EqDecision A} (c : A) (t u post : list A) :
  c ∉ t -> contains (c :: t) post = false ->
  rfind (c :: t) (u ++ (c :: t) ++ post) = Some (length u).
Proof.
  intros Hc Hpost. induction u as [|x u IH].
  - cbn [app rfind length].
    assert (Hnone : rfind (c :: t) (t ++ post) = None).
    { apply rfind_none. destruct (contains (c :: t) (t ++ post)) eqn:Hcon; [|reflexivity].
      exfalso. apply contains_occurrence in Hcon. destruct Hcon as (a & r & E).
      destruct (decide (length a < length t)%nat) as [Hlt|Hge].
      - apply Hc. apply (f_equal (fun l => l !! length a)) in E. cbv beta in E.
        rewrite (lookup_app_l t) in E by exact Hlt.
        rewrite (lookup_app_r a) in E by lia. rewrite Nat.sub_diag in E. cbn in E.
        eapply list_elem_of_lookup_2. exact E.
      - assert (Hpost' : contains (c :: t) post = true); [|congruence].
        apply contains_occurrence. exists (drop (length t) a), r.
        apply (f_equal (drop (length t))) in E.
        rewrite drop_app_length in E. rewrite E.
        rewrite drop_app_le by lia. reflexivity. }
    rewrite Hnone.
    rewrite (proj2 (starts_with_prefix (c :: t) (c :: t ++ post))); [reflexivity|].
    exists post. reflexivity.
  - change ((x :: u) ++ (c :: t) ++ post) with (x :: (u ++ (c :: t) ++ post)).
    cbn [rfind]. rewrite IH. reflexivity.
Qed.

Lemma find_from_skip {A} `{EqDecision A} (sub skipped rest : list A) (i : nat) :
  find sub rest = Some i ->
  find_from sub (skipped ++ rest) (length skipped) = Some (length skipped + i)%nat.
Proof.
  intros H. unfold find_from. rewrite length_app.
  destruct (Nat.leb_spec (length skipped) (length skipped + length rest)); [|lia].
  rewrite drop_app_length, H. reflexivity.
Qed.

(** X20.  [extract_body_content] returns a piece of its argument: the
    result occurs in the argument as a contiguous substring.  A text with no
    "<body" and no "<BODY" in it is returned unchanged. *)
Theorem extract_body_content_is_substring (html : string) :
  (exists pre post, html = pre +:+ extract_body_content html +:+ post) /\
  (string_contains "<body" html = false -> string_contains "<BODY" html = false ->
   extract_body_content html = html).
Proof.
  assert (Hself : exists pre post, html = pre +:+ html +:+ post).
  { exists EmptyString, EmptyString. apply chars_inj. rewrite !chars_app.
    cbn. now rewrite app_nil_r. }
  split.
  - unfold extract_body_content.
    destruct (match find _ _ with Some i => Some i | None => _ end) as [body_start|];
      [|exact Hself].
    destruct (find_from _ _ _) as [tag_end|]; [|exact Hself].
    destruct (match rfind _ _ with Some i => Some i | None => _ end) as [body_end|];
      [|exact Hself].
    destruct (body_end <=? tag_end + 1)%nat; [exact Hself|].
    set (h := String.list_ascii_of_string html).
    exists (String.string_of_list_ascii (take (tag_end + 1) h)),
           (String.string_of_list_ascii (drop (body_end - (tag_end + 1)) (drop (tag_end + 1) h))).
    rewrite <- !str_app, !take_drop. unfold h.
    now rewrite String.string_of_list_ascii_of_string.
  - unfold string_contains, extract_body_content. intros H1 H2.
    apply find_none in H1, H2. rewrite H1, H2. reflexivity.
Qed.

(** X21.  When the text before the opening tag holds no "<body", the tag
    itself holds no ">" before its end, and the text after the closing tag
    holds no "</body>", [extract_body_content] returns what stands between
    the tags; when nothing stands between them it returns the whole
    document. *)
Theorem extract_body_content_document (pre attrs content post : string) :
  string_contains "<body" pre = false ->
  string_contains ">" attrs = false ->
  string_contains "</body>" post = false ->
  extract_body_content
    (pre +:+ "<body" +:+ attrs +:+ ">" +:+ content +:+ "</body>" +:+ post) =
  if bool_decide (content = EmptyString)
  then pre +:+ "<body" +:+ attrs +:+ ">" +:+ content +:+ "</body>" +:+ post
  else content.
Proof.
  unfold string_contains. intros Hpre Hattrs Hpost.
  set (html := pre +:+ "<body" +:+ attrs +:+ ">" +:+ content +:+ "</body>" +:+ post).
  set (p := String.list_ascii_of_string pre) in *.
  set (a := String.list_ascii_of_string attrs) in *.
  set (c := String.list_ascii_of_string content).
  set (q := String.list_ascii_of_string post) in *.
  assert (Hh : String.list_ascii_of_string html =
               p ++ String.list_ascii_of_string "<body" ++
               (a ++ [">"%char] ++ c ++ String.list_ascii_of_string "</body>" ++ q)).
  { unfold html. rewrite !chars_app. reflexivity. }
  unfold extract_body_content. rewrite Hh.
  rewrite (find_first "<"%char (String.list_ascii_of_string "body") p _); cycle 1.
  { cbn. rewrite !elem_of_cons, elem_of_nil. intros [E|[E|[E|[E|[]]]]]; discriminate. }
  { exact Hpre. }
  (* the end of the opening tag *)
  assert (Htag : find_from [">"%char]
                   (p ++ String.list_ascii_of_string "<body" ++
                    (a ++ [">"%char] ++ c ++ String.list_ascii_of_string "</body>" ++ q))
                   (length p + 1) = Some (length p + 1 + (4 + length a))%nat).
  { change (String.list_ascii_of_string "<body") with
      (["<"%char] ++ String.list_ascii_of_string "body").
    rewrite <- (app_assoc ["<"%char]), (app_assoc p ["<"%char]).
    replace (length p + 1)%nat with (length (p ++ ["<"%char]))
      by (rewrite length_app; reflexivity).
    apply find_from_skip.
    rewrite (app_assoc (String.list_ascii_of_string "body") a).
    change ([">"%char] ++ c ++ String.list_ascii_of_string "</body>" ++ q)
      with ((">"%char :: []) ++ (c ++ String.list_ascii_of_string "</body>" ++ q)).
    rewrite (find_first ">"%char [] (String.list_ascii_of_string "body" ++ a) _).
    - rewrite length_app. reflexivity.
    - apply not_elem_of_nil.
    - destruct (contains [">"%char] (String.list_ascii_of_string "body" ++ a)) eqn:Hc;
        [|reflexivity].
      exfalso. apply contains_occurrence in Hc. destruct Hc as (u & r & E).
      assert (Ha : contains [">"%char] a = true); [|exact (eq_true_false_abs _ Ha Hattrs)].
      apply contains_occurrence.
      do 4 (destruct u as [|? u]; [discriminate E|]).
      injection E as _ _ _ _ E. exists u, r. exact E. }
  rewrite Htag.
  (* the closing tag *)
  assert (Hclose : rfind (String.list_ascii_of_string "</body>")
                     (p ++ String.list_ascii_of_string "<body" ++
                      (a ++ [">"%char] ++ c ++ String.list_ascii_of_string "</body>" ++ q)) =
                   Some (length p + 1 + (4 + length a) + 1 + length c)%nat).
  { replace (p ++ String.list_ascii_of_string "<body" ++
             (a ++ [">"%char] ++ c ++ String.list_ascii_of_string "</body>" ++ q))
      with ((p ++ String.list_ascii_of_string "<body" ++ a ++ [">"%char] ++ c) ++
            String.list_ascii_of_string "</body>" ++ q)
      by (rewrite <- !app_assoc; reflexivity).
    rewrite (rfind_last "<"%char (String.list_ascii_of_string "/body>")).
    - f_equal. rewrite !length_app. cbn [length String.list_ascii_of_string]. lia.
    - cbn. rewrite !elem_of_cons, elem_of_nil.
      intros [E|[E|[E|[E|[E|[E|[]]]]]]]; discriminate.
    - exact Hpost. }
  rewrite Hclose.
  destruct (Nat.leb_spec (length p + 1 + (4 + length a) + 1 + length c)
              (length p + 1 + (4 + length a) + 1)) as [Hle|Hgt].
  - assert (Hc : content = EmptyString).
    { destruct content; [reflexivity | cbn in c; cbn in Hle; lia]. }
    rewrite bool_decide_eq_true_2 by exact Hc. reflexivity.
  - rewrite bool_decide_eq_false_2 by (intros ->; cbn in Hgt; lia).
    replace (length p + 1 + (4 + length a) + 1 + length c -
             (length p + 1 + (4 + length a) + 1))%nat with (length c) by lia.
    replace (p ++ String.list_ascii_of_string "<body" ++
             (a ++ [">"%char] ++ c ++ String.list_ascii_of_string "</body>" ++ q))
      with ((p ++ String.list_ascii_of_string "<body" ++ a ++ [">"%char]) ++
            c ++ String.list_ascii_of_string "</body>" ++ q)
      by (rewrite <- !app_assoc; reflexivity).
    replace (length p + 1 + (4 + length a) + 1)%nat
      with (length (p ++ String.list_ascii_of_string "<body" ++ a ++ [">"%char]))
      by (rewrite !length_app; cbn [length String.list_ascii_of_string]; lia).
    rewrite drop_app_length, take_app_length. unfold c.
    apply String.string_of_list_ascii_of_string.
Qed.

Lemma extract_body_content_document_witness :
  extract_body_content
    ("<html><head></head>" +:+ "<body" +:+ " class=x" +:+ ">" +:+ "<p>word</p>" +:+
     "</body>" +:+ "</html>") =
  if bool_decide ("<p>word</p>" = EmptyString)
  then "<html><head></head>" +:+ "<body" +:+ " class=x" +:+ ">" +:+ "<p>word</p>" +:+
       "</body>" +:+ "</html>"
  else "<p>word</p>".
Proof.
  exact (extract_body_content_document "<html><head></head>" " class=x" "<p>word</p>"
           "</html>" eq_refl eq_refl eq_refl).
Defined.

End TextFacts.

(** ** The order of strings *)

Section StringOrder.

Lemma ascii_compare_refl (a : ascii) : Ascii.compare a a = Eq.
Proof. unfold Ascii.compare. apply N.compare_refl. Qed.

Lemma ascii_compare_lt_trans (a b c : ascii) :
  Ascii.compare a b = Lt -> Ascii.compare b c = Lt -> Ascii.compare a c = Lt.
Proof.
  unfold Ascii.compare. rewrite !N.compare_lt_iff. apply N.lt_trans.
Qed.

Lemma string_compare_refl (s : string) : String.compare s s = Eq.
Proof.
  induction s as [|c s IH]; cbn; [reflexivity|]. now rewrite ascii_compare_refl.
Qed.

Lemma string_compare_eq (a b : string) : String.compare a b = Eq <-> a = b.
Proof.
  split; [apply String.compare_eq_iff | intros ->; apply string_compare_refl].
Qed.

Lemma string_compare_lt_trans (a b c : string) :
  String.compare a b = Lt -> String.compare b c = Lt -> String.compare a c = Lt.
Proof.
  revert b c. induction a as [|x a IH]; intros [|y b] [|z c]; cbn; try congruence.
  destruct (Ascii.compare x y) eqn:Hxy; try discriminate;
    destruct (Ascii.compare y z) eqn:Hyz; try discriminate.
  - apply Ascii.compare_eq_iff in Hxy, Hyz. subst. rewrite ascii_compare_refl. apply IH.
  - apply Ascii.compare_eq_iff in Hxy. subst. rewrite Hyz. reflexivity.
  - apply Ascii.compare_eq_iff in Hyz. subst. rewrite Hxy. reflexivity.
  - rewrite (ascii_compare_lt_trans x y z Hxy Hyz). reflexivity.
Qed.

Lemma string_compare_gt (a b : string) :
  String.compare a b = Gt <-> String.compare b a = Lt.
Proof.
  rewrite (String.compare_antisym a b). destruct (String.compare b a); cbn; split; congruence.
Qed.

Lemma ltb_lt (a b : string) : String.ltb a b = true <-> String.compare a b = Lt.
Proof. unfold String.ltb. destruct (String.compare a b); split; congruence. Qed.

Lemma ltb_irrefl (a : string) : String.ltb a a = false.
Proof. unfold String.ltb. now rewrite string_compare_refl. Qed.

Lemma ltb_trans (a b c : string) :
  String.ltb a b = true -> String.ltb b c = true -> String.ltb a c = true.
Proof. rewrite !ltb_lt. apply string_compare_lt_trans. Qed.

(** [a <= b] is [ltb b a = false]. *)
Lemma leb_cases (a b : string) :
  String.ltb b a = false <-> String.ltb a b = true \/ a = b.
Proof.
  rewrite ltb_lt. unfold String.ltb.
  destruct (String.compare b a) eqn:E.
  - apply string_compare_eq in E. subst. split; [now right | reflexivity].
  - split; [discriminate|]. intros [H| ->].
    + pose proof (string_compare_lt_trans _ _ _ E H) as H'.
      rewrite string_compare_refl in H'. discriminate.
    + rewrite string_compare_refl in E. discriminate.
  - apply string_compare_gt in E. split; [now left | reflexivity].
Qed.

Lemma ltb_leb_trans (a b c : string) :
  String.ltb a b = true -> String.ltb c b = false -> String.ltb a c = true.
Proof.
  intros Hab Hbc. apply leb_cases in Hbc. destruct Hbc as [Hbc| ->]; [|exact Hab].
  exact (ltb_trans _ _ _ Hab Hbc).
Qed.

Lemma leb_ltb_trans (a b c : string) :
  String.ltb b a = false -> String.ltb b c = true -> String.ltb a c = true.
Proof.
  intros Hab Hbc. apply leb_cases in Hab. destruct Hab as [Hab| ->]; [|exact Hbc].
  exact (ltb_trans _ _ _ Hab Hbc).
Qed.

Lemma leb_trans (a b c : string) :
  String.ltb b a = false -> String.ltb c b = false -> String.ltb c a = false.
Proof.
  intros Hab Hbc. destruct (String.ltb c a) eqn:E; [|reflexivity].
  pose proof (ltb_leb_trans _ _ _ E Hab) as H. congruence.
Qed.

Lemma prefix_cons (a b : ascii) (p k : string) :
  String.prefix (String a p) (String b k) = bool_decide (a = b) && String.prefix p k.
Proof.
  cbn [String.prefix]. destruct (ascii_dec a b) as [->|Hne].
  - now rewrite bool_decide_eq_true_2.
  - now rewrite bool_decide_eq_false_2.
Qed.

Lemma prefix_nil (k : string) : String.prefix EmptyString k = true.
Proof. destruct k; reflexivity. Qed.

(** A string is not below its prefixes. *)
Lemma prefix_not_below (p k : string) :
  String.prefix p k = true -> String.ltb k p = false.
Proof.
  revert k. induction p as [|a p IH]; intros [|b k] H.
  - reflexivity.
  - reflexivity.
  - discriminate.
  - rewrite prefix_cons in H. apply andb_true_iff in H. destruct H as [Hab H].
    apply bool_decide_eq_true in Hab. subst b. specialize (IH k H).
    unfold String.ltb in *. cbn [String.compare]. rewrite ascii_compare_refl. exact IH.
Qed.

(** Past a string that is above [p] without starting with [p], no string
    starts with [p]. *)
Lemma prefix_passed (p k k' : string) :
  String.ltb p k = true -> String.prefix p k = false -> String.ltb k' k = false ->
  String.prefix p k' = false.
Proof.
  revert k k'. induction p as [|a p IH]; intros k k' Hlt Hpre Hle.
  - rewrite prefix_nil in Hpre. discriminate.
  - destruct k as [|b k]; [discriminate|].
    destruct k' as [|b' k']; [reflexivity|].
    rewrite prefix_cons in Hpre |- *.
    unfold String.ltb in Hlt, Hle. cbn [String.compare] in Hlt, Hle.
    destruct (bool_decide (a = b')) eqn:Hab'; [|reflexivity]. cbn [andb].
    apply bool_decide_eq_true in Hab'. subst b'.
    destruct (Ascii.compare a b) eqn:Hab.
    + apply Ascii.compare_eq_iff in Hab. subst b.
      rewrite bool_decide_eq_true_2 in Hpre by reflexivity. cbn [andb] in Hpre.
      apply (IH k k'); [| exact Hpre |]; unfold String.ltb; [exact Hlt | exact Hle].
    + discriminate.
    + discriminate.
Qed.

End StringOrder.

(** ** Binary search by [std::lower_bound] *)

Section LowerBound.

Context {A : Type}.

Lemma lower_bound_loop_partition (comp : A -> bool) (l1 l2 : list A) :
  Forall (fun x => comp x = true) l1 -> Forall (fun x => comp x = false) l2 ->
  forall (fuel first count : nat),
    (count < fuel)%nat -> (first <= length l1 <= first + count)%nat ->
    (first + count <= length (l1 ++ l2))%nat ->
    lower_bound_loop fuel comp (l1 ++ l2) first count = length l1.
Proof.
  intros H1 H2. induction fuel as [|fuel IH]; intros first count Hfuel Hin Hlen; [lia|].
  cbn [lower_bound_loop].
  destruct (Nat.eqb_spec count 0) as [->|Hc]; [lia|].
  assert (Hstep : (count / 2 < count)%nat) by (apply Nat.div_lt; lia).
  destruct (lookup_lt_is_Some_2 (l1 ++ l2) (first + count / 2)) as [x Hx]; [lia|].
  rewrite Hx. destruct (comp x) eqn:Hcx.
  - assert (first + count / 2 < length l1)%nat.
    { destruct (decide (first + count / 2 < length l1)%nat) as [|Hge]; [assumption|].
      rewrite lookup_app_r in Hx by lia.
      rewrite Forall_lookup in H2. specialize (H2 _ _ Hx). cbn in H2. congruence. }
    apply IH; lia.
  - assert (length l1 <= first + count / 2)%nat.
    { destruct (decide (length l1 <= first + count / 2)%nat) as [|Hlt]; [assumption|].
      rewrite lookup_app_l in Hx by lia.
      rewrite Forall_lookup in H1. specialize (H1 _ _ Hx). cbn in H1. congruence. }
    apply IH; lia.
Qed.

Lemma lower_bound_partition (comp : A -> bool) (l1 l2 : list A) :
  Forall (fun x => comp x = true) l1 -> Forall (fun x => comp x = false) l2 ->
  lower_bound comp (l1 ++ l2) = length l1.
Proof.
  intros H1 H2. unfold lower_bound.
  apply lower_bound_loop_partition; try assumption; rewrite ?length_app; lia.
Qed.

(** A list sorted by [R] is its elements below the bound followed by the
    others, when [comp] is downward closed. *)
Lemma sorted_partition (R : A -> A -> Prop) (comp : A -> bool) (l : list A) :
  StronglySorted R l ->
  (forall x y, R x y -> comp x = false -> comp y = false) ->
  exists l1 l2, l = l1 ++ l2 /\
    Forall (fun x => comp x = true) l1 /\ Forall (fun x => comp x = false) l2.
Proof.
  intros Hs Hclosed. induction Hs as [|x l Hs IH Hx].
  - exists [], []. repeat split; constructor.
  - destruct (comp x) eqn:Hcx.
    + destruct IH as (l1 & l2 & -> & H1 & H2).
      exists (x :: l1), l2. repeat split; [constructor; assumption | assumption].
    + exists [], (x :: l). repeat split; [constructor|].
      constructor; [exact Hcx|]. eapply Forall_impl; [exact Hx|].
      intros y Hxy. exact (Hclosed x y Hxy Hcx).
Qed.

End LowerBound.

(** ** The number of entries of a key, and the suggestions for a prefix *)

Section KeySearchFacts.

Lemma sorted_app_r {A} (R : A -> A -> Prop) (l1 l2 : list A) :
  StronglySorted R (l1 ++ l2) -> StronglySorted R l2.
Proof.
  induction l1 as [|x l1 IH]; [trivial|]. intros H.
  apply StronglySorted_inv in H. apply IH. exact (proj1 H).
Qed.

Lemma count_adjacent_sorted (key : string) (keys : list key_list_item) :
  keys_sorted keys ->
  Forall (fun item => String.ltb (key_word item) key = false) keys ->
  forall count, 0 <= count -> count + Z.of_nat (length keys) < 2 ^ 31 ->
    count_adjacent key keys count =
    Ok (count + Z.of_nat (length (filter (fun item => key_word item = key) keys))).
Proof.
  intros Hs. induction Hs as [|item rest Hs IH Hitem]; intros Hge count Hc Hlen.
  - cbn. f_equal. lia.
  - apply Forall_cons in Hge. destruct Hge as [Hge_item Hge].
    cbn [count_adjacent]. rewrite filter_cons.
    case_bool_decide as Hk.
    + destruct (decide (key_word item = key)) as [_|]; [|contradiction].
      cbn [length] in *. destruct (Z.leb_spec (2 ^ 31 - 1) count); [lia|].
      rewrite IH by (try assumption; lia). f_equal. lia.
    + destruct (decide (key_word item = key)) as [|_]; [contradiction|].
      rewrite filter_none; [cbn; f_equal; lia|].
      intros item' Hin Heq. rewrite Forall_forall in Hitem.
      specialize (Hitem item' Hin). cbn beta in Hitem.
      rewrite Heq in Hitem. apply leb_cases in Hge_item.
      destruct Hge_item as [Hlt|Heq']; [|congruence].
      pose proof (ltb_leb_trans _ _ _ Hlt Hitem) as H. rewrite ltb_irrefl in H. discriminate.
Qed.

(** X22.  [get_match_count] returns 0 for a key that is not in the key
    list.  On a key list in the order of [operator<] it returns the number
    of entries whose key is the given one. *)
Theorem get_match_count_counts (m : Mdict) (key : string) :
  (Forall (fun item => key_word item <> key) (key_list (ki m)) ->
   get_match_count m key = Ok 0) /\
  (keys_sorted (key_list (ki m)) ->
   Z.of_nat (length (key_list (ki m))) < 2 ^ 31 ->
   get_match_count m key =
   Ok (Z.of_nat (length (filter (fun item => key_word item = key) (key_list (ki m)))))).
Proof.
  split.
  - intros Hnone. unfold get_match_count.
    destruct (key_list (ki m) !! lower_bound _ _) as [item|] eqn:Hit; [|reflexivity].
    rewrite Forall_lookup in Hnone. specialize (Hnone _ _ Hit).
    rewrite bool_decide_eq_false_2 by exact Hnone. reflexivity.
  - intros Hsorted Hlen. unfold get_match_count.
    destruct (sorted_partition _ (fun item => String.ltb (key_word item) key)
                _ Hsorted) as (l1 & l2 & E & H1 & H2).
    { intros x y Hxy Hx. cbn beta in *. exact (leb_trans _ _ _ Hx Hxy). }
    rewrite E in *. rewrite (lower_bound_partition _ l1 l2 H1 H2).
    rewrite drop_app_length, filter_app.
    rewrite (filter_none _ l1); cycle 1.
    { intros item Hin Heq. rewrite Forall_forall in H1.
      specialize (H1 item Hin). cbn beta in H1.
      rewrite Heq, ltb_irrefl in H1. discriminate. }
    cbn [app]. rewrite length_app in Hlen.
    pose proof (count_adjacent_sorted key l2 (sorted_app_r _ _ _ Hsorted) H2 0
                  ltac:(lia) ltac:(lia)) as Hrun.
    rewrite Z.add_0_l in Hrun.
    rewrite lookup_app_r by lia. rewrite Nat.sub_diag.
    destruct l2 as [|item l2]; [reflexivity|].
    change ((item :: l2) !! 0%nat) with (Some item). cbv iota beta.
    case_bool_decide as Hk; cbn [negb]; [exact Hrun|].
    rewrite <- Hrun. cbn [count_adjacent]. rewrite bool_decide_eq_false_2 by exact Hk.
    reflexivity.
Qed.

(** *** [suggest] *)

Lemma suggest_scan_sound (word : string) (keys : list key_list_item) :
  forall suggestions,
    exists added,
      suggest_scan (lowercase word) keys suggestions = suggestions ++ added /\
      added `sublist_of` map key_word (filter (fun item => has_prefix word item = true) keys) /\
      ((length suggestions < 50)%nat -> (length (suggestions ++ added) <= 50)%nat).
Proof.
  induction keys as [|item rest IH]; intros suggestions.
  - exists []. rewrite app_nil_r. split; [reflexivity|]. split; [constructor | lia].
  - cbn [suggest_scan]. rewrite filter_cons.
    destruct (String.prefix (lowercase word) (lowercase (key_word item))) eqn:Hp.
    + destruct (decide (has_prefix word item = true)) as [_|Hn]; [|contradiction].
      destruct (Nat.leb_spec 50 (length (suggestions ++ [key_word item]))) as [Hfull|Hroom].
      * exists [key_word item]. split; [reflexivity|]. split.
        -- cbn [map]. apply sublist_skip. apply sublist_nil_l.
        -- rewrite length_app in *. cbn [length] in *. lia.
      * destruct (IH (suggestions ++ [key_word item])) as (added & E & Hsub & Hlen).
        exists (key_word item :: added). rewrite E, <- app_assoc. split; [reflexivity|].
        split; [cbn [map]; apply sublist_skip; exact Hsub|].
        intros _. rewrite <- app_assoc in Hlen. apply Hlen. exact Hroom.
    + destruct (decide (has_prefix word item = true)) as [Hy|_];
        [unfold has_prefix in Hy; congruence|].
      destruct (String.ltb (lowercase word) (lowercase (key_word item))).
      * exists []. rewrite app_nil_r. split; [reflexivity|].
        split; [apply sublist_nil_l | lia].
      * apply IH.
Qed.

(** X23.  [suggest] returns nothing for the empty word, never more than
    50 keys, and only keys of the list that start with the word (compared
    in lower case), in the order and number in which the list has them. *)
Theorem suggest_sound_and_bounded (m : Mdict) (word : string) :
  suggest m EmptyString = [] /\
  (length (suggest m word) <= 50)%nat /\
  suggest m word `sublist_of`
    map key_word (filter (fun item => has_prefix word item = true) (key_list (ki m))) /\
  (forall key, key ∈ suggest m word ->
     exists item, item ∈ key_list (ki m) /\ key_word item = key /\
       String.prefix (lowercase word) (lowercase key) = true).
Proof.
  assert (Hsub : (length (suggest m word) <= 50)%nat /\
                 suggest m word `sublist_of`
                   map key_word (filter (fun item => has_prefix word item = true) (key_list (ki m)))).
  { unfold suggest. case_bool_decide as Hw; [split; [cbn; lia | apply sublist_nil_l]|].
    set (it := lower_bound _ _).
    destruct (suggest_scan_sound word (drop it (key_list (ki m))) [])
      as (added & E & Hs & Hlen).
    rewrite E. cbn [app] in *. split; [apply Hlen; cbn; lia|].
    etrans; [exact Hs|].
    rewrite <- (take_drop it (key_list (ki m))) at 2.
    rewrite filter_app, map_app. apply sublist_inserts_l. reflexivity. }
  split; [reflexivity|]. split; [exact (proj1 Hsub)|]. split; [exact (proj2 Hsub)|].
  intros key Hkey. pose proof (elem_of_sublist _ _ _ Hkey (proj2 Hsub)) as Hin.
  apply list_elem_of_fmap in Hin. destruct Hin as (item & -> & Hitem).
  apply list_elem_of_filter in Hitem. destruct Hitem as [Hp Hitem].
  exists item. split; [exact Hitem|]. split; [reflexivity | exact Hp].
Qed.

Lemma suggest_scan_sorted (word : string) (keys : list key_list_item) :
  keys_sorted_lower keys ->
  forall suggestions, (length suggestions < 50)%nat ->
    suggest_scan (lowercase word) keys suggestions =
    take 50 (suggestions ++ map key_word (filter (fun item => has_prefix word item = true) keys)).
Proof.
  intros Hs. induction Hs as [|item rest Hs IH Hitem]; intros suggestions Hlen.
  - cbn. rewrite app_nil_r, take_ge by lia. reflexivity.
  - cbn [suggest_scan]. rewrite filter_cons.
    destruct (String.prefix (lowercase word) (lowercase (key_word item))) eqn:Hp.
    + destruct (decide (has_prefix word item = true)) as [_|Hn]; [|contradiction].
      cbn [map].
      replace (suggestions ++ key_word item :: map key_word (filter (fun item => has_prefix word item = true) rest))
        with ((suggestions ++ [key_word item]) ++
              map key_word (filter (fun item => has_prefix word item = true) rest))
        by (rewrite <- app_assoc; reflexivity).
      destruct (Nat.leb_spec 50 (length (suggestions ++ [key_word item]))) as [Hfull|Hroom].
      * rewrite take_app_le by exact Hfull. rewrite take_ge; [reflexivity|].
        rewrite length_app in *. cbn [length] in *. lia.
      * apply IH. exact Hroom.
    + destruct (decide (has_prefix word item = true)) as [Hy|_];
        [unfold has_prefix in Hy; congruence|].
      destruct (String.ltb (lowercase word) (lowercase (key_word item))) eqn:Hlt.
      * rewrite filter_none; [cbn; rewrite app_nil_r, take_ge by lia; reflexivity|].
        intros item' Hin Hp'. rewrite Forall_forall in Hitem.
        specialize (Hitem item' Hin). cbn beta in Hitem.
        unfold has_prefix in Hp'.
        rewrite (prefix_passed _ _ _ Hlt Hp Hitem) in Hp'. discriminate.
      * apply IH. exact Hlen.
Qed.

(** X24.  On a key list in the order of the lower-case keys, [suggest]
    returns the first 50 of the keys that start with the word: no such key
    is passed over. *)
Theorem suggest_complete_on_sorted (m : Mdict) (word : string) :
  keys_sorted_lower (key_list (ki m)) -> word <> EmptyString ->
  suggest m word =
  take 50 (map key_word (filter (fun item => has_prefix word item = true) (key_list (ki m)))).
Proof.
  intros Hsorted Hw. unfold suggest. rewrite bool_decide_eq_false_2 by exact Hw.
  destruct (sorted_partition _
              (fun item => String.ltb (lowercase (key_word item)) (lowercase word))
              _ Hsorted) as (l1 & l2 & E & H1 & H2).
  { intros x y Hxy Hx. cbn beta in *. exact (leb_trans _ _ _ Hx Hxy). }
  rewrite E in *. rewrite (lower_bound_partition _ l1 l2 H1 H2).
  rewrite drop_app_length, filter_app.
  rewrite (filter_none _ l1); cycle 1.
  { intros item Hin Hp. rewrite Forall_forall in H1.
    specialize (H1 item Hin). cbn beta in H1.
    rewrite (prefix_not_below _ _ Hp) in H1. discriminate. }
  cbn [app]. rewrite (suggest_scan_sorted word l2 (sorted_app_r _ _ _ Hsorted) [])
    by (cbn; lia).
  reflexivity.
Qed.

End KeySearchFacts.

(** ** The binary search over normalized keys *)

Section ItemsVector.

Variable wordlist : list key_list_item.
Variable word : string.

Hypothesis Hsize : Z.of_nat (length wordlist) < 2 ^ 63.

Lemma items_vector_loop_spec (fuel : nat) :
  forall (left right : Z),
    0 <= left -> -1 <= right < Z.of_nat (length wordlist) -> left <= right + 1 ->
    right - left + 2 <= Z.of_nat fuel ->
    exists res,
      reduce_key_info_block_items_vector_loop fuel wordlist word left (to_u64 right) = Ok res /\
      (res = -1 \/ key_at wordlist res word) /\
      ((forall i k, i < left -> key_at wordlist i k -> String.ltb k word = true) ->
       (forall i k, right < i -> key_at wordlist i k -> String.ltb word k = true) ->
       (forall i j ki kj, i <= j -> key_at wordlist i ki -> key_at wordlist j kj -> String.ltb kj ki = false) ->
       res = -1 -> forall i, ~ key_at wordlist i word).
Proof.
  assert (Hpow : 2 ^ 63 < 2 ^ 64) by (vm_compute; reflexivity).
  assert (Hpow' : 2 ^ 63 = 9223372036854775808) by reflexivity.
  induction fuel as [|fuel IH]; intros left right Hleft Hright Hlr Hfuel; [lia|].
  cbn [reduce_key_info_block_items_vector_loop].
  destruct (Z.eq_dec right (-1)) as [->|Hr].
  - (* the index has wrapped around *)
    assert (left = 0) by lia. subst left.
    change (to_u64 (-1)) with (2 ^ 64 - 1).
    destruct (Z.leb_spec 0 (2 ^ 64 - 1)); [|lia]. cbn [negb].
    change (0 + Z.shiftr (2 ^ 64 - 1 - 0) 1) with (2 ^ 63 - 1).
    destruct (Z.leb_spec (Z.of_nat (length wordlist)) (2 ^ 63 - 1)); [|lia].
    exists (-1). split; [reflexivity|]. split; [now left|].
    intros _ Hhigh _ _ i [Hi (item & Hitem & Hk)].
    assert (Hlt : String.ltb word word = true).
    { apply (Hhigh i); [lia|]. split; [exact Hi|]. exists item. split; assumption. }
    rewrite ltb_irrefl in Hlt. discriminate.
  - assert (Hu : forall z, 0 <= z < 2 ^ 64 -> to_u64 z = z)
      by (intros z Hz; unfold to_u64; apply Z.mod_small; exact Hz).
    rewrite (Hu right) by lia.
    destruct (Z.leb_spec left right) as [Hle|Hgt]; cbn [negb].
    + set (mid := left + Z.shiftr (right - left) 1).
      assert (Hmid : left <= mid <= right).
      { unfold mid. rewrite Z.shiftr_div_pow2 by lia. change (2 ^ 1) with 2.
        pose proof (Z.div_pos (right - left) 2 ltac:(lia) ltac:(lia)).
        pose proof (Z.div_le_upper_bound (right - left) 2 (right - left) ltac:(lia)
                      ltac:(lia)). lia. }
      destruct (Z.leb_spec (Z.of_nat (length wordlist)) mid); [lia|].
      destruct (lookup_lt_is_Some_2 wordlist (Z.to_nat mid)) as [item Hitem]; [lia|].
      rewrite Hitem.
      assert (Hkey : key_at wordlist mid (_s (key_word item))).
      { split; [lia|]. exists item. split; [exact Hitem | reflexivity]. }
      destruct (String.compare word (_s (key_word item))) eqn:Hcmp.
      * (* found *)
        apply String.compare_eq_iff in Hcmp.
        exists mid. split; [reflexivity|]. split.
        -- right. rewrite Hcmp. exact Hkey.
        -- intros _ _ _ Hres. lia.
      * (* the word is below the key: right = mid - 1 *)
        destruct (IH left (mid - 1)) as (res & Hrun & Hsound & Hcomplete); try lia.
        exists res. split; [exact Hrun|]. split; [exact Hsound|].
        intros Hlow Hhigh Hsorted Hres. apply Hcomplete; try assumption.
        intros i k Hi Hk.
        pose proof (Hsorted mid i _ _ ltac:(lia) Hkey Hk) as Hge.
        apply (ltb_leb_trans _ (_s (key_word item))); [|exact Hge].
        apply ltb_lt. exact Hcmp.
      * (* the word is above the key: left = mid + 1 *)
        apply string_compare_gt in Hcmp.
        rewrite (Hu (mid + 1)) by lia.
        destruct (IH (mid + 1) right) as (res & Hrun & Hsound & Hcomplete); try lia.
        rewrite (Hu right) in Hrun by lia.
        exists res. split; [exact Hrun|]. split; [exact Hsound|].
        intros Hlow Hhigh Hsorted Hres. apply Hcomplete; try assumption.
        intros i k Hi Hk.
        pose proof (Hsorted i mid _ _ ltac:(lia) Hk Hkey) as Hge.
        apply (leb_ltb_trans _ (_s (key_word item))); [exact Hge|].
        apply ltb_lt. exact Hcmp.
    + exists (-1). split; [reflexivity|]. split; [now left|].
      intros Hlow Hhigh _ _ i Hk.
      destruct (Z.lt_ge_cases i left) as [Hi|Hi].
      * pose proof (Hlow i word Hi Hk) as H. rewrite ltb_irrefl in H. discriminate.
      * pose proof (Hhigh i word ltac:(lia) Hk) as H. rewrite ltb_irrefl in H. discriminate.
Qed.

End ItemsVector.

Lemma sorted_lookup {A} (R : A -> A -> Prop) (l : list A) :
  StronglySorted R l -> (forall x, R x x) ->
  forall i j x y, (i <= j)%nat -> l !! i = Some x -> l !! j = Some y -> R x y.
Proof.
  intros Hs Hrefl. induction Hs as [|a l Hs IH Ha]; intros i j x y Hij Hx Hy.
  - discriminate.
  - destruct i as [|i], j as [|j]; cbn in Hx, Hy.
    + injection Hx as <-. injection Hy as <-. apply Hrefl.
    + injection Hx as <-. rewrite Forall_forall in Ha. apply Ha.
      eapply list_elem_of_lookup_2. exact Hy.
    + lia.
    + apply (IH i j); [lia | assumption | assumption].
Qed.

(** X25.  On a list of fewer than 2^63 items
    [reduce_key_info_block_items_vector] returns: either -1, or the index
    of an item whose normalized key is the normalized phrase.  On the empty
    list it returns -1.  When the list is in the order of the normalized
    keys, it returns -1 only if no item has that normalized key. *)
Theorem reduce_key_info_block_items_vector_spec
    (wordlist : list key_list_item) (phrase : string) :
  Z.of_nat (length wordlist) < 2 ^ 63 ->
  exists res,
    reduce_key_info_block_items_vector wordlist phrase = Ok res /\
    (res = -1 \/
     0 <= res /\ exists item, wordlist !! Z.to_nat res = Some item /\
                              _s (key_word item) = _s phrase) /\
    (wordlist = [] -> res = -1) /\
    (keys_sorted_normalized wordlist -> res = -1 ->
     Forall (fun item => _s (key_word item) <> _s phrase) wordlist).
Proof.
  intros Hsize. unfold reduce_key_info_block_items_vector.
  destruct (items_vector_loop_spec wordlist (_s phrase) Hsize (S (S (length wordlist)))
              0 (Z.of_nat (length wordlist) - 1)) as (res & Hrun & Hsound & Hcomplete);
    try lia.
  exists res. split; [exact Hrun|]. split; [exact Hsound|]. split.
  - intros ->. destruct Hsound as [H|[H0 (item & Hitem & _)]]; [exact H | discriminate].
  - intros Hsorted Hres. apply Forall_forall. intros item Hin Heq.
    apply list_elem_of_lookup in Hin. destruct Hin as [i Hi].
    apply (Hcomplete) with (i := Z.of_nat i); try assumption.
    + intros j k Hj [Hj0 _]. lia.
    + intros j k Hj [Hj0 (it & Hit & _)]. apply lookup_lt_Some in Hit. lia.
    + intros a b ka kb Hab [Ha (ia & Hia & <-)] [Hb (ib & Hib & <-)].
      apply (sorted_lookup _ _ Hsorted) with (i := Z.to_nat a) (j := Z.to_nat b);
        try assumption; [|lia].
      intros x. apply ltb_irrefl.
    + split; [lia|]. exists item. rewrite Nat2Z.id. split; assumption.
Qed.

(** ** More on the key normalizer *)

Section NormalizeMore.

Lemma all_ascii (P : ascii -> bool) :
  forallb (fun n => P (Ascii.ascii_of_nat n)) (seq 0 256) = true -> forall ch, P ch = true.
Proof.
  intros H ch. rewrite forallb_forall in H.
  specialize (H (Ascii.nat_of_ascii ch)). rewrite Ascii.ascii_nat_embedding in H.
  apply H. apply in_seq. pose proof (Ascii.nat_ascii_bounded ch). lia.
Qed.

Lemma lower_is_plain (ch : ascii) :
  in_punctuation_set ch = false ->
  is_upper (lower ch) = false /\ in_punctuation_set (lower ch) = false.
Proof.
  revert ch.
  assert (H : forall ch,
             (in_punctuation_set ch ||
              (negb (is_upper (lower ch)) && negb (in_punctuation_set (lower ch)))) = true).
  { apply all_ascii. vm_compute. reflexivity. }
  intros ch Hp. specialize (H ch). rewrite Hp in H. cbn [orb] in H.
  apply andb_true_iff in H. destruct H as [H1 H2].
  apply negb_true_iff in H1, H2. split; assumption.
Qed.

(** X1.  The normalizer works character by character: the normal form
    of a concatenation is the concatenation of the normal forms.  A normal
    form holds no upper-case ASCII letter and none of the skipped characters,
    and is never longer than the key. *)
Theorem normalizer_is_a_morphism :
  (forall a b : string, _s (a +:+ b) = _s a +:+ _s b) /\
  (forall s : string,
      Forall (fun ch => is_upper ch = false /\ in_punctuation_set ch = false)
             (String.list_ascii_of_string (_s s))) /\
  (forall s : string, (String.length (_s s) <= String.length s)%nat).
Proof.
  split; [|split].
  - intros a b. rewrite !_s_flat, chars_app, flat_map_app. apply str_app.
  - intros s. rewrite _s_flat, String.list_ascii_of_string_of_list_ascii.
    induction (String.list_ascii_of_string s) as [|ch l IH]; [constructor|].
    cbn [flat_map]. apply Forall_app. split; [|exact IH].
    rewrite step_s_spec. destruct (in_punctuation_set ch) eqn:Hp; [constructor|].
    constructor; [|constructor]. exact (lower_is_plain ch Hp).
  - intros s. rewrite <- !chars_length, _s_flat, String.list_ascii_of_string_of_list_ascii.
    induction (String.list_ascii_of_string s) as [|ch l IH]; [cbn; lia|].
    cbn [flat_map]. rewrite length_app, step_s_spec. cbn [length].
    destruct (in_punctuation_set ch); cbn [length]; lia.
Qed.

End NormalizeMore.

(** ** The descrambler loses no information *)

Section DescrambleMore.

Lemma lxor_cancel_r (a b c : Z) : Z.lxor a c = Z.lxor b c -> a = b.
Proof.
  intros H.
  assert (Hc : forall x, Z.lxor (Z.lxor x c) c = x)
    by (intros x; rewrite Z.lxor_assoc, Z.lxor_nilpotent, Z.lxor_0_r; reflexivity).
  rewrite <- (Hc a), H. apply Hc.
Qed.

Lemma rotl4_involutive (x : Z) : is_byte x -> rotl4 (rotl4 x) = x.
Proof.
  intros Hx.
  assert (H : forallb (fun n => rotl4 (rotl4 (Z.of_nat n)) =? Z.of_nat n) (seq 0 256) = true)
    by (vm_compute; reflexivity).
  rewrite forallb_forall in H. specialize (H (Z.to_nat x)).
  unfold is_byte in Hx. rewrite Z2Nat.id in H by lia. apply Z.eqb_eq. apply H.
  apply in_seq. lia.
Qed.

Lemma scrambled_inj (key : list Z) (i x x' previous : Z) :
  is_byte x -> is_byte x' ->
  scrambled key i x previous = scrambled key i x' previous -> x = x'.
Proof.
  intros Hx Hx' H. unfold scrambled in H.
  do 3 apply lxor_cancel_r in H.
  rewrite <- (rotl4_involutive x Hx), <- (rotl4_involutive x' Hx'). now rewrite H.
Qed.

Lemma fast_decrypt_inj (key d d' out : list Z) :
  length key = 16%nat -> Forall is_byte key ->
  Forall is_byte d -> Forall is_byte d' -> length d = length d' ->
  fast_decrypt d key (Z.of_nat (length d)) 16 = Ok out ->
  fast_decrypt d' key (Z.of_nat (length d')) 16 = Ok out ->
  d = d'.
Proof.
  intros Hk Hkb Hd Hd' Hlen Hrun Hrun'. unfold fast_decrypt in *.
  rewrite Nat2Z.id in Hrun, Hrun'.
  assert (H54 : is_byte 54) by (unfold is_byte; lia).
  destruct (fast_decrypt_loop_spec key Hk Hkb (length d) 0 54 d Hd H54 ltac:(lia))
    as (b & Hb & _ & _ & _ & Hcells).
  destruct (fast_decrypt_loop_spec key Hk Hkb (length d') 0 54 d' Hd' H54 ltac:(lia))
    as (b' & Hb' & _ & _ & _ & Hcells').
  change (Z.of_nat 0) with 0 in Hb, Hb'.
  rewrite Hb in Hrun. rewrite Hb' in Hrun'. injection Hrun as ->. injection Hrun' as ->.
  assert (Hnth : forall k, (k < length d)%nat -> forall j, (j <= k)%nat ->
            nth j d 0 = nth j d' 0).
  { induction k as [|k IH]; intros Hklt j Hj.
    - assert (j = 0%nat) by lia. subst j.
      pose proof (Hcells 0%nat ltac:(lia)) as H1.
      pose proof (Hcells' 0%nat ltac:(lia)) as H2.
      cbn [Nat.add] in H1, H2. rewrite H1 in H2. injection H2 as H2.
      apply (scrambled_inj key _ _ _ _) in H2; [exact H2| |].
      + rewrite Forall_forall in Hd. apply Hd. apply list_elem_of_In, nth_In. lia.
      + rewrite Forall_forall in Hd'. apply Hd'. apply list_elem_of_In, nth_In. lia.
    - destruct (decide (j = S k)) as [->|Hne]; [|apply IH; lia].
      pose proof (Hcells (S k) ltac:(lia)) as H1.
      pose proof (Hcells' (S k) ltac:(lia)) as H2.
      cbn [Nat.add] in H1, H2. rewrite H1 in H2. injection H2 as H2.
      rewrite <- (IH ltac:(lia) k ltac:(lia)) in H2.
      apply (scrambled_inj key _ _ _ _) in H2; [exact H2| |].
      + rewrite Forall_forall in Hd. apply Hd. apply list_elem_of_In, nth_In. lia.
      + rewrite Forall_forall in Hd'. apply Hd'. apply list_elem_of_In, nth_In. lia. }
  apply (nth_ext d d' 0 0 Hlen). intros n Hn. apply (Hnth n Hn n). lia.
Qed.

(** X2.  The descrambler loses no information: two scrambled blocks
    that descramble to the same bytes are the same block.  (The hash is any
    function that returns sixteen bytes.) *)
Theorem descrambler_is_injective (ripemd128bytes : list Z -> list Z)
    (payload payload' out : list Z) :
  (forall kb, length (ripemd128bytes kb) = 16%nat /\ Forall is_byte (ripemd128bytes kb)) ->
  Forall is_byte payload -> Forall is_byte payload' ->
  (8 <= length payload)%nat -> (8 <= length payload')%nat ->
  mdx_decrypt ripemd128bytes payload (Z.of_nat (length payload)) = Ok out ->
  mdx_decrypt ripemd128bytes payload' (Z.of_nat (length payload')) = Ok out ->
  payload = payload'.
Proof.
  intros Hhash Hp Hp' Hlen Hlen' Hrun Hrun'. unfold mdx_decrypt in *.
  rewrite (key_buffer_eq payload Hlen) in Hrun.
  rewrite (key_buffer_eq payload' Hlen') in Hrun'.
  cbn [mbind outcome_bind] in Hrun, Hrun'.
  destruct (fast_decrypt (drop 8 payload) _ _ _) as [tail| | | |] eqn:Ht; try discriminate.
  destruct (fast_decrypt (drop 8 payload') _ _ _) as [tail'| | | |] eqn:Ht'; try discriminate.
  cbn [mret outcome_ret] in Hrun, Hrun'. injection Hrun as Hout. injection Hrun' as Hout'.
  assert (Hhead : take 8 payload = take 8 payload' /\ tail = tail').
  { rewrite <- Hout' in Hout.
    apply app_inj_1 in Hout; [exact Hout|]. rewrite !length_take. lia. }
  destruct Hhead as [Hhead <-].
  assert (Hkey : take 4 (drop 4 payload) = take 4 (drop 4 payload')).
  { rewrite <- (take_drop 8 payload), <- (take_drop 8 payload'), Hhead.
    rewrite !drop_app_le by (rewrite length_take; lia).
    rewrite !take_app_le by (rewrite length_drop, length_take; lia). reflexivity. }
  rewrite <- Hkey in Ht'.
  destruct (Hhash (take 4 (drop 4 payload) ++ [149; 54; 0; 0])) as [Hk16 Hkb].
  assert (Hn : forall l : list Z, (8 <= length l)%nat ->
            Z.of_nat (length l) - 8 = Z.of_nat (length (drop 8 l))).
  { intros l Hl. rewrite length_drop. lia. }
  rewrite (Hn payload Hlen) in Ht. rewrite (Hn payload' Hlen') in Ht'.
  assert (Hlens : length (drop 8 payload) = length (drop 8 payload')).
  { destruct (fast_decrypt_loop_spec _ Hk16 Hkb (length (drop 8 payload)) 0 54
                (drop 8 payload)) as (b & Hb & Hl & _);
      [apply Forall_drop; exact Hp | unfold is_byte; lia | lia |].
    destruct (fast_decrypt_loop_spec _ Hk16 Hkb (length (drop 8 payload')) 0 54
                (drop 8 payload')) as (b' & Hb' & Hl' & _);
      [apply Forall_drop; exact Hp' | unfold is_byte; lia | lia |].
    unfold fast_decrypt in Ht, Ht'. rewrite Nat2Z.id in Ht, Ht'.
    change (Z.of_nat 0) with 0 in Hb, Hb'.
    rewrite Hb in Ht. rewrite Hb' in Ht'. injection Ht as <-. injection Ht' as E.
    rewrite <- Hl, <- Hl', E. reflexivity. }
  pose proof (fast_decrypt_inj _ _ _ _ Hk16 Hkb (Forall_drop _ 8 _ Hp)
                (Forall_drop _ 8 _ Hp') Hlens Ht Ht') as Htails.
  rewrite <- (take_drop 8 payload), <- (take_drop 8 payload'), Hhead, Htails. reflexivity.
Qed.

Lemma descrambler_is_injective_witness :
  mdx_decrypt (fun _ => [1; 2; 3; 4; 5; 6; 7; 8; 9; 10; 11; 12; 13; 14; 15; 16])
    [2; 0; 0; 0; 17; 34; 51; 68; 171; 205; 239] 11 =
    Ok [2; 0; 0; 0; 17; 34; 51; 68; 141; 116; 50] /\
  [2; 0; 0; 0; 17; 34; 51; 68; 171; 205; 239] = [2; 0; 0; 0; 17; 34; 51; 68; 171; 205; 239].
Proof.
  split; [vm_compute; reflexivity|].
  refine (descrambler_is_injective
            (fun _ => [1; 2; 3; 4; 5; 6; 7; 8; 9; 10; 11; 12; 13; 14; 15; 16])
            [2; 0; 0; 0; 17; 34; 51; 68; 171; 205; 239]
            [2; 0; 0; 0; 17; 34; 51; 68; 171; 205; 239]
            [2; 0; 0; 0; 17; 34; 51; 68; 141; 116; 50] _ _ _ _ _ _ _).
  - intros _. split; [reflexivity|]. repeat constructor; unfold is_byte; lia.
  - repeat constructor; unfold is_byte; lia.
  - repeat constructor; unfold is_byte; lia.
  - cbn; lia.
  - cbn; lia.
  - vm_compute. reflexivity.
  - vm_compute. reflexivity.
Defined.

End DescrambleMore.

(** ** The hexadecimal text of a resource *)

Section HexFacts.

Lemma hex_byte (b : Z) :
  is_byte b ->
  hex_value (hex_digit (Z.shiftr b 4)) * 16 + hex_value (hex_digit (Z.land b 15)) = b /\
  In (hex_digit (Z.shiftr b 4)) (String.list_ascii_of_string "0123456789ABCDEF") /\
  In (hex_digit (Z.land b 15)) (String.list_ascii_of_string "0123456789ABCDEF").
Proof.
  intros Hb.
  assert (H : forallb (fun n =>
                let b := Z.of_nat n in
                (hex_value (hex_digit (Z.shiftr b 4)) * 16
                 + hex_value (hex_digit (Z.land b 15)) =? b) &&
                existsb (Ascii.eqb (hex_digit (Z.shiftr b 4)))
                        (String.list_ascii_of_string "0123456789ABCDEF") &&
                existsb (Ascii.eqb (hex_digit (Z.land b 15)))
                        (String.list_ascii_of_string "0123456789ABCDEF"))
              (seq 0 256) = true) by (vm_compute; reflexivity).
  rewrite forallb_forall in H. specialize (H (Z.to_nat b)).
  unfold is_byte in Hb. cbv zeta in H. rewrite Z2Nat.id in H by lia.
  specialize (H ltac:(apply in_seq; lia)).
  apply andb_true_iff in H. destruct H as [H H3].
  apply andb_true_iff in H. destruct H as [H1 H2].
  apply Z.eqb_eq in H1. split; [exact H1|].
  split; [apply existsb_exists in H2 | apply existsb_exists in H3].
  - destruct H2 as (c & Hc & E). apply Ascii.eqb_eq in E. now subst.
  - destruct H3 as (c & Hc & E). apply Ascii.eqb_eq in E. now subst.
Qed.

(** X3.  The text that stands for the bytes of a resource has two
    characters per byte, all of them among 0-9 and A-F, and determines the
    bytes: reading the digits back gives the bytes again. *)
Theorem hex_of_bytes_round_trip (l : list Z) :
  Forall is_byte l ->
  unhex (hex_of_bytes l) = l /\
  String.length (hex_of_bytes l) = (2 * length l)%nat /\
  Forall (fun c => In c (String.list_ascii_of_string "0123456789ABCDEF"))
         (String.list_ascii_of_string (hex_of_bytes l)).
Proof.
  intros Hl. unfold unhex, hex_of_bytes.
  rewrite <- chars_length, String.list_ascii_of_string_of_list_ascii.
  induction Hl as [|b l Hb Hl (IH1 & IH2 & IH3)].
  - repeat split; constructor.
  - destruct (hex_byte b Hb) as (Hv & Hhi & Hlo).
    cbn [flat_map app unhex_chars length]. rewrite Hv, IH1.
    split; [reflexivity|]. split; [rewrite IH2; lia|].
    constructor; [exact Hhi|]. constructor; [exact Hlo | exact IH3].
Qed.

Lemma hex_of_bytes_round_trip_witness :
  Forall is_byte [0; 127; 255] /\
  unhex (hex_of_bytes [0; 127; 255]) = [0; 127; 255] /\
  String.length (hex_of_bytes [0; 127; 255]) = (2 * length [0; 127; 255])%nat /\
  Forall (fun c => In c (String.list_ascii_of_string "0123456789ABCDEF"))
         (String.list_ascii_of_string (hex_of_bytes [0; 127; 255])).
Proof.
  assert (H : Forall is_byte [0; 127; 255])
    by (repeat constructor; unfold is_byte; lia).
  split; [exact H|]. exact (hex_of_bytes_round_trip [0; 127; 255] H).
Defined.

End HexFacts.

(** ** From UTF-8 to wide characters *)

Section Utf8Facts.

Lemma lor_add (a b k : Z) :
  0 <= k -> 0 <= b < 2 ^ k -> Z.lor (a * 2 ^ k) b = a * 2 ^ k + b.
Proof.
  intros Hk Hb.
  assert (Hdisjoint : Z.land (a * 2 ^ k) b = 0).
  { apply Z.bits_inj'. intros n Hn.
    rewrite Z.land_spec, Z.bits_0.
    destruct (Z.lt_ge_cases n k) as [Hlt|Hge].
    - rewrite Z.mul_pow2_bits_low by lia. reflexivity.
    - destruct (Z.eq_dec b 0) as [->|Hb0]; [rewrite Z.bits_0; apply andb_false_r|].
      rewrite (Z.bits_above_log2 b n); [apply andb_false_r | lia |].
      assert (Z.log2 b < k) by (apply Z.log2_lt_pow2; lia). lia. }
  rewrite <- (Z.lxor_lor _ _ Hdisjoint). symmetry.
  apply Z.add_nocarry_lxor. exact Hdisjoint.
Qed.

(** The tests and masks of [utf8_to_wstring] on a byte. *)
Lemma utf8_byte_facts (c : Z) :
  0 <= c < 256 ->
  (192 <= c < 224 -> Z.land c 224 = 192 /\ Z.land c 31 = c - 192) /\
  (224 <= c < 240 -> Z.land c 224 <> 192 /\ Z.land c 240 = 224 /\ Z.land c 15 = c - 224) /\
  (240 <= c < 248 -> Z.land c 224 <> 192 /\ Z.land c 240 <> 224 /\ Z.land c 248 = 240 /\
                     Z.land c 7 = c - 240) /\
  (128 <= c < 192 -> Z.land c 63 = c - 128).
Proof.
  intros Hc.
  assert (H : forallb (fun n =>
                let c := Z.of_nat n in
                (negb ((192 <=? c) && (c <? 224)) ||
                 ((Z.land c 224 =? 192) && (Z.land c 31 =? c - 192))) &&
                (negb ((224 <=? c) && (c <? 240)) ||
                 (negb (Z.land c 224 =? 192) && (Z.land c 240 =? 224) &&
                  (Z.land c 15 =? c - 224))) &&
                (negb ((240 <=? c) && (c <? 248)) ||
                 (negb (Z.land c 224 =? 192) && negb (Z.land c 240 =? 224) &&
                  (Z.land c 248 =? 240) && (Z.land c 7 =? c - 240))) &&
                (negb ((128 <=? c) && (c <? 192)) || (Z.land c 63 =? c - 128)))
              (seq 0 256) = true) by (vm_compute; reflexivity).
  rewrite forallb_forall in H. specialize (H (Z.to_nat c)).
  cbv zeta in H. rewrite Z2Nat.id in H by lia.
  specialize (H ltac:(apply in_seq; lia)).
  apply andb_true_iff in H. destruct H as [H H4].
  apply andb_true_iff in H. destruct H as [H H3].
  apply andb_true_iff in H. destruct H as [H1 H2].
  assert (Hin : forall lo hi body,
             (negb ((lo <=? c) && (c <? hi)) || body) = true -> lo <= c < hi -> body = true).
  { intros lo hi body Hb Hr. apply orb_true_iff in Hb. destruct Hb as [Hb|Hb]; [|exact Hb].
    apply negb_true_iff, andb_false_iff in Hb.
    destruct Hb as [Hb|Hb]; [apply Z.leb_gt in Hb | apply Z.ltb_ge in Hb]; lia. }
  split; [|split; [|split]]; intros Hr.
  - apply (Hin _ _ _ H1) in Hr. apply andb_true_iff in Hr. destruct Hr as [Ha Hb].
    apply Z.eqb_eq in Ha, Hb. split; assumption.
  - apply (Hin _ _ _ H2) in Hr. apply andb_true_iff in Hr. destruct Hr as [Hr Hc'].
    apply andb_true_iff in Hr. destruct Hr as [Ha Hb].
    apply negb_true_iff, Z.eqb_neq in Ha. apply Z.eqb_eq in Hb, Hc'.
    repeat split; assumption.
  - apply (Hin _ _ _ H3) in Hr. apply andb_true_iff in Hr. destruct Hr as [Hr Hd].
    apply andb_true_iff in Hr. destruct Hr as [Hr Hc'].
    apply andb_true_iff in Hr. destruct Hr as [Ha Hb].
    apply negb_true_iff, Z.eqb_neq in Ha. apply negb_true_iff, Z.eqb_neq in Hb.
    apply Z.eqb_eq in Hc', Hd. repeat split; assumption.
  - apply (Hin _ _ _ H4) in Hr. apply Z.eqb_eq in Hr. exact Hr.
Qed.

Lemma div64_range (cp lo hi : Z) : lo * 64 <= cp < hi * 64 -> lo <= cp / 64 < hi.
Proof.
  intros H. split; [apply Z.div_le_lower_bound; lia | apply Z.div_lt_upper_bound; lia].
Qed.

Lemma utf8_decode_one (cp : Z) (rest : list Z) :
  0 <= cp < 2097152 ->
  utf8_to_wstring_bytes (utf8_encode cp ++ rest) = cp :: utf8_to_wstring_bytes rest.
Proof.
  intros Hcp. unfold utf8_encode.
  destruct (Z.ltb_spec cp 128) as [H1|H1].
  { cbn [app utf8_to_wstring_bytes]. destruct (Z.ltb_spec cp 128); [reflexivity | lia]. }
  pose proof (Z.mod_pos_bound cp 64 ltac:(lia)) as Hm0.
  pose proof (Z.div_mod cp 64 ltac:(lia)) as Hd0.
  assert (Hlo : Z.land (128 + cp mod 64) 63 = cp mod 64).
  { destruct (utf8_byte_facts (128 + cp mod 64) ltac:(lia)) as (_ & _ & _ & H).
    rewrite H by lia. lia. }
  destruct (Z.ltb_spec cp 2048) as [H2|H2].
  { (* two bytes *)
    pose proof (div64_range cp 2 32 ltac:(lia)) as Hq.
    destruct (utf8_byte_facts (192 + cp / 64) ltac:(lia)) as (Hf & _).
    destruct (Hf ltac:(lia)) as [Htag Hval].
    cbn [app utf8_to_wstring_bytes].
    destruct (Z.ltb_spec (192 + cp / 64) 128); [lia|].
    rewrite Htag, Z.eqb_refl, Hval, Hlo, Z.shiftl_mul_pow2 by lia.
    rewrite (lor_add _ _ 6) by (change (2 ^ 6) with 64; lia).
    f_equal. change (2 ^ 6) with 64. lia. }
  pose proof (Z.mod_pos_bound (cp / 64) 64 ltac:(lia)) as Hm1.
  pose proof (Z.div_mod (cp / 64) 64 ltac:(lia)) as Hd1.
  assert (Hdd : cp / 64 / 64 = cp / 4096) by (rewrite Z.div_div by lia; reflexivity).
  assert (Hmid : Z.land (128 + (cp / 64) mod 64) 63 = (cp / 64) mod 64).
  { destruct (utf8_byte_facts (128 + (cp / 64) mod 64) ltac:(lia)) as (_ & _ & _ & H).
    rewrite H by lia. lia. }
  destruct (Z.ltb_spec cp 65536) as [H3|H3].
  { (* three bytes *)
    assert (Hq : 0 <= cp / 4096 < 16)
      by (split; [apply Z.div_pos; lia | apply Z.div_lt_upper_bound; lia]).
    destruct (utf8_byte_facts (224 + cp / 4096) ltac:(lia)) as (_ & Hf & _).
    destruct (Hf ltac:(lia)) as (Hn1 & Htag & Hval).
    cbn [app utf8_to_wstring_bytes].
    destruct (Z.ltb_spec (224 + cp / 4096) 128); [lia|].
    rewrite (proj2 (Z.eqb_neq _ _) Hn1), Htag, Z.eqb_refl, Hval, Hmid, Hlo.
    rewrite !Z.shiftl_mul_pow2 by lia.
    rewrite (lor_add _ ((cp / 64) mod 64 * 2 ^ 6) 12)
      by (change (2 ^ 6) with 64; change (2 ^ 12) with 4096; lia).
    replace ((224 + cp / 4096 - 224) * 2 ^ 12 + (cp / 64) mod 64 * 2 ^ 6)
      with ((cp / 4096 * 64 + (cp / 64) mod 64) * 2 ^ 6)
      by (change (2 ^ 6) with 64; change (2 ^ 12) with 4096; lia).
    rewrite (lor_add _ _ 6) by (change (2 ^ 6) with 64; lia).
    f_equal. change (2 ^ 6) with 64. lia. }
  (* four bytes *)
  pose proof (Z.mod_pos_bound (cp / 4096) 64 ltac:(lia)) as Hm2.
  pose proof (Z.div_mod (cp / 4096) 64 ltac:(lia)) as Hd2.
  assert (Hddd : cp / 4096 / 64 = cp / 262144) by (rewrite Z.div_div by lia; reflexivity).
  assert (Hq : 0 <= cp / 262144 < 8)
    by (split; [apply Z.div_pos; lia | apply Z.div_lt_upper_bound; lia]).
  assert (Hhigh : Z.land (128 + (cp / 4096) mod 64) 63 = (cp / 4096) mod 64).
  { destruct (utf8_byte_facts (128 + (cp / 4096) mod 64) ltac:(lia)) as (_ & _ & _ & H).
    rewrite H by lia. lia. }
  destruct (utf8_byte_facts (240 + cp / 262144) ltac:(lia)) as (_ & _ & Hf & _).
  destruct (Hf ltac:(lia)) as (Hn1 & Hn2 & Htag & Hval).
  cbn [app utf8_to_wstring_bytes].
  destruct (Z.ltb_spec (240 + cp / 262144) 128); [lia|].
  rewrite (proj2 (Z.eqb_neq _ _) Hn1), (proj2 (Z.eqb_neq _ _) Hn2), Htag, Z.eqb_refl.
  rewrite Hval, Hhigh, Hmid, Hlo.
  rewrite !Z.shiftl_mul_pow2 by lia.
  rewrite (lor_add _ ((cp / 4096) mod 64 * 2 ^ 12) 18)
    by (change (2 ^ 12) with 4096; change (2 ^ 18) with 262144; lia).
  replace ((240 + cp / 262144 - 240) * 2 ^ 18 + (cp / 4096) mod 64 * 2 ^ 12)
    with ((cp / 262144 * 64 + (cp / 4096) mod 64) * 2 ^ 12)
    by (change (2 ^ 12) with 4096; change (2 ^ 18) with 262144; lia).
  rewrite (lor_add _ ((cp / 64) mod 64 * 2 ^ 6) 12)
    by (change (2 ^ 6) with 64; change (2 ^ 12) with 4096; lia).
  replace ((cp / 262144 * 64 + (cp / 4096) mod 64) * 2 ^ 12 + (cp / 64) mod 64 * 2 ^ 6)
    with (((cp / 262144 * 64 + (cp / 4096) mod 64) * 64 + (cp / 64) mod 64) * 2 ^ 6)
    by (change (2 ^ 6) with 64; change (2 ^ 12) with 4096; lia).
  rewrite (lor_add _ _ 6) by (change (2 ^ 6) with 64; lia).
  f_equal. change (2 ^ 6) with 64. lia.
Qed.

(** X4.  [utf8_to_wstring] decodes UTF-8: the encodings of scalar
    values below 2^21, one after the other, give back the values.  ASCII
    text is copied as it is, and the result never has more characters than
    the argument has bytes. *)
Theorem utf8_to_wstring_decodes_utf8 :
  (forall cps : list Z, Forall (fun cp => 0 <= cp < 2097152) cps ->
     utf8_to_wstring_bytes (flat_map utf8_encode cps) = cps) /\
  (forall bytes : list Z, Forall (fun c => c < 128) bytes ->
     utf8_to_wstring_bytes bytes = bytes) /\
  (forall bytes : list Z,
     (length (utf8_to_wstring_bytes bytes) <= length bytes)%nat).
Proof.
  split; [|split].
  - induction 1 as [|cp cps Hcp _ IH]; [reflexivity|].
    cbn [flat_map]. rewrite (utf8_decode_one cp _ Hcp), IH. reflexivity.
  - induction 1 as [|c l Hc _ IH]; [reflexivity|].
    cbn [utf8_to_wstring_bytes]. destruct (Z.ltb_spec c 128); [|lia]. now rewrite IH.
  - intros bytes. remember (length bytes) as n eqn:Hn.
    assert (Hle : (length bytes <= n)%nat) by lia. clear Hn.
    revert bytes Hle. induction n as [|n IH]; intros bytes Hle.
    + destruct bytes; [cbn; lia | cbn in Hle; lia].
    + destruct bytes as [|c rest]; [cbn; lia|].
      cbn [utf8_to_wstring_bytes]. cbn [length] in Hle.
      destruct (c <? 128).
      { cbn [length]. specialize (IH rest ltac:(lia)). lia. }
      destruct (Z.land c 224 =? 192).
      { destruct rest as [|c1 rest1]; [cbn; lia|]. cbn [length] in *.
        specialize (IH rest1 ltac:(lia)). lia. }
      destruct (Z.land c 240 =? 224).
      { destruct rest as [|c1 [|c2 rest2]]; [cbn; lia | cbn; lia |]. cbn [length] in *.
        specialize (IH rest2 ltac:(lia)). lia. }
      destruct (Z.land c 248 =? 240).
      { destruct rest as [|c1 [|c2 [|c3 rest3]]]; [cbn; lia | cbn; lia | cbn; lia |].
        cbn [length] in *. specialize (IH rest3 ltac:(lia)). lia. }
      specialize (IH rest ltac:(lia)). lia.
Qed.

End Utf8Facts.

(** ** The definitions found in a block, again *)

Section ReduceMore.

Lemma filter_split {A} (P Q : A -> Prop) `{forall x, Decision (P x)}
    `{forall x, Decision (Q x)} (l : list A) :
  (forall x, P x -> Q x) ->
  filter P l ++ filter (fun x => ~ P x /\ Q x) l ≡ₚ filter Q l.
Proof.
  intros HPQ. induction l as [|x l IH]; [reflexivity|].
  rewrite !filter_cons.
  destruct (decide (P x)) as [HP|HP].
  - destruct (decide (~ P x /\ Q x)) as [[Hn _]|_]; [contradiction|].
    destruct (decide (Q x)) as [_|Hn]; [|exfalso; apply Hn, HPQ, HP].
    cbn [app]. now rewrite IH.
  - destruct (decide (Q x)) as [HQ|HQ].
    + destruct (decide (~ P x /\ Q x)) as [_|Hn]; [|exfalso; apply Hn; split; assumption].
      rewrite <- Permutation_middle. now rewrite IH.
    + destruct (decide (~ P x /\ Q x)) as [[_ HQ']|_]; [contradiction|]. exact IH.
Qed.

(** X5.  [reduce_particial_keys_vector] returns the definitions of
    exactly the pairs whose normalized key is the normalized phrase, each
    pair once: first those whose key is the phrase itself, in the order of
    the block, then the others, in the order of the block. *)
Theorem reduce_particial_keys_vector_exact (vec : list (string * string)) (phrase : string) :
  reduce_particial_keys_vector vec phrase =
    map snd (filter (fun p => phrase = fst p) vec) ++
    map snd (filter (fun p => phrase <> fst p /\ _s phrase = _s (fst p)) vec) /\
  reduce_particial_keys_vector vec phrase ≡ₚ
    map snd (filter (fun p => _s phrase = _s (fst p)) vec) /\
  (length (reduce_particial_keys_vector vec phrase) <= length vec)%nat /\
  (reduce_particial_keys_vector vec phrase = [] <->
   Forall (fun p => _s phrase <> _s (fst p)) vec).
Proof.
  assert (Hperm : reduce_particial_keys_vector vec phrase ≡ₚ
                  map snd (filter (fun p => _s phrase = _s (fst p)) vec)).
  { rewrite reduce_particial_keys_vector_eq, <- map_app. apply Permutation_map.
    apply (filter_split (fun p => phrase = fst p) (fun p => _s phrase = _s (fst p))).
    intros p ->. reflexivity. }
  split; [apply reduce_particial_keys_vector_eq|]. split; [exact Hperm|]. split.
  - rewrite Hperm, length_map. apply length_filter.
  - split.
    + intros Hnil. rewrite Hnil in Hperm. symmetry in Hperm.
      apply Permutation_nil_r in Hperm. apply map_eq_nil in Hperm.
      apply Forall_forall. intros p Hp Hs.
      assert (Hin : p ∈ filter (fun p => _s phrase = _s (fst p)) vec)
        by (apply list_elem_of_filter; split; assumption).
      rewrite Hperm in Hin. apply elem_of_nil in Hin. exact Hin.
    + intros Hnone. apply Permutation_nil_r. symmetry. rewrite Hperm.
      rewrite filter_none; [reflexivity|].
      intros p Hp. rewrite Forall_forall in Hnone. exact (Hnone p Hp).
Qed.

End ReduceMore.

(** ** The block of an offset, again *)

Section BlockSearchMore.

(** X6.  On a directory of record blocks whose accumulators start at 0
    and add up the block sizes, [reduce_record_block_offset] returns the
    index of the block that holds the offset: the last block that starts at
    or before it.  On an empty directory the search reads outside the
    vector. *)
Theorem reduce_record_block_offset_finds_the_block (m : Mdict) (record_start : Z) :
  (record_header (ri m) = [] -> reduce_record_block_offset m record_start = Undefined) /\
  ((forall h, record_header (ri m) !! 0%nat = Some h ->
      decompressed_size_accumulator h = 0) ->
   (forall i h h',
      record_header (ri m) !! i = Some h -> record_header (ri m) !! S i = Some h' ->
      decompressed_size_accumulator h' =
      decompressed_size_accumulator h + decompressed_size h) ->
   (forall i h, record_header (ri m) !! i = Some h -> 0 <= decompressed_size h) ->
   Z.of_nat (length (record_header (ri m))) < 2 ^ 63 ->
   0 <= record_start -> record_header (ri m) <> [] ->
   exists (b : nat) (h : record_header_item),
     reduce_record_block_offset m record_start = Ok (Z.of_nat b) /\
     record_header (ri m) !! b = Some h /\
     decompressed_size_accumulator h <= record_start /\
     (forall h', record_header (ri m) !! S b = Some h' ->
        record_start < decompressed_size_accumulator h')).
Proof.
  split.
  - intros Hnil. unfold reduce_record_block_offset. rewrite Hnil.
    cbn [reduce_record_block_offset_loop length].
    change (to_u64 (Z.of_nat 0 - 1)) with (2 ^ 64 - 1).
    destruct (Z.leb_spec 0 (2 ^ 64 - 1)); [|lia]. cbn [negb].
    rewrite Hnil. reflexivity.
  - intros Hfirst Hnext Hsizes Hcount Hrs Hne.
    destruct (reduce_record_block_offset_spec m Hfirst Hnext Hsizes Hcount record_start
                Hrs Hne) as (b & Hrun & h & Hh & Hle & Hlt).
    exists b, h. repeat split; assumption.
Qed.

End BlockSearchMore.

(** ** The full-text search *)

Section FullTextFacts.

Context `{ext : Externals}.

Lemma search_entries_sound (wquery : list Z) (entries : list (string * string)) :
  forall suggestions,
    exists added,
      fst (search_entries wquery entries suggestions) = suggestions ++ added /\
      Forall (fun key => exists def, (key, def) ∈ entries /\
                contains wquery (map towlower (utf8_to_wstring def)) = true) added /\
      ((length suggestions < 50)%nat ->
       (length (suggestions ++ added) <= 50)%nat /\
       (snd (search_entries wquery entries suggestions) = false ->
        (length (suggestions ++ added) < 50)%nat)).
Proof.
  induction entries as [|entry rest IH]; intros suggestions.
  - exists []. rewrite app_nil_r. cbn. split; [reflexivity|]. split; [constructor|]. lia.
  - cbn [search_entries].
    destruct (contains wquery (map towlower (utf8_to_wstring (snd entry)))) eqn:Hc.
    + destruct (Nat.leb_spec 50 (length (suggestions ++ [fst entry]))) as [Hfull|Hroom].
      * exists [fst entry]. cbn [fst snd]. split; [reflexivity|]. split.
        -- constructor; [|constructor]. exists (snd entry). split; [|exact Hc].
           destruct entry. left.
        -- rewrite length_app in *. cbn [length] in *. intros Hl. split; [lia | discriminate].
      * destruct (IH (suggestions ++ [fst entry])) as (added & E & Hall & Hlen).
        exists (fst entry :: added). rewrite E, <- app_assoc. split; [reflexivity|]. split.
        -- constructor.
           ++ exists (snd entry). split; [destruct entry; left | exact Hc].
           ++ eapply Forall_impl; [exact Hall|]. intros key (def & Hin & Hd).
              exists def. split; [right; exact Hin | exact Hd].
        -- intros _. rewrite <- app_assoc in Hlen. apply Hlen. exact Hroom.
    + destruct (IH suggestions) as (added & E & Hall & Hlen).
      exists added. split; [exact E|]. split; [|exact Hlen].
      eapply Forall_impl; [exact Hall|]. intros key (def & Hin & Hd).
      exists def. split; [right; exact Hin | exact Hd].
Qed.

Lemma search_blocks_sound (m : Mdict) (wquery : list Z) (n : nat) :
  forall (rid : Z) (suggestions : list string),
    (length suggestions < 50)%nat ->
    (forall e, search_blocks m wquery n rid suggestions <> Throw e) /\
    (forall result, search_blocks m wquery n rid suggestions = Ok result ->
       exists added, result = suggestions ++ added /\
         (length result <= 50)%nat /\
         Forall (found_in_text m wquery) added).
Proof.
  induction n as [|n IH]; intros rid suggestions Hlen.
  - cbn. split; [discriminate|]. intros result [= <-]. exists [].
    rewrite app_nil_r. split; [reflexivity|]. split; [lia | constructor].
  - cbn [search_blocks].
    destruct (decode_record_block_by_rid m rid) as [entries|e| | |] eqn:Hdec.
    + destruct (search_entries_sound wquery entries suggestions)
        as (added & E & Hall & Hbound).
      destruct (search_entries wquery entries suggestions) as [suggestions' full] eqn:Hs.
      cbn [fst snd] in E, Hbound. subst suggestions'.
      destruct (Hbound Hlen) as [Hle Hroom].
      assert (Hfound : Forall (found_in_text m wquery) added).
      { eapply Forall_impl; [exact Hall|]. intros key (def & Hin & Hd).
        exists rid, entries, def. repeat split; assumption. }
      destruct full.
      * split; [discriminate|]. intros result [= <-]. exists added.
        split; [reflexivity|]. split; [exact Hle | exact Hfound].
      * destruct (IH (rid + 1) (suggestions ++ added) (Hroom eq_refl)) as [Hno Hok].
        split; [exact Hno|]. intros result Hres.
        destruct (Hok result Hres) as (added' & -> & Hle' & Hall').
        exists (added ++ added'). rewrite app_assoc. split; [reflexivity|].
        split; [exact Hle'|]. apply Forall_app. split; assumption.
    + apply IH. exact Hlen.
    + split; discriminate.
    + split; discriminate.
    + split; discriminate.
Qed.

Lemma fulltext_search_no_throw (m : Mdict) (query : string) (e : exn) :
  fulltext_search m query <> Throw e.
Proof.
  unfold fulltext_search.
  apply (search_blocks_sound m (map towlower (utf8_to_wstring query))
           (length (record_header (ri m))) 0 []). cbn. lia.
Qed.

(** X7.  [fulltext_search] throws no exception, whatever the blocks do.
    What it returns has at most 50 keys, and each of them is the key of an
    entry of a block that decodes, whose definition holds the query (both in
    lower case, as wide strings). *)
Theorem fulltext_search_sound_and_bounded (m : Mdict) (query : string) :
  (forall e, fulltext_search m query <> Throw e) /\
  (forall result, fulltext_search m query = Ok result ->
     (length result <= 50)%nat /\
     Forall (found_in_text m (map towlower (utf8_to_wstring query))) result).
Proof.
  unfold fulltext_search.
  destruct (search_blocks_sound m (map towlower (utf8_to_wstring query))
              (length (record_header (ri m))) 0 []) as [Hno Hok]; [cbn; lia|].
  split; [exact Hno|]. intros result Hres.
  destruct (Hok result Hres) as (added & -> & Hle & Hall). cbn [app] in *.
  split; assumption.
Qed.

End FullTextFacts.

(** ** What a successful [init] guarantees *)

Section InitInvariants.

Context `{ext : Externals}.

Lemma post_bind {A B} (o : outcome A) (f : A -> outcome B) (P : A -> Prop)
    (Q : B -> Prop) :
  post o P -> (forall a, P a -> post (f a) Q) -> post (o ≫= f) Q.
Proof.
  intros Ho Hf b Hb. destruct o as [a| | | |]; try discriminate.
  exact (Hf a (Ho a eq_refl) b Hb).
Qed.

Lemma post_bind_any {A B} (o : outcome A) (f : A -> outcome B) (Q : B -> Prop) :
  (forall a, post (f a) Q) -> post (o ≫= f) Q.
Proof.
  intros Hf. apply (post_bind o f (fun _ => True)); [intros a _; exact I|].
  intros a _. apply Hf.
Qed.

Lemma post_ok {A} (a : A) (Q : A -> Prop) : Q a -> post (Ok a) Q.
Proof. intros H b [= <-]. exact H. Qed.

Lemma post_throw {A} (e : exn) (Q : A -> Prop) : post (Throw e) Q.
Proof. intros b H. discriminate. Qed.

Lemma post_undefined {A} (Q : A -> Prop) : post (@Undefined A) Q.
Proof. intros b H. discriminate. Qed.

Lemma post_assert (c : bool) : post (assert c) (fun _ => NDEBUG = false -> c = true).
Proof.
  unfold assert. intros [] H Hn. rewrite Hn in H. destruct c; [reflexivity | discriminate].
Qed.

Lemma post_read_header (m : Mdict) :
  post (read_header m)
       (fun m' => same_file m m' /\ ki m' = ki m /\ ri m' = ri m).
Proof.
  unfold read_header. apply post_bind_any. intros header_bytes_size.
  destruct (utf16_to_utf8_header _); apply post_ok; repeat split.
Qed.

Lemma post_read_key_block_header (m : Mdict) :
  post (read_key_block_header m)
       (fun m' => same_file m m' /\ hdr m' = hdr m /\ ki m' = ki m /\ ri m' = ri m /\
                  encrypt (hdr m) <> ENCRYPT_RECORD_ENC).
Proof.
  unfold read_key_block_header. case_bool_decide as Henc; [apply post_throw|].
  apply post_bind_any. intros a1. apply post_bind_any. intros a2.
  apply post_bind_any. intros a3. apply post_bind_any. intros [a4 a5].
  apply post_bind_any. intros [a6 a7]. apply post_bind_any. intros a8.
  apply post_bind_any. intros a9. apply post_bind_any. intros a10.
  apply post_bind_any. intros a11. apply post_ok. repeat split. exact Henc.
Qed.

Lemma post_decode_key_block_info (m : Mdict) (buf : list Z) (len : Z) :
  post (decode_key_block_info m buf len)
       (fun m' => same_file m m' /\ hdr m' = hdr m /\ kh m' = kh m /\ ri m' = ri m /\
                  key_list (ki m') = key_list (ki m) /\ version_ge_2 m = true).
Proof.
  unfold decode_key_block_info. destruct (version_ge_2 m) eqn:Hv; [|apply post_throw].
  do 6 (apply post_bind_any; intros ?).
  unfold decode_key_block_info_payload.
  do 2 (apply post_bind_any; intros ?). apply post_ok. repeat split.
Qed.

Lemma post_decode_key_block (m : Mdict) (buf : list Z) :
  post (decode_key_block m buf)
       (fun m' => same_file m m' /\ hdr m' = hdr m /\ kh m' = kh m /\ ri m' = ri m /\
                  (NDEBUG = false ->
                   Z.of_nat (length (key_list (ki m'))) = entries_num (kh m'))).
Proof.
  unfold decode_key_block. apply post_bind_any. intros key_list.
  eapply post_bind; [apply post_assert|]. cbv beta. intros [] Hassert.
  apply post_ok. repeat split. intros Hn. cbn. apply Z.eqb_eq. exact (Hassert Hn).
Qed.

Lemma post_read_key_block_info (m : Mdict) :
  post (read_key_block_info m)
       (fun m' => same_file m m' /\ hdr m' = hdr m /\ kh m' = kh m /\ ri m' = ri m /\
                  version_ge_2 m = true /\
                  (NDEBUG = false ->
                   Z.of_nat (length (key_list (ki m'))) = entries_num (kh m'))).
Proof.
  unfold read_key_block_info.
  eapply post_bind; [apply post_decode_key_block_info|]. cbv beta.
  intros m1 ((Hn1 & Ht1 & Hp1) & Hh1 & Hk1 & Hr1 & _ & Hv).
  apply post_bind_any. intros [].
  intros m2 Hm2.
  destruct (post_decode_key_block _ _ m2 Hm2)
    as ((Hn2 & Ht2 & Hp2) & Hh2 & Hk2 & Hr2 & Hcount).
  cbn in *. repeat split; try congruence. exact Hcount.
Qed.

Lemma post_read_record_block_header (m : Mdict) :
  post (read_record_block_header m)
       (fun m' => same_file m m' /\ hdr m' = hdr m /\ kh m' = kh m /\ ki m' = ki m /\
                  (NDEBUG = false ->
                   record_block_entries_number (ri m') = entries_num (kh m') /\
                   Z.of_nat (length (record_header (ri m'))) = record_block_number (ri m'))).
Proof.
  unfold read_record_block_header.
  apply post_bind_any. intros [[[a b] c] d].
  eapply post_bind; [apply post_assert|]. cbv beta. intros [] Hentries.
  apply post_bind_any. intros [record_header size_counter].
  eapply post_bind; [apply post_assert|]. cbv beta. intros [] Hcount.
  apply post_bind_any. intros []. apply post_ok.
  split; [repeat split|]. split; [reflexivity|]. split; [reflexivity|].
  split; [reflexivity|]. intros Hnd. split.
  - cbn. apply Z.eqb_eq. exact (Hentries Hnd).
  - cbn. apply Z.eqb_eq. exact (Hcount Hnd).
Qed.

(** X8.  When [init] returns, the dictionary it leaves was read from an
    open file, has the file name, type and stream it had before, is of
    version 2.0 or later and is not record-encrypted.  In a build with
    assertions the key list has as many keys as the key header announced,
    the record header announces the same number of entries, and the directory
    has as many record blocks as announced. *)
Theorem init_success_invariants (m m' : Mdict) :
  init m = Ok m' ->
  (exists bytes, file_ptr m = Opened bytes) /\
  filename m' = filename m /\ filetype m' = filetype m /\ file_ptr m' = file_ptr m /\
  version_ge_2 m' = true /\
  encrypt (hdr m') <> ENCRYPT_RECORD_ENC /\
  (NDEBUG = false ->
   Z.of_nat (length (key_list (ki m'))) = entries_num (kh m') /\
   record_block_entries_number (ri m') = entries_num (kh m') /\
   Z.of_nat (length (record_header (ri m'))) = record_block_number (ri m')).
Proof.
  unfold init. destruct (file_ptr m) as [| |bytes] eqn:Hfile; try discriminate.
  revert m'.
  change (post (m1 ← read_header m; m2 ← read_key_block_header m1;
                m3 ← read_key_block_info m2; read_record_block_header m3)
            (fun m' =>
               (exists bytes0, Opened bytes = Opened bytes0) /\
               filename m' = filename m /\ filetype m' = filetype m /\
               file_ptr m' = Opened bytes /\ version_ge_2 m' = true /\
               encrypt (hdr m') <> ENCRYPT_RECORD_ENC /\
               (NDEBUG = false ->
                Z.of_nat (length (key_list (ki m'))) = entries_num (kh m') /\
                record_block_entries_number (ri m') = entries_num (kh m') /\
                Z.of_nat (length (record_header (ri m'))) = record_block_number (ri m')))).
  eapply post_bind; [apply post_read_header|]. cbv beta.
  intros m1 ((Hn1 & Ht1 & Hp1) & _).
  eapply post_bind; [apply post_read_key_block_header|]. cbv beta.
  intros m2 ((Hn2 & Ht2 & Hp2) & Hh2 & _ & _ & Henc).
  eapply post_bind; [apply post_read_key_block_info|]. cbv beta.
  intros m3 ((Hn3 & Ht3 & Hp3) & Hh3 & Hk3 & _ & Hv & Hkeys).
  intros m' Hm'.
  destruct (post_read_record_block_header m3 m' Hm')
    as ((Hn4 & Ht4 & Hp4) & Hh4 & Hk4 & Hki4 & Hcounts).
  split; [exists bytes; reflexivity|].
  split; [congruence|]. split; [congruence|]. split; [congruence|].
  split; [unfold version_ge_2 in *; rewrite Hh4, Hh3; exact Hv|].
  split; [rewrite Hh4, Hh3, Hh2; exact Henc|].
  intros Hnd. destruct (Hcounts Hnd) as [Hc1 Hc2].
  split; [rewrite Hki4, Hk4; exact (Hkeys Hnd)|]. split; assumption.
Qed.

End InitInvariants.

(** ** The directories that [init] builds *)

Section DirectoryFacts.

Context `{ext : Externals}.

Lemma bind_ok {A B} (o : outcome A) (f : A -> outcome B) (b : B) :
  o ≫= f = Ok b -> exists a, o = Ok a /\ f a = Ok b.
Proof.
  destruct o as [a| | | |]; try discriminate. intros H. exists a. split; [reflexivity | exact H].
Qed.

Lemma record_header_loop_spec (m : Mdict) (buf : list Z) :
  version_ge_2 m = true ->
  forall (n : nat) (i size_counter ca da : Z) (acc l : list record_header_item) (sc' : Z),
    record_header_loop m buf n i size_counter ca da acc = Ok (l, sc') ->
    exists new, l = acc ++ new /\ length new = n /\ directory_from i ca da new.
Proof.
  intros Hv. induction n as [|n IH]; intros i sc ca da acc l sc' Hrun.
  - cbn in Hrun. injection Hrun as <- <-. exists []. rewrite app_nil_r.
    repeat split.
  - cbn [record_header_loop] in Hrun. rewrite Hv in Hrun.
    apply bind_ok in Hrun. destruct Hrun as (comp_size & _ & Hrun).
    apply bind_ok in Hrun. destruct Hrun as (uncomp_size & _ & Hrun).
    apply IH in Hrun. destruct Hrun as (new & -> & Hlen & Hdir).
    exists (mk_record_header_item i comp_size uncomp_size ca da :: new).
    rewrite <- app_assoc. split; [reflexivity|]. split; [cbn; lia|].
    cbn. repeat split. exact Hdir.
Qed.

Lemma directory_from_lookup (l : list record_header_item) :
  forall i ca da, directory_from i ca da l ->
    (forall h, l !! 0%nat = Some h ->
       compressed_size_accumulator h = ca /\ decompressed_size_accumulator h = da) /\
    (forall j h h', l !! j = Some h -> l !! S j = Some h' ->
       compressed_size_accumulator h' =
         to_u64 (compressed_size_accumulator h + compressed_size h) /\
       decompressed_size_accumulator h' =
         to_u64 (decompressed_size_accumulator h + decompressed_size h)) /\
    (forall j h, l !! j = Some h -> block_id h = i + Z.of_nat j).
Proof.
  induction l as [|x l IH]; intros i ca da Hdir.
  - repeat split; intros; discriminate.
  - destruct Hdir as (Hid & Hca & Hda & Hrest).
    destruct (IH _ _ _ Hrest) as (Hfirst & Hnext & Hids).
    split; [|split].
    + intros h [= <-]. split; assumption.
    + intros [|j] h h' Hh Hh'.
      * injection Hh as <-. cbn in Hh'. destruct (Hfirst h' Hh') as [-> ->].
        rewrite Hca, Hda. split; reflexivity.
      * exact (Hnext j h h' Hh Hh').
    + intros [|j] h Hh.
      * injection Hh as <-. rewrite Hid. lia.
      * rewrite (Hids j h Hh). lia.
Qed.

(** X9.  The directory of record blocks that [read_record_block_header]
    builds for a dictionary of version 2.0 or later: the blocks are numbered
    from 0, the accumulators of the first block are 0, and the accumulators
    of every other block are those of the block before it plus its sizes, in
    64-bit arithmetic.  The record blocks start right after the directory. *)
Theorem read_record_block_header_directory (m m' : Mdict) :
  read_record_block_header m = Ok m' ->
  version_ge_2 m = true ->
  record_header (ri m) = [] ->
  let directory := record_header (ri m') in
  length directory = Z.to_nat (record_block_number (ri m')) /\
  (forall h, directory !! 0%nat = Some h ->
     compressed_size_accumulator h = 0 /\ decompressed_size_accumulator h = 0) /\
  (forall j h h', directory !! j = Some h -> directory !! S j = Some h' ->
     compressed_size_accumulator h' =
       to_u64 (compressed_size_accumulator h + compressed_size h) /\
     decompressed_size_accumulator h' =
       to_u64 (decompressed_size_accumulator h + decompressed_size h)) /\
  (forall j h, directory !! j = Some h -> block_id h = Z.of_nat j) /\
  record_block_offset (ri m') =
    record_block_info_offset (ki m) + 32 + record_block_header_size (ri m').
Proof.
  intros Hrun Hv Hempty. unfold read_record_block_header in Hrun. rewrite Hv in Hrun.
  apply bind_ok in Hrun. destruct Hrun as ([[[a b] c] d] & _ & Hrun).
  apply bind_ok in Hrun. destruct Hrun as ([] & _ & Hrun).
  apply bind_ok in Hrun. destruct Hrun as ([directory size_counter] & Hloop & Hrun).
  apply bind_ok in Hrun. destruct Hrun as ([] & _ & Hrun).
  apply bind_ok in Hrun. destruct Hrun as ([] & _ & Hrun).
  injection Hrun as <-. cbn [ri set_ri record_header record_block_number
                              record_block_offset record_block_header_size].
  rewrite Hempty in Hloop.
  destruct (record_header_loop_spec m _ Hv _ _ _ _ _ _ _ _ Hloop) as (new & -> & Hlen & Hdir).
  cbn [app]. destruct (directory_from_lookup new 0 0 0 Hdir) as (Hfirst & Hnext & Hids).
  split; [exact Hlen|]. split; [exact Hfirst|]. split; [exact Hnext|].
  split; [|reflexivity]. intros j h Hh. rewrite (Hids j h Hh). lia.
Qed.

(** *** The key block descriptors *)

Lemma kbi_step_spec (m : Mdict) (buf : list Z) (bw tt : Z) (st st' : kbi_state) :
  kbi_step m buf bw tt st = Ok st' ->
  exists info,
    kbi_list st' = kbi_list st ++ [info] /\
    key_block_start_offset_ info = previous_start_offset st /\
    key_block_comp_accumulator info = comp_acc st /\
    key_block_decomp_accumulator info = decomp_acc st /\
    previous_start_offset st' = to_u64 (previous_start_offset st + key_block_comp_size info) /\
    comp_acc st' = to_u64 (comp_acc st + key_block_comp_size info) /\
    decomp_acc st' = to_u64 (decomp_acc st + key_block_decomp_size info).
Proof.
  unfold kbi_step. intros Hrun.
  apply bind_ok in Hrun. destruct Hrun as (current_entries & _ & Hrun).
  apply bind_ok in Hrun. destruct Hrun as (first_key_size & _ & Hrun).
  apply bind_ok in Hrun. destruct Hrun as (first_key & _ & Hrun).
  apply bind_ok in Hrun. destruct Hrun as (last_key_size & _ & Hrun).
  apply bind_ok in Hrun. destruct Hrun as (last_key & _ & Hrun).
  apply bind_ok in Hrun. destruct Hrun as (comp_size & _ & Hrun).
  apply bind_ok in Hrun. destruct Hrun as (decomp_size & _ & Hrun).
  injection Hrun as <-. eexists. cbn. repeat split.
Qed.

Lemma kbi_loop_spec (m : Mdict) (buf : list Z) (bw tt : Z) :
  forall (n : nat) (st st' : kbi_state),
    kbi_loop m buf bw tt n st = Ok st' ->
    exists new, kbi_list st' = kbi_list st ++ new /\ length new = n /\
      descriptors_from (previous_start_offset st) (comp_acc st) (decomp_acc st) new.
Proof.
  induction n as [|n IH]; intros st st' Hrun.
  - cbn in Hrun. injection Hrun as <-. exists []. rewrite app_nil_r. repeat split.
  - cbn [kbi_loop] in Hrun. apply bind_ok in Hrun. destruct Hrun as (st1 & Hstep & Hrun).
    apply kbi_step_spec in Hstep.
    destruct Hstep as (info & Hlist & Hs & Hc & Hd & Hs' & Hc' & Hd').
    apply IH in Hrun. destruct Hrun as (new & Hlist' & Hlen & Hdesc).
    exists (info :: new). rewrite Hlist', Hlist, <- app_assoc.
    split; [reflexivity|]. split; [cbn; lia|].
    cbn. rewrite Hs', Hc', Hd' in Hdesc. repeat split; assumption.
Qed.

Lemma descriptors_from_lookup (l : list key_block_info) :
  forall start ca da, descriptors_from start ca da l ->
    (forall info, l !! 0%nat = Some info ->
       key_block_start_offset_ info = start /\
       key_block_comp_accumulator info = ca /\ key_block_decomp_accumulator info = da) /\
    (forall j info info', l !! j = Some info -> l !! S j = Some info' ->
       key_block_start_offset_ info' =
         to_u64 (key_block_start_offset_ info + key_block_comp_size info) /\
       key_block_comp_accumulator info' =
         to_u64 (key_block_comp_accumulator info + key_block_comp_size info) /\
       key_block_decomp_accumulator info' =
         to_u64 (key_block_decomp_accumulator info + key_block_decomp_size info)).
Proof.
  induction l as [|x l IH]; intros start ca da Hdesc.
  - split; intros; discriminate.
  - destruct Hdesc as (Hs & Hca & Hda & Hrest).
    destruct (IH _ _ _ Hrest) as (Hfirst & Hnext).
    split.
    + intros info [= <-]. repeat split; assumption.
    + intros [|j] info info' Hi Hi'.
      * injection Hi as <-. cbn in Hi'. destruct (Hfirst info' Hi') as (-> & -> & ->).
        rewrite Hs, Hca, Hda. repeat split; reflexivity.
      * exact (Hnext j info info' Hi Hi').
Qed.

(** X10.  The key block descriptors that [decode_key_block_info] reads:
    there are [key_block_num] of them, the offsets and accumulators of the
    first are 0, and those of every other descriptor are those of the one
    before it plus its sizes, in 64-bit arithmetic.  The function succeeds
    only on a dictionary of version 2.0 or later. *)
Theorem decode_key_block_info_descriptors (m m' : Mdict) (buf : list Z) (len : Z) :
  decode_key_block_info m buf len = Ok m' ->
  key_block_info_list (ki m) = [] ->
  let descriptors := key_block_info_list (ki m') in
  version_ge_2 m = true /\
  length descriptors = Z.to_nat (key_block_num (kh m)) /\
  (forall info, descriptors !! 0%nat = Some info ->
     key_block_start_offset_ info = 0 /\
     key_block_comp_accumulator info = 0 /\ key_block_decomp_accumulator info = 0) /\
  (forall j info info', descriptors !! j = Some info -> descriptors !! S j = Some info' ->
     key_block_start_offset_ info' =
       to_u64 (key_block_start_offset_ info + key_block_comp_size info) /\
     key_block_comp_accumulator info' =
       to_u64 (key_block_comp_accumulator info + key_block_comp_size info) /\
     key_block_decomp_accumulator info' =
       to_u64 (key_block_decomp_accumulator info + key_block_decomp_size info)) /\
  key_block_body_start (ki m') =
    key_block_info_start_offset (kh m) + key_block_info_size (kh m).
Proof.
  intros Hrun Hempty. unfold decode_key_block_info in Hrun.
  destruct (version_ge_2 m) eqn:Hv; [|discriminate].
  do 6 (apply bind_ok in Hrun; destruct Hrun as (? & _ & Hrun)).
  unfold decode_key_block_info_payload in Hrun.
  apply bind_ok in Hrun. destruct Hrun as ([] & _ & Hrun).
  apply bind_ok in Hrun. destruct Hrun as (st & Hloop & Hrun).
  injection Hrun as <-. cbn [ki set_ki key_block_info_list key_block_body_start].
  apply kbi_loop_spec in Hloop. destruct Hloop as (new & Hlist & Hlen & Hdesc).
  cbn [kbi_list previous_start_offset comp_acc decomp_acc] in Hlist, Hdesc.
  rewrite Hempty in Hlist. cbn [app] in Hlist. rewrite Hlist.
  destruct (descriptors_from_lookup new 0 0 0 Hdesc) as (Hfirst & Hnext).
  split; [reflexivity|]. split; [exact Hlen|]. split; [exact Hfirst|].
  split; [exact Hnext | reflexivity].
Qed.

End DirectoryFacts.

(** ** One definition for a key *)

Section SingleFacts.

Context `{ext : Externals}.

Variable m : Mdict.
Variable blocks : list (list Z).
Hypothesis Hwf : well_formed m blocks.

(** The block of a key is found; when it does not hold the last key of the
    list, it decodes to the entries that the file stores in it. *)
Lemma block_of_key (k : key_list_item) :
  k ∈ key_list (ki m) -> away_from_last_key m (record_start k) ->
  exists b h,
    record_header (ri m) !! b = Some h /\ in_block h (record_start k) = true /\
    reduce_record_block_offset m (record_start k) = Ok (Z.of_nat b) /\
    decode_record_block_by_rid m (Z.of_nat b) = Ok (stored_in_block m blocks b).
Proof.
  intros Hk Haway.
  pose proof (wf_covered _ _ Hwf) as Hcov. rewrite Forall_forall in Hcov.
  destruct (Hcov k Hk) as (b & h & Hh & Hin).
  pose proof (wf_range _ _ Hwf) as Hrange. rewrite Forall_forall in Hrange.
  assert (Hne : record_header (ri m) <> []) by (intros E; rewrite E in Hh; discriminate).
  destruct (reduce_record_block_offset_spec m (wf_first _ _ Hwf) (wf_next _ _ Hwf)
              (sizes_nonneg m blocks Hwf) (wf_few_headers m blocks Hwf) (record_start k)
              ltac:(specialize (Hrange k Hk); lia) Hne)
    as (b' & Hrun & Hholds).
  pose proof (in_block_holds m blocks Hwf b h _ Hh Hin) as Hb.
  pose proof (holds_unique m (wf_next _ _ Hwf) (sizes_nonneg m blocks Hwf) _ _ _ Hholds Hb).
  subst b'. exists b, h. split; [exact Hh|]. split; [exact Hin|]. split; [exact Hrun|].
  apply (decode_record_block_by_rid_eq m blocks Hwf b h Hh).
  intros klast Hklast. exact (Haway b h klast Hh Hklast Hin).
Qed.

Lemma stored_in_skip (word : string) (h : record_header_item)
    (pre rest : list key_list_item) :
  Forall (fun item => key_word item <> word) pre ->
  filter (fun p => word = fst p) (stored_in h (stored_entries blocks (pre ++ rest))) =
  filter (fun p => word = fst p) (stored_in h (stored_entries blocks rest)).
Proof.
  induction 1 as [|x pre Hx _ IH]; [reflexivity|].
  cbn [app]. rewrite stored_in_cons, filter_app, IH.
  destruct (in_block h (record_start x)); [|reflexivity].
  rewrite filter_cons. cbn [fst].
  destruct (decide (word = key_word x)) as [E|_]; [congruence | reflexivity].
Qed.

(** The first definition found in the block of the first key that is the
    word is the stored value of that key. *)
Lemma first_definition (word : string) (pre post : list key_list_item)
    (k : key_list_item) (b : nat) (h : record_header_item) :
  key_list (ki m) = pre ++ k :: post ->
  Forall (fun item => key_word item <> word) pre ->
  key_word k = word ->
  record_header (ri m) !! b = Some h -> in_block h (record_start k) = true ->
  exists rest,
    reduce_particial_keys_vector (stored_in_block m blocks b) word =
    be_bin_to_utf8 (stored_value blocks k (head post)) :: rest.
Proof.
  intros Hkeys Hpre Hk Hh Hin.
  rewrite reduce_particial_keys_vector_eq. unfold stored_in_block.
  rewrite Hh, Hkeys, (stored_in_skip word h pre _ Hpre).
  rewrite stored_in_cons, Hin. cbn [app]. rewrite filter_cons. cbn [fst].
  destruct (decide (word = key_word k)) as [_|Hn]; [|congruence].
  cbn [map snd app]. eexists. reflexivity.
Qed.

(** X11.  [lookup0] and [locate] return the empty string for a word that
    is no key of the list.  In a text dictionary in the layout of the format
    (the directory holds the prefix sums of the block sizes, the blocks
    decompress, the keys are sorted by offset and lie in the blocks, no value
    runs over the end of its block), when the first key of the list that is
    the word lies in no block that holds the last key of the list, they
    return the value that the file stores for that key: the bytes of the
    record data from its offset to the offset of the next key, as text, with
    the post-processing of each function ([trim_nulls], and for [locate]
    with the Base64 encoding [base64_from_hex] after it). *)
Theorem lookup0_returns_first_definition (word : string) :
  (Forall (fun item => key_word item <> word) (key_list (ki m)) ->
   lookup0 m word = Ok EmptyString /\
   forall encoding, locate m word encoding = Ok EmptyString) /\
  (forall (pre post : list key_list_item) (k : key_list_item),
     key_list (ki m) = pre ++ k :: post ->
     Forall (fun item => key_word item <> word) pre ->
     key_word k = word ->
     away_from_last_key m (record_start k) ->
     let def := trim_nulls (be_bin_to_utf8 (stored_value blocks k (head post))) in
     lookup0 m word = Ok def /\
     locate m word MDICT_ENCODING_HEX = Ok def /\
     locate m word MDICT_ENCODING_BASE64 = Ok (base64_from_hex def)).
Proof.
  split.
  - intros Hnone.
    assert (Hfind : list_find (fun item => key_word item = word) (key_list (ki m)) = None).
    { apply list_find_None. exact Hnone. }
    unfold lookup0, lookup0_try, locate. rewrite Hfind. split; [reflexivity|].
    intros encoding. reflexivity.
  - intros pre post k Hkeys Hpre Hk Haway def.
    assert (Hfind : list_find (fun item => key_word item = word) (key_list (ki m)) =
                    Some (length pre, k)).
    { apply list_find_Some. rewrite Hkeys. split; [|split].
      - rewrite lookup_app_r by lia. rewrite Nat.sub_diag. reflexivity.
      - exact Hk.
      - intros j y Hy Hj. rewrite lookup_app_l in Hy by exact Hj.
        rewrite Forall_lookup in Hpre. exact (Hpre j y Hy). }
    assert (Hmem : k ∈ key_list (ki m)).
    { rewrite Hkeys. apply elem_of_app. right. left. }
    destruct (block_of_key k Hmem Haway) as (b & h & Hh & Hin & Hidx & Hdec).
    destruct (first_definition word pre post k b h Hkeys Hpre Hk Hh Hin)
      as (rest & Hdefs).
    unfold lookup0, lookup0_try, locate. rewrite Hfind, Hidx.
    cbn [mbind outcome_bind]. rewrite Hdec. cbn [mbind outcome_bind].
    rewrite Hdefs. repeat split.
Qed.

(** X12.  In a text dictionary in the layout of the format,
    [parse_definition], given a word and the offset of the first key of the
    list that is the word, returns the value that the file stores for that
    key, as text, when the key lies in no block that holds the last key of
    the list. *)
Theorem parse_definition_returns_stored (word : string)
    (pre post : list key_list_item) (k : key_list_item) :
  key_list (ki m) = pre ++ k :: post ->
  Forall (fun item => key_word item <> word) pre ->
  key_word k = word ->
  away_from_last_key m (record_start k) ->
  parse_definition m word (record_start k) =
  Ok (be_bin_to_utf8 (stored_value blocks k (head post))).
Proof.
  intros Hkeys Hpre Hk Haway.
  assert (Hmem : k ∈ key_list (ki m)).
  { rewrite Hkeys. apply elem_of_app. right. left. }
  destruct (block_of_key k Hmem Haway) as (b & h & Hh & Hin & Hidx & Hdec).
  destruct (first_definition word pre post k b h Hkeys Hpre Hk Hh Hin)
    as (rest & Hdefs).
  unfold parse_definition. rewrite Hidx. cbn [mbind outcome_bind].
  rewrite Hdec. cbn [mbind outcome_bind]. rewrite Hdefs. reflexivity.
Qed.

(** X13.  In a text dictionary in the layout of the format, every record
    block that does not hold the last key of the list decodes to the
    entries that the file stores in it: the keys of the list whose offset
    lies in the block, in the order of the list, each with the bytes of the
    record data from its offset up to the offset of the next key, as
    text. *)
Theorem decode_record_block_by_rid_entries (b : nat) (h : record_header_item) :
  record_header (ri m) !! b = Some h ->
  (forall k, last (key_list (ki m)) = Some k -> in_block h (record_start k) = false) ->
  decode_record_block_by_rid m (Z.of_nat b) =
    Ok (stored_in h (stored_entries blocks (key_list (ki m)))) /\
  map fst (stored_in h (stored_entries blocks (key_list (ki m)))) =
    map key_word (filter (fun k => in_block h (record_start k) = true) (key_list (ki m))).
Proof.
  intros Hh Hlast. split.
  - rewrite (decode_record_block_by_rid_eq m blocks Hwf b h Hh Hlast).
    unfold stored_in_block. rewrite Hh. reflexivity.
  - apply stored_in_keys.
Qed.

(** X14.  In a text dictionary in the layout of the format, when no key
    that matches the word lies in a block that holds the last key of the
    list, [lookup] returns, block after block in file order, the stored
    values of the entries that match the word: in each block the entries
    whose key is the word first, then those that match only after
    normalization, every entry once.  A text is in the result exactly when
    it is the stored value of an entry whose key is the word or has the
    normal form of the word. *)
Theorem lookup_on_well_formed (word : string) :
  (forall k, k ∈ key_list (ki m) -> matches word k ->
             away_from_last_key m (record_start k)) ->
  lookup m word =
    Ok (flat_map
          (fun b =>
             let entries := stored_in_block m blocks b in
             map snd (filter (fun p => word = fst p) entries) ++
             map snd (filter (fun p => word <> fst p /\ _s word = _s (fst p)) entries))
          (seq 0 (length blocks))) /\
  (forall v, (exists l, lookup m word = Ok l /\ v ∈ l) <->
     exists k, (k, v) ∈ stored_entries blocks (key_list (ki m)) /\ matches word k).
Proof.
  intros Haway. split.
  - rewrite (lookup_exact m blocks Hwf word Haway). f_equal.
    apply flat_map_ext. intros b. apply reduce_particial_keys_vector_eq.
  - intros v. exact (lookup_elem m blocks Hwf word v Haway).
Qed.


End SingleFacts.

(** ** Splitting a key block *)

Section SplitFacts.

Context `{ext : Externals}.

Lemma be_bytes_length (w : nat) (z : Z) : length (Sample.be_bytes w z) = w.
Proof.
  revert z. induction w as [|w IH]; intros z; cbn [Sample.be_bytes]; [reflexivity|].
  rewrite length_app, IH. cbn. lia.
Qed.

Lemma be_value_snoc (l : list Z) (x : Z) : be_value (l ++ [x]) = be_value l * 256 + x.
Proof. unfold be_value. rewrite fold_left_app. reflexivity. Qed.

Lemma be_value_be_bytes (w : nat) (z : Z) :
  0 <= z < 256 ^ Z.of_nat w -> be_value (Sample.be_bytes w z) = z.
Proof.
  revert z. induction w as [|w IH]; intros z Hz.
  - cbn in *. unfold be_value. cbn. lia.
  - cbn [Sample.be_bytes]. rewrite be_value_snoc, IH.
    + pose proof (Z.div_mod z 256 ltac:(lia)). lia.
    + rewrite Nat2Z.inj_succ, Z.pow_succ_r in Hz by lia.
      split; [apply Z.div_pos; lia | apply Z.div_lt_upper_bound; lia].
Qed.

Section Utf8Keys.

Variable m : Mdict.
Hypothesis Hv : version_ge_2 m = true.
Hypothesis Hnw : number_width (hdr m) = 8.
Hypothesis Henc : encoding (hdr m) = ENCODING_UTF8.

Lemma terminator_test (b : Z) :
  0 <= b < 256 ->
  ((Z.shiftr (Z.land b 240) 4 =? 0) && (Z.shiftr (Z.land b 15) 0 =? 0)) = (b =? 0).
Proof.
  intros Hb.
  assert (H : forallb (fun n => let b := Z.of_nat n in
                Bool.eqb ((Z.shiftr (Z.land b 240) 4 =? 0) && (Z.shiftr (Z.land b 15) 0 =? 0))
                         (b =? 0)) (seq 0 256) = true) by (vm_compute; reflexivity).
  rewrite forallb_forall in H. specialize (H (Z.to_nat b)).
  cbv zeta in H. rewrite Z2Nat.id in H by lia.
  apply Bool.eqb_prop. apply H. apply in_seq. lia.
Qed.

Lemma int_result_ok (z : Z) : - 2 ^ 31 <= z < 2 ^ 31 -> int_result z = Ok z.
Proof.
  intros Hz. unfold int_result.
  destruct (Z.leb_spec (- 2 ^ 31) z); [|lia]. destruct (Z.ltb_spec z (2 ^ 31)); [|lia].
  reflexivity.
Qed.

Lemma to_u64_small (z : Z) : 0 <= z < 2 ^ 31 -> to_u64 z = z.
Proof. intros Hz. unfold to_u64. apply Z.mod_small. lia. Qed.

Lemma find_terminator_key (kb pre key post : list Z) (len : Z) :
  kb = pre ++ key ++ [0] ++ post -> Forall key_byte key ->
  Z.of_nat (length pre + length key) < len -> len < 2 ^ 31 ->
  forall (fuel : nat), (length key < fuel)%nat ->
    find_terminator fuel m kb len 1 (Z.of_nat (length pre)) =
    Ok (Some (Z.of_nat (length pre + length key))).
Proof.
  intros Hkb Hkey. revert pre Hkb. induction Hkey as [|b key Hb Hkey IH];
    intros pre Hkb Hlen Hint fuel Hfuel.
  - destruct fuel as [|fuel]; [cbn in Hfuel; lia|]. cbn [find_terminator].
    cbn [length] in Hlen. rewrite Nat.add_0_r in *.
    rewrite to_u64_small by lia.
    destruct (Z.ltb_spec (Z.of_nat (length pre)) len); [|lia]. cbn [negb].
    rewrite (read_lookup kb (length pre) 0)
      by (rewrite Hkb, lookup_app_r, Nat.sub_diag by lia; reflexivity).
    cbn [mbind outcome_bind]. rewrite bool_decide_eq_false_2 by (rewrite Henc; discriminate).
    reflexivity.
  - destruct fuel as [|fuel]; [cbn in Hfuel; lia|]. cbn [find_terminator].
    cbn [length] in Hlen, Hfuel.
    rewrite to_u64_small by lia.
    destruct (Z.ltb_spec (Z.of_nat (length pre)) len); [|lia]. cbn [negb].
    rewrite (read_lookup kb (length pre) b)
      by (rewrite Hkb, lookup_app_r, Nat.sub_diag by lia; reflexivity).
    cbn [mbind outcome_bind]. rewrite bool_decide_eq_false_2 by (rewrite Henc; discriminate).
    unfold key_byte in Hb. rewrite terminator_test by lia.
    destruct (Z.eqb_spec b 0); [lia|].
    rewrite int_result_ok by lia. cbn [mbind outcome_bind].
    replace (Z.of_nat (length pre) + 1) with (Z.of_nat (length (pre ++ [b])))
      by (rewrite length_app; cbn [length]; lia).
    rewrite (IH (pre ++ [b])).
    + rewrite length_app. cbn [length]. do 2 f_equal. lia.
    + rewrite Hkb, <- !app_assoc. reflexivity.
    + rewrite length_app. cbn [length]. lia.
    + exact Hint.
    + lia.
Qed.

Lemma split_key_block_loop_layout (entries : list (Z * list Z)) :
  Forall (fun e => 0 <= fst e < 2 ^ 64 /\ Forall key_byte (snd e)) entries ->
  forall (done : list Z) (fuel : nat) (key_end_idx : Z) (acc : list key_list_item),
    (length entries < fuel)%nat ->
    Z.of_nat (length (done ++ key_block_of entries)) < 2 ^ 31 ->
    split_key_block_loop fuel m (done ++ key_block_of entries)
      (Z.of_nat (length (done ++ key_block_of entries))) (Z.of_nat (length done))
      key_end_idx acc =
    Ok (acc ++ map (fun e => mk_key_list_item (fst e) (be_bin_to_utf8 (snd e))) entries).
Proof.
  induction 1 as [|[rs key] entries [Hrs Hkey] _ IH];
    intros done fuel key_end_idx acc Hfuel Hsize.
  - destruct fuel as [|fuel]; [lia|]. cbn [split_key_block_loop key_block_of flat_map map].
    rewrite !app_nil_r in *. rewrite to_u64_small by lia.
    destruct (Z.ltb_spec (Z.of_nat (length done)) (Z.of_nat (length done)));
      [lia | reflexivity].
  - destruct fuel as [|fuel]; [cbn in Hfuel; lia|].
    cbn [fst snd] in *. cbn [length] in Hfuel.
    set (kb := done ++ key_block_of ((rs, key) :: entries)) in *.
    assert (Hkb : kb = done ++ Sample.be_bytes 8 rs ++ key ++ [0] ++ key_block_of entries).
    { unfold kb, key_block_of. cbn [flat_map fst snd]. rewrite <- !app_assoc. reflexivity. }
    assert (Hlen : length kb =
                   (length done + 8 + length key + 1 + length (key_block_of entries))%nat).
    { rewrite Hkb, !length_app, be_bytes_length. cbn [length]. lia. }
    cbn [split_key_block_loop]. rewrite to_u64_small by lia.
    destruct (Z.ltb_spec (Z.of_nat (length done)) (Z.of_nat (length kb))); [|lia].
    cbn [negb]. rewrite Hv.
    (* the offset of the record *)
    unfold be_bin_to_u64. rewrite be_bin_to_uint_eq by lia.
    rewrite !Nat2Z.id. change (Z.to_nat 8) with 8%nat.
    assert (Hnum : take 8 (drop (length done) kb) = Sample.be_bytes 8 rs).
    { rewrite Hkb, drop_app_length. apply take_app_length'. symmetry. apply be_bytes_length. }
    rewrite Hnum, (be_value_be_bytes 8 rs) by exact Hrs.
    cbn [mbind outcome_bind]. rewrite Hnw.
    rewrite bool_decide_eq_false_2 by (rewrite Henc; discriminate).
    rewrite int_result_ok by lia. cbn [mbind outcome_bind].
    rewrite to_u64_small by lia.
    destruct (Z.leb_spec (Z.of_nat (length kb)) (Z.of_nat (length done) + 8)); [lia|].
    (* the terminator *)
    replace (Z.of_nat (length done) + 8)
      with (Z.of_nat (length (done ++ Sample.be_bytes 8 rs)))
      by (rewrite length_app, be_bytes_length; lia).
    rewrite (find_terminator_key kb (done ++ Sample.be_bytes 8 rs) key
               (key_block_of entries)); cycle 1.
    { rewrite Hkb, <- !app_assoc. reflexivity. }
    { exact Hkey. }
    { rewrite length_app, be_bytes_length. lia. }
    { exact Hsize. }
    { lia. }
    cbn [mbind outcome_bind default from_option id].
    rewrite length_app, be_bytes_length.
    set (key_end := Z.of_nat (length done + 8 + length key)).
    assert (Hend : key_end = Z.of_nat (length done) + 8 + Z.of_nat (length key))
      by (unfold key_end; lia).
    rewrite (to_u64_small key_end) by lia.
    destruct (Z.leb_spec (Z.of_nat (length kb)) key_end); [lia|].
    (* the text of the key *)
    unfold key_text_of. rewrite Hnw.
    rewrite bool_decide_eq_false_2 by (rewrite Henc; discriminate).
    rewrite bool_decide_eq_true_2 by exact Henc.
    rewrite (int_result_ok (Z.of_nat (length done) + 8)) by lia. cbn [mbind outcome_bind].
    rewrite (int_result_ok (key_end - Z.of_nat (length done))) by lia.
    cbn [mbind outcome_bind].
    rewrite (int_result_ok (key_end - Z.of_nat (length done) - 8)) by lia.
    cbn [mbind outcome_bind].
    replace (key_end - Z.of_nat (length done) - 8) with (Z.of_nat (length key)) by lia.
    rewrite (to_u64_small (Z.of_nat (length key))) by lia.
    rewrite slice_ok by lia.
    cbn [mbind outcome_bind mret outcome_ret].
    replace (Z.to_nat (Z.of_nat (length done) + 8)) with (length (done ++ Sample.be_bytes 8 rs))
      by (rewrite length_app, be_bytes_length; lia).
    rewrite Nat2Z.id.
    assert (Htext : take (length key) (drop (length (done ++ Sample.be_bytes 8 rs)) kb) = key).
    { rewrite Hkb, (app_assoc done), drop_app_length. apply take_app_length. }
    rewrite Htext.
    rewrite (int_result_ok (key_end + 1)) by lia. cbn [mbind outcome_bind].
    replace (key_end + 1)
      with (Z.of_nat (length (done ++ Sample.be_bytes 8 rs ++ key ++ [0])))
      by (rewrite !length_app, be_bytes_length; cbn [length]; lia).
    assert (Hkb' : kb = (done ++ Sample.be_bytes 8 rs ++ key ++ [0]) ++ key_block_of entries)
      by (rewrite Hkb, <- !app_assoc; reflexivity).
    rewrite Hkb'. rewrite IH.
    + rewrite <- app_assoc. reflexivity.
    + lia.
    + rewrite <- Hkb'. exact Hsize.
Qed.

(** X15.  [split_key_block] reads back the layout of a key block of
    version 2.0 with UTF-8 keys, shorter than 2^31 bytes: from the bytes made
    of, for every entry, its record offset as eight big-endian bytes, the
    bytes of its key (none of them zero) and a zero byte, it returns the
    entries, in order, each with its offset and the text of its key. *)
Theorem split_key_block_reads_the_layout (entries : list (Z * list Z)) :
  Forall (fun e => 0 <= fst e < 2 ^ 64 /\ Forall key_byte (snd e)) entries ->
  Z.of_nat (length (key_block_of entries)) < 2 ^ 31 ->
  split_key_block m (key_block_of entries) (Z.of_nat (length (key_block_of entries))) =
  Ok (map (fun e => mk_key_list_item (fst e) (be_bin_to_utf8 (snd e))) entries).
Proof.
  intros Hentries Hsize. unfold split_key_block.
  apply (split_key_block_loop_layout entries Hentries [] _ 0 []); [|exact Hsize].
  rewrite Nat2Z.id.
  assert (Hlen : (length entries <= length (key_block_of entries))%nat).
  { clear. induction entries as [|e l IH]; [cbn; lia|].
    unfold key_block_of in *. cbn [flat_map]. rewrite !length_app. cbn [length]. lia. }
  lia.
Qed.

End Utf8Keys.

End SplitFacts.

(** ** The entry points for Java *)

Section JniFacts.

Context `{ext : Externals}.

Lemma lookup_no_throw (m : Mdict) (word : string) (e : exn) : lookup m word <> Throw e.
Proof. unfold lookup. destruct (lookup_try m word); discriminate. Qed.

(** X16.  No C++ exception leaves [lookupNative], [getSuggestionsNative]
    or [getFullTextSuggestionsNative].  [lookupNative] returns null for the
    handle 0 and for a word without definitions, and never an empty array:
    the array it returns has one element for each definition that [lookup]
    found, made of the definition up to its first NUL character.
    [getSuggestionsNative] returns an array as long as the list of
    suggestions, also when there are none.  [getMatchCountNative] returns 0
    for the handle 0 and the count of [get_match_count] otherwise. *)
Theorem native_entry_points (env : JNIEnv) (handle : option Mdict) (word : string) :
  (forall e, lookupNative env handle word <> Throw e) /\
  (forall e, getSuggestionsNative env handle word <> Throw e) /\
  (forall e, getFullTextSuggestionsNative env handle word <> Throw e) /\
  lookupNative env None word = Ok None /\
  (forall array, lookupNative env handle word = Ok (Some array) ->
     exists dict results,
       handle = Some dict /\ lookup dict word = Ok results /\ results <> [] /\
       array = map (fun def => NewStringUTF env (c_str def)) results) /\
  (forall dict, FindClass_String env = true ->
     NewObjectArray env (length (suggest dict word)) = true ->
     getSuggestionsNative env (Some dict) word =
     Ok (Some (map (fun key => NewStringUTF env (c_str key)) (suggest dict word)))) /\
  getMatchCountNative None word = Ok 0 /\
  (forall dict, getMatchCountNative (Some dict) word = get_match_count dict word).
Proof.
  split; [|split; [|split; [|split; [|split; [|split; [|split]]]]]].
  - intros e. unfold lookupNative. destruct handle as [dict|]; [|discriminate].
    pose proof (lookup_no_throw dict word) as Hno.
    destruct (lookup dict word) as [results| | | |]; cbn [mbind outcome_bind];
      try discriminate; [|exfalso; exact (Hno _ eq_refl)].
    case_bool_decide; discriminate.
  - intros e. unfold getSuggestionsNative. destruct handle; discriminate.
  - intros e. unfold getFullTextSuggestionsNative. destruct handle as [dict|]; [|discriminate].
    pose proof (fulltext_search_no_throw dict word) as Hno.
    destruct (fulltext_search dict word) as [results| | | |]; cbn [mbind outcome_bind];
      try discriminate. exfalso. exact (Hno _ eq_refl).
  - reflexivity.
  - intros array Hrun. unfold lookupNative in Hrun. destruct handle as [dict|]; [|discriminate].
    destruct (lookup dict word) as [results| | | |] eqn:Hresults;
      cbn [mbind outcome_bind] in Hrun; try discriminate.
    case_bool_decide as Hempty; [discriminate|].
    unfold string_array in Hrun.
    destruct (FindClass_String env); cbn [negb] in Hrun; [|discriminate].
    destruct (NewObjectArray env (length results)); cbn [negb] in Hrun; [|discriminate].
    injection Hrun as <-. exists dict, results.
    split; [reflexivity|]. split; [exact Hresults|]. split; [exact Hempty | reflexivity].
  - intros dict Hclass Harray. unfold getSuggestionsNative, string_array.
    rewrite Hclass, Harray. reflexivity.
  - reflexivity.
  - intros dict. reflexivity.
Qed.

End JniFacts.

(** ** The regular-expression suggestions, in sum *)

Section RegexMore.

Context `{ext : Externals}.

(** X26.  [regex_suggest] returns at most fifty keys; each of them is a
    key of the dictionary, and the regular expression, which compiles,
    matches it.  The counter of tested candidates ends at 20001 at most. *)
Theorem regex_suggest_returns_matching_keys (m : Mdict) (regex_str : string) :
  (length (snd (regex_suggest m regex_str)) <= 50)%nat /\
  (forall key, In key (snd (regex_suggest m regex_str)) ->
     In key (map key_word (key_list (ki m))) /\
     exists re, regex_compile (utf8_to_wstring regex_str) = Some re /\
                regex_search (utf8_to_wstring key) re = true) /\
  0 <= snd (regex_suggest_run m regex_str) <= 20001.
Proof. exact (regex_suggest_sound_and_bounded m regex_str). Qed.

End RegexMore.

(** ** The results at work on the samples *)

Section MoreExamples.

Import Sample Examples.

Lemma utf8_to_wstring_decodes_utf8_witness :
  utf8_to_wstring_bytes (flat_map utf8_encode [65; 233; 20013; 128512]) =
  [65; 233; 20013; 128512].
Proof.
  apply (proj1 utf8_to_wstring_decodes_utf8). repeat constructor; lia.
Defined.

Lemma reduce_record_block_offset_finds_the_block_witness :
  exists (b : nat) (h : record_header_item),
    reduce_record_block_offset two_entries_dict 10 = Ok (Z.of_nat b) /\
    record_header (ri two_entries_dict) !! b = Some h /\
    decompressed_size_accumulator h <= 10 /\
    (forall h', record_header (ri two_entries_dict) !! S b = Some h' ->
       10 < decompressed_size_accumulator h').
Proof.
  pose proof (proj2 two_entries_well_formed) as Hwf.
  apply (proj2 (reduce_record_block_offset_finds_the_block two_entries_dict 10)).
  - exact (wf_first _ _ Hwf).
  - exact (wf_next _ _ Hwf).
  - exact (sizes_nonneg _ _ Hwf).
  - exact (wf_few_headers _ _ Hwf).
  - lia.
  - vm_compute. discriminate.
Defined.

Lemma init_success_invariants_witness :
  let m := constructed MDXTYPE (Opened two_entries) in
  let m' := two_entries_dict in
  (exists bytes, file_ptr m = Opened bytes) /\
  filename m' = filename m /\ filetype m' = filetype m /\ file_ptr m' = file_ptr m /\
  version_ge_2 m' = true /\
  encrypt (hdr m') <> ENCRYPT_RECORD_ENC /\
  (@NDEBUG (externals headinfo_v2) = false ->
   Z.of_nat (length (key_list (ki m'))) = entries_num (kh m') /\
   record_block_entries_number (ri m') = entries_num (kh m') /\
   Z.of_nat (length (record_header (ri m'))) = record_block_number (ri m')).
Proof.
  exact (@init_success_invariants (externals headinfo_v2)
           (constructed MDXTYPE (Opened two_entries)) two_entries_dict
           (proj1 two_entries_well_formed)).
Defined.

Lemma read_record_block_header_directory_witness :
  let directory := record_header (ri two_entries_dict) in
  length directory = Z.to_nat (record_block_number (ri two_entries_dict)) /\
  (forall h, directory !! 0%nat = Some h ->
     compressed_size_accumulator h = 0 /\ decompressed_size_accumulator h = 0) /\
  (forall j h h', directory !! j = Some h -> directory !! S j = Some h' ->
     compressed_size_accumulator h' =
       to_u64 (compressed_size_accumulator h + compressed_size h) /\
     decompressed_size_accumulator h' =
       to_u64 (decompressed_size_accumulator h + decompressed_size h)) /\
  (forall j h, directory !! j = Some h -> block_id h = Z.of_nat j) /\
  record_block_offset (ri two_entries_dict) =
    record_block_info_offset (ki two_entries_keys) + 32 +
    record_block_header_size (ri two_entries_dict).
Proof.
  refine (@read_record_block_header_directory (externals headinfo_v2)
            two_entries_keys two_entries_dict _ _ _); vm_compute; reflexivity.
Defined.

Lemma decode_key_block_info_descriptors_witness :
  let descriptors := key_block_info_list (ki two_entries_descriptors) in
  version_ge_2 two_entries_header = true /\
  length descriptors = Z.to_nat (key_block_num (kh two_entries_header)) /\
  (forall info, descriptors !! 0%nat = Some info ->
     key_block_start_offset_ info = 0 /\
     key_block_comp_accumulator info = 0 /\ key_block_decomp_accumulator info = 0) /\
  (forall j info info', descriptors !! j = Some info -> descriptors !! S j = Some info' ->
     key_block_start_offset_ info' =
       to_u64 (key_block_start_offset_ info + key_block_comp_size info) /\
     key_block_comp_accumulator info' =
       to_u64 (key_block_comp_accumulator info + key_block_comp_size info) /\
     key_block_decomp_accumulator info' =
       to_u64 (key_block_decomp_accumulator info + key_block_decomp_size info)) /\
  key_block_body_start (ki two_entries_descriptors) =
    key_block_info_start_offset (kh two_entries_header) +
    key_block_info_size (kh two_entries_header).
Proof.
  refine (@decode_key_block_info_descriptors (externals headinfo_v2)
            two_entries_header two_entries_descriptors two_entries_info_buffer
            (key_block_info_size (kh two_entries_header)) _ _); vm_compute; reflexivity.
Defined.

Lemma lookup0_returns_first_definition_witness :
  @lookup0 (externals headinfo_v2) two_blocks_dict "banana" =
    Ok (string_of_bytes banana_value) /\
  @locate (externals headinfo_v2) two_blocks_dict "banana" MDICT_ENCODING_HEX =
    Ok (string_of_bytes banana_value) /\
  @lookup0 (externals headinfo_v2) two_blocks_dict "grape" = Ok EmptyString.
Proof.
  pose proof (proj2 two_blocks_well_formed) as Hwf.
  pose proof (@lookup0_returns_first_definition (externals headinfo_v2)
                two_blocks_dict two_blocks_contents Hwf "banana") as [_ Hfound].
  pose proof (@lookup0_returns_first_definition (externals headinfo_v2)
                two_blocks_dict two_blocks_contents Hwf "grape") as [Hnone _].
  destruct (Hfound [mk_key_list_item 0 "apple"; mk_key_list_item 10 "Banana"]
                   [mk_key_list_item 45 "cherry"] (mk_key_list_item 15 "banana"))
    as (H0 & Hhex & _).
  - exact (proj2 two_blocks_tables).
  - apply Forall_cons. split; [discriminate|].
    apply Forall_cons. split; [discriminate|]. constructor.
  - reflexivity.
  - apply two_blocks_away. cbn [record_start]. lia.
  - split; [etransitivity; [exact H0 | vm_compute; reflexivity]|].
    split; [etransitivity; [exact Hhex | vm_compute; reflexivity]|].
    refine (proj1 (Hnone _)). rewrite (proj2 two_blocks_tables).
    repeat (apply Forall_cons; split; [discriminate|]). constructor.
Defined.

Lemma parse_definition_returns_stored_witness :
  @parse_definition (externals headinfo_v2) two_blocks_dict "banana" 15 =
  Ok (string_of_bytes banana_value).
Proof.
  etransitivity.
  - apply (@parse_definition_returns_stored (externals headinfo_v2)
             two_blocks_dict two_blocks_contents (proj2 two_blocks_well_formed) "banana"
             [mk_key_list_item 0 "apple"; mk_key_list_item 10 "Banana"]
             [mk_key_list_item 45 "cherry"] (mk_key_list_item 15 "banana")).
    + exact (proj2 two_blocks_tables).
    + apply Forall_cons. split; [discriminate|].
      apply Forall_cons. split; [discriminate|]. constructor.
    + reflexivity.
    + apply two_blocks_away. cbn [record_start]. lia.
  - vm_compute. reflexivity.
Defined.

Lemma decode_record_block_by_rid_entries_witness :
  @decode_record_block_by_rid (externals headinfo_v2) two_blocks_dict 0 =
    Ok [("apple", string_of_bytes apple_value);
        ("Banana", string_of_bytes upper_banana_value);
        ("banana", string_of_bytes banana_value)].
Proof.
  etransitivity.
  - apply (@decode_record_block_by_rid_entries (externals headinfo_v2)
             two_blocks_dict two_blocks_contents (proj2 two_blocks_well_formed)
             0%nat (mk_record_header_item 0 20 45 0 0)).
    + rewrite (proj1 two_blocks_tables). reflexivity.
    + intros k Hk. rewrite (proj2 two_blocks_tables) in Hk. injection Hk as <-.
      reflexivity.
  - vm_compute. reflexivity.
Defined.

Lemma lookup_on_well_formed_witness :
  @lookup (externals headinfo_v2) two_blocks_dict "banana" =
    Ok [string_of_bytes banana_value; string_of_bytes upper_banana_value] /\
  (exists l, @lookup (externals headinfo_v2) two_blocks_dict "banana" = Ok l /\
             string_of_bytes upper_banana_value ∈ l).
Proof.
  assert (Haway : forall k, k ∈ key_list (ki two_blocks_dict) -> matches "banana" k ->
                    away_from_last_key two_blocks_dict (record_start k)).
  { intros k Hk Hm. apply two_blocks_away. rewrite (proj2 two_blocks_tables) in Hk.
    repeat (apply elem_of_cons in Hk; destruct Hk as [->|Hk]); try (cbn; lia).
    - destruct Hm as [E|E]; vm_compute in E; discriminate.
    - apply elem_of_nil in Hk. contradiction. }
  destruct (@lookup_on_well_formed (externals headinfo_v2) two_blocks_dict
              two_blocks_contents (proj2 two_blocks_well_formed) "banana" Haway)
    as [Hlookup Helem].
  split; [rewrite Hlookup; vm_compute; reflexivity|].
  apply Helem. exists (mk_key_list_item 10 "Banana"). split.
  - rewrite (proj2 two_blocks_tables). cbn [stored_entries]. right. left.
  - right. vm_compute. reflexivity.
Defined.

Lemma split_key_block_reads_the_layout_witness :
  let entries := [(0, bytes_of_string "apple"); (10, bytes_of_string "banana")] in
  @split_key_block (externals headinfo_v2) two_entries_dict (key_block_of entries)
    (Z.of_nat (length (key_block_of entries))) =
  Ok (map (fun e => mk_key_list_item (fst e)
                      (@be_bin_to_utf8 (externals headinfo_v2) (snd e))) entries).
Proof.
  refine (@split_key_block_reads_the_layout (externals headinfo_v2) two_entries_dict
            _ _ _ [(0, bytes_of_string "apple"); (10, bytes_of_string "banana")] _ _).
  - vm_compute. reflexivity.
  - vm_compute. reflexivity.
  - vm_compute. reflexivity.
  - repeat constructor; cbn; unfold key_byte; lia.
  - vm_compute. reflexivity.
Defined.

Lemma get_match_count_counts_witness :
  get_match_count (with_keys ["a"; "b"; "b"; "c"]) "b" = Ok 2 /\
  get_match_count (with_keys ["a"; "b"; "b"; "c"]) "bb" = Ok 0.
Proof.
  split.
  - refine (proj2 (get_match_count_counts (with_keys ["a"; "b"; "b"; "c"]) "b") _ _).
    + repeat constructor.
    + vm_compute. reflexivity.
  - refine (proj1 (get_match_count_counts (with_keys ["a"; "b"; "b"; "c"]) "bb") _).
    repeat constructor; discriminate.
Defined.

Lemma suggest_complete_on_sorted_witness :
  suggest (with_keys ["Apple"; "apple pie"; "Apply"; "banana"]) "APP" =
  ["Apple"; "apple pie"; "Apply"].
Proof.
  refine (suggest_complete_on_sorted
            (with_keys ["Apple"; "apple pie"; "Apply"; "banana"]) "APP" _ _).
  - repeat constructor.
  - discriminate.
Defined.

Lemma reduce_key_info_block_items_vector_spec_witness :
  exists res,
    reduce_key_info_block_items_vector
      (map (mk_key_list_item 0) ["a-b"; "Abc"; "b c"]) "ABC" = Ok res /\
    (res = -1 \/
     0 <= res /\ exists item,
       map (mk_key_list_item 0) ["a-b"; "Abc"; "b c"] !! Z.to_nat res = Some item /\
       _s (key_word item) = _s "ABC") /\
    (map (mk_key_list_item 0) ["a-b"; "Abc"; "b c"] = [] -> res = -1) /\
    (keys_sorted_normalized (map (mk_key_list_item 0) ["a-b"; "Abc"; "b c"]) ->
     res = -1 ->
     Forall (fun item => _s (key_word item) <> _s "ABC")
            (map (mk_key_list_item 0) ["a-b"; "Abc"; "b c"])).
Proof.
  apply (reduce_key_info_block_items_vector_spec
           (map (mk_key_list_item 0) ["a-b"; "Abc"; "b c"]) "ABC").
  vm_compute. reflexivity.
Defined.

End MoreExamples.
